(** * MonteCarloSim: the simulation engine of [services/simulator.ts]

    A shallow embedding of [sampleTriangular], [topologicalSort] and
    [runSimulation], and the properties the project specification states
    about them.

    Modelling conventions.
    - A JavaScript [number] is a value of [num]: an exact rational ([Qc],
      rationals in lowest terms) or one of the three non-finite values
      [Infinity], [-Infinity], [NaN], with the IEEE-754 rules for them.
      Rounding, overflow and the sign of zero are not modelled: what is
      stated of a sum, a product or a quotient is stated of the expression
      the code evaluates, and the statements keep to what rounding leaves
      true of it.
    - [undefined] is [None]: an index outside an array gives [None].
    - A [Record<string, number>] starts as the literal [{}]: its own
      properties are a [gmap string num], and a key that is not an own
      property is looked up in [Object.prototype] ([prototypeLookup]).  An
      assignment [obj[key] = v] makes [key] an own property; the one key for
      which JavaScript does not, [__proto__], is left to the hypotheses of
      the theorems that read what a task of that name has written.
    - The sets [visited] and [temp] are [gset string]; the set
      [resourceTypes], which is iterated, is a list without duplicates in
      insertion order.
    - [Array.prototype.sort] is stable (ECMAScript 2019), so with a
      consistent comparator its result is the one of a stable insertion
      sort.  A comparator that gives [NaN] for some pairs only is not
      consistent, and the order is then the engine's choice: the theorems
      about an order assume keys for which [a - b] is never [NaN].
    - [Math.sqrt] is a parameter on the non-negative rationals; [Math.random]
      is the sequence [rand : nat -> Qc] of the generator's draws, read
      through an explicit position. *)

From Stdlib Require Import QArith Qcanon Qround Lqa Ascii DecimalString.
From stdpp Require Import gmap strings list fin_maps relations sorting.

Local Open Scope Qc_scope.

(** ** JavaScript numbers *)

Inductive num : Type :=
  | Fin (q : Qc)
  | PInf
  | NInf
  | NaN.

#[global] Instance num_eq_dec : EqDecision num.
Proof. solve_decision. Defined.

Definition ofZ (z : Z) : num := Fin (Q2Qc (inject_Z z)).
Definition ofNat (n : nat) : num := ofZ (Z.of_nat n).

(** The infinity (or [NaN]) a sign selects: the sign is given as the
    comparison of a rational with zero. *)
Definition inf_of (c : comparison) : num :=
  match c with
  | Gt => PInf
  | Lt => NInf
  | Eq => NaN
  end.

(** [a + b] *)
Definition nadd (a b : num) : num :=
  match a, b with
  | NaN, _ | _, NaN => NaN
  | Fin x, Fin y => Fin (x + y)
  | PInf, NInf | NInf, PInf => NaN
  | PInf, _ | _, PInf => PInf
  | NInf, _ | _, NInf => NInf
  end.

(** [-a] *)
Definition nneg (a : num) : num :=
  match a with
  | Fin x => Fin (- x)
  | PInf => NInf
  | NInf => PInf
  | NaN => NaN
  end.

(** [a - b] *)
Definition nsub (a b : num) : num := nadd a (nneg b).

(** [a * b] *)
Definition nmul (a b : num) : num :=
  match a, b with
  | NaN, _ | _, NaN => NaN
  | Fin x, Fin y => Fin (x * y)
  | Fin x, PInf | PInf, Fin x => inf_of (x ?= 0)
  | Fin x, NInf | NInf, Fin x => inf_of (0 ?= x)
  | PInf, PInf | NInf, NInf => PInf
  | PInf, NInf | NInf, PInf => NInf
  end.

(** [a / b]: a zero divisor gives an infinity of the sign of the dividend,
    and [0 / 0] gives [NaN]. *)
Definition ndiv (a b : num) : num :=
  match a, b with
  | NaN, _ | _, NaN => NaN
  | Fin x, Fin y => if decide (y = 0) then inf_of (x ?= 0) else Fin (x / y)
  | Fin _, (PInf | NInf) => Fin 0
  | PInf, Fin y => if decide (y < 0) then NInf else PInf
  | NInf, Fin y => if decide (y < 0) then PInf else NInf
  | (PInf | NInf), (PInf | NInf) => NaN
  end.

(** [a < b] *)
Definition nltb (a b : num) : bool :=
  match a, b with
  | NaN, _ | _, NaN => false
  | Fin x, Fin y => bool_decide (x < y)
  | NInf, (Fin _ | PInf) => true
  | Fin _, PInf => true
  | _, _ => false
  end.

(** [a > b] *)
Definition ngtb (a b : num) : bool := nltb b a.

(** [Math.max(a, b)] *)
Definition nmax (a b : num) : num :=
  match a, b with
  | NaN, _ | _, NaN => NaN
  | _, _ => if nltb a b then b else a
  end.

(** [Math.max(...l)]: [-Infinity] on the empty list. *)
Definition Math_max (l : list num) : num := foldl nmax NInf l.

(** [Math.floor(a)] *)
Definition Math_floor (a : num) : num :=
  match a with
  | Fin x => ofZ (Qfloor x)
  | other => other
  end.

(** [Math.pow(a, 2)] *)
Definition Math_pow2 (a : num) : num := nmul a a.

(** Truthiness of a number: [0] and [NaN] are falsy. *)
Definition truthy (a : num) : bool :=
  match a with
  | Fin x => bool_decide (x ≠ 0)
  | NaN => false
  | _ => true
  end.

(** [ToNumber] of a possibly undefined number. *)
Definition toNumber (v : option num) : num :=
  match v with
  | Some a => a
  | None => NaN
  end.

(** [v || 0] *)
Definition or0 (v : option num) : num :=
  match v with
  | Some a => if truthy a then a else Fin 0
  | None => Fin 0
  end.

(** ** Records

    The property names of [Object.prototype], which every [{}] inherits. *)
Definition prototypeKeys : list string :=
  [ "constructor"; "__defineGetter__"; "__defineSetter__"; "hasOwnProperty";
    "__lookupGetter__"; "__lookupSetter__"; "isPrototypeOf";
    "propertyIsEnumerable"; "toString"; "valueOf"; "__proto__";
    "toLocaleString" ].

Definition inherited (key : string) : bool := bool_decide (key ∈ prototypeKeys).

(** What reading a property of a record, and computing with it, can give:
    a number, [undefined], a function or object of [Object.prototype], or
    the string that [+] makes of such an object and its other operand. *)
Inductive value : Type :=
  | Number (a : num)
  | Undefined
  | Inherited
  | Text.

#[global] Instance value_eq_dec : EqDecision value.
Proof. solve_decision. Defined.

(** [obj[key]] for a key that is no own property of [obj]. *)
Definition prototypeLookup (key : string) : value :=
  if inherited key then Inherited else Undefined.

(** [obj[key]] for a record of numbers. *)
Definition get (obj : gmap string num) (key : string) : value :=
  match obj !! key with
  | Some a => Number a
  | None => prototypeLookup key
  end.

(** [obj[key]] for a record that can hold strings too. *)
Definition getValue (obj : gmap string value) (key : string) : value :=
  match obj !! key with
  | Some v => v
  | None => prototypeLookup key
  end.

(** [v || 0]: functions, objects and non-empty strings are truthy. *)
Definition orZero (v : value) : value :=
  match v with
  | Number a => Number (if truthy a then a else Fin 0)
  | Undefined => Number (Fin 0)
  | Inherited => Inherited
  | Text => Text
  end.

(** [ToNumber(v)]: the strings a function or an object converts to are no
    numerals, and neither are the strings made from them. *)
Definition numberOf (v : value) : num :=
  match v with
  | Number a => a
  | _ => NaN
  end.

(** [v + w]: with a function, an object or a string as an operand the
    result is the concatenation of two strings. *)
Definition add (v w : value) : value :=
  match v, w with
  | (Inherited | Text), _ | _, (Inherited | Text) => Text
  | _, _ => Number (nadd (numberOf v) (numberOf w))
  end.

(** [arr[i]] for a number [i]: the element when [i] is an integer within
    the array, [undefined] otherwise. *)
Definition js_index {A : Type} (arr : list A) (i : num) : option A :=
  match i with
  | Fin x =>
      if decide (Qden (this x) = 1%positive ∧ (0 ≤ Qnum (this x))%Z)
      then arr !! Z.to_nat (Qnum (this x))
      else None
  | _ => None
  end.

(** [arr.sort(cmp)], stable: an element stays before the later elements
    that [cmp] does not place strictly before it ([cmp] gives [NaN]: kept). *)
Section sort.
Context {A : Type} (cmp : A → A → num).

Fixpoint sort_insert (x : A) (l : list A) : list A :=
  match l with
  | [] => [x]
  | y :: l' => if ngtb (cmp x y) (Fin 0) then y :: sort_insert x l' else x :: l
  end.

Definition js_sort (l : list A) : list A := foldr sort_insert [] l.
End sort.

(** ** The data model ([types.ts]) *)

Record Task := {
  id : string;
  name : string;
  optimistic : num;
  mostLikely : num;
  pessimistic : num;
  dependencies : list string;
  resourceType : option string;
  resourceCount : option num;
}.

Record ProjectData := {
  projectName : string;
  description : string;
  tasks : list Task;
}.

Record SimulationResult := {
  runId : nat;
  totalDuration : num;
  criticalPath : list string;
  taskDurations : gmap string num;
  taskStartTimes : gmap string num;
  peakResources : gmap string num;
}.

(** [p90Peak] and [maxPeak] are elements of an array of what the records
    of the runs gave. *)
Record ResourceStat := {
  meanPeak : num;
  p90Peak : value;
  maxPeak : value;
}.

#[global] Instance ResourceStat_eq_dec : EqDecision ResourceStat.
Proof. solve_decision. Defined.

Record SimulationStats := {
  mean : num;
  median : option num;
  stdDev : num;
  min : option num;
  max : option num;
  p50 : option num;
  p90 : option num;
  p95 : option num;
  p99 : option num;
  resourceStats : gmap string ResourceStat;
}.

(** ** Exceptions

    A computation returns, throws [new Error(msg)], or (in the model only)
    stops for lack of fuel. *)

Inductive outcome (A : Type) : Type :=
  | Ok (a : A)
  | Throw (msg : string)
  | OutOfFuel.
Arguments Ok {A} a.
Arguments Throw {A} msg.
Arguments OutOfFuel {A}.

(** [l.forEach(f)] over a state, stopping at the first exception. *)
Fixpoint forEachM {A S : Type} (f : A → S → outcome S) (l : list A) (s : S)
  : outcome S :=
  match l with
  | [] => Ok s
  | x :: l' =>
      match f x s with
      | Ok s' => forEachM f l' s'
      | Throw msg => Throw msg
      | OutOfFuel => OutOfFuel
      end
  end.

(** ** [topologicalSort] *)

(** The three variables the closure [visit] updates. *)
Record sortState := {
  visited : gset string;
  result : list Task;
  temp : gset string;
}.

(** The message of the one error [visit] throws. *)
Definition circular : string := "Circular dependency detected".

(** [tasks.find((t) => t.id === taskId)] *)
Definition find_task (tasks : list Task) (taskId : string) : option Task :=
  List.find (λ t, bool_decide (id t = taskId)) tasks.

Fixpoint visit (tasks : list Task) (fuel : nat) (taskId : string) (s : sortState)
  : outcome sortState :=
  match fuel with
  | O => OutOfFuel
  | S fuel' =>
      if decide (taskId ∈ temp s) then Throw circular
      else if decide (taskId ∈ visited s) then Ok s
      else
        let s1 := {| visited := visited s; result := result s;
                     temp := {[taskId]} ∪ temp s |} in
        match find_task tasks taskId with
        | Some task =>
            match forEachM (visit tasks fuel') (dependencies task) s1 with
            | Ok s2 =>
                Ok {| visited := {[taskId]} ∪ visited s2;
                      result := result s2 ++ [task];
                      temp := temp s2 ∖ {[taskId]} |}
            | Throw msg => Throw msg
            | OutOfFuel => OutOfFuel
            end
        | None =>
            Ok {| visited := visited s1; result := result s1;
                  temp := temp s1 ∖ {[taskId]} |}
        end
  end.

Definition sortInit : sortState :=
  {| visited := ∅; result := []; temp := ∅ |}.

(** The body of the outer [tasks.forEach]. *)
Definition visitUnvisited (tasks : list Task) (fuel : nat) (t : Task) (s : sortState)
  : outcome sortState :=
  if decide (id t ∈ visited s) then Ok s else visit tasks fuel (id t) s.

(** The recursion of [visit] is at most one deeper than the number of
    tasks, which is the fuel given. *)
Definition topologicalSort (tasks : list Task) : outcome (list Task) :=
  match forEachM (visitUnvisited tasks (S (length tasks))) tasks sortInit with
  | Ok s => Ok (result s)
  | Throw msg => Throw msg
  | OutOfFuel => OutOfFuel
  end.

(** ** [runSimulation]: one run *)

(** Step 2, the forward pass over [sortedTasks]: the records
    [taskStartTimes] and [taskFinishTimes] and the variable
    [projectDuration]. *)
Record schedule := {
  startTimes : gmap string num;
  finishTimes : gmap string num;
  projectDuration : num;
}.

Definition scheduleInit : schedule :=
  {| startTimes := ∅; finishTimes := ∅; projectDuration := Fin 0 |}.

(** The body of [sortedTasks.forEach].  [Math.max] converts its arguments
    to numbers.  [taskDurations[task.id]] is an own property: step 1 has
    written it for every task of [project.tasks], and [sortedTasks] holds
    tasks of [project.tasks] only. *)
Definition scheduleTask (durations : gmap string num) (sch : schedule) (task : Task)
  : schedule :=
  let startTime :=
    match dependencies task with
    | [] => Fin 0
    | deps =>
        Math_max ((λ depId, numberOf (orZero (get (finishTimes sch) depId))) <$> deps)
    end in
  let finishTime := nadd startTime (toNumber (durations !! id task)) in
  {| startTimes := <[id task := startTime]> (startTimes sch);
     finishTimes := <[id task := finishTime]> (finishTimes sch);
     projectDuration :=
       if ngtb finishTime (projectDuration sch) then finishTime
       else projectDuration sch |}.

Definition forwardPass (durations : gmap string num) (sortedTasks : list Task)
  : schedule :=
  foldl (scheduleTask durations) scheduleInit sortedTasks.

(** Step 3, the resource events and the sweep over them. *)
Record event := {
  time : option num;
  type : string;
  change : num;
}.

(** [t.resourceType && t.resourceCount]: the type and count of a task that
    declares both, a non-empty type and a truthy count. *)
Definition declaredResource (t : Task) : option (string * num) :=
  match resourceType t, resourceCount t with
  | Some ty, Some c =>
      if bool_decide (ty ≠ "") && truthy c then Some (ty, c) else None
  | _, _ => None
  end.

(** The two events of a task.  The [time] of an event is read in
    [a.time - b.time] only, where [undefined] and an inherited function
    alike convert to [NaN]. *)
Definition taskEvents (sch : schedule) (t : Task) : list event :=
  match declaredResource t with
  | Some (ty, c) =>
      [ {| time := startTimes sch !! id t; type := ty; change := c |};
        {| time := finishTimes sch !! id t; type := ty; change := nneg c |} ]
  | None => []
  end.

Definition resourceEvents (sch : schedule) (ts : list Task) : list event :=
  flat_map (taskEvents sch) ts.

(** [(a, b) => a.time - b.time] *)
Definition byTime (a b : event) : num :=
  nsub (toNumber (time a)) (toNumber (time b)).

(** The records [currentUsage] and [peakResources].  [currentUsage] can
    hold a string: the sum of an inherited function and a count. *)
Record usage := {
  currentUsage : gmap string value;
  peaks : gmap string num;
}.

Definition usageInit : usage := {| currentUsage := ∅; peaks := ∅ |}.

(** The body of [events.forEach]; [current] is what [currentUsage[e.type]]
    holds after the first assignment. *)
Definition applyEvent (us : usage) (e : event) : usage :=
  let current :=
    add (orZero (getValue (currentUsage us) (type e))) (Number (change e)) in
  {| currentUsage := <[type e := current]> (currentUsage us);
     peaks :=
       <[type e := nmax (numberOf (orZero (get (peaks us) (type e))))
                        (numberOf current)]> (peaks us) |}.

Definition resourcePeaks (sch : schedule) (ts : list Task) : gmap string num :=
  peaks (foldl applyEvent usageInit (js_sort byTime (resourceEvents sch ts))).

(** ** [runSimulation]: the statistics *)

(** [(a, b) => a - b] *)
Definition ascending (a b : num) : num := nsub a b.

(** [xs.reduce((a, b) => a + b, 0)] *)
Definition sumOf (xs : list num) : num := foldl nadd (Fin 0) xs.

Definition nine_tenths : num := Fin (Q2Qc (9 # 10)).
Definition p_95 : num := Fin (Q2Qc (95 # 100)).
Definition p_99 : num := Fin (Q2Qc (99 # 100)).

(** [getPercentile] over the sorted [durations]. *)
Definition getPercentile (durations : list num) (p : num) : option num :=
  js_index durations (Math_floor (nmul (ofNat (length durations)) p)).

(** [durations[Math.floor(durations.length / 2)]] *)
Definition medianOf (durations : list num) : option num :=
  js_index durations (Math_floor (ndiv (ofNat (length durations)) (ofZ 2))).

(** The set [resourceTypes], in insertion order. *)
Definition addResourceType (types : list string) (t : Task) : list string :=
  match resourceType t with
  | Some ty =>
      if bool_decide (ty ≠ "") then
        if bool_decide (ty ∈ types) then types else types ++ [ty]
      else types
  | None => types
  end.

Definition resourceTypesOf (ts : list Task) : list string :=
  foldl addResourceType [] ts.

(** [(a, b) => a - b] and [xs.reduce((a, b) => a + b, 0)] over what the
    records of the runs gave. *)
Definition ascendingValue (a b : value) : num := nsub (numberOf a) (numberOf b).

Definition sumOfValues (xs : list value) : value := foldl add (Number (Fin 0)) xs.

(** [arr[i]], [undefined] included. *)
Definition elementAt (arr : list value) (i : num) : value :=
  default Undefined (js_index arr i).

Definition resourceStatOf (results : list SimulationResult) (ty : string)
  : ResourceStat :=
  let peaks :=
    js_sort ascendingValue ((λ r, orZero (get (peakResources r) ty)) <$> results) in
  {| meanPeak := ndiv (numberOf (sumOfValues peaks)) (ofNat (length peaks));
     p90Peak := elementAt peaks (Math_floor (nmul (ofNat (length peaks)) nine_tenths));
     maxPeak := elementAt peaks (nsub (ofNat (length peaks)) (Fin 1)) |}.

Definition resourceStatsOf (types : list string) (results : list SimulationResult)
  : gmap string ResourceStat :=
  foldl (λ stats ty, <[ty := resourceStatOf results ty]> stats) ∅ types.

Section engine.
(** [Math.sqrt] on the non-negative rationals, and the draws of
    [Math.random]. *)
Variable sqrtQ : Qc → Qc.
Variable rand : nat → Qc.

Definition Math_sqrt (a : num) : num :=
  match a with
  | Fin x => if decide (x < 0) then NaN else Fin (sqrtQ x)
  | PInf => PInf
  | _ => NaN
  end.

(** [Math.random()] at position [k] of the generator. *)
Definition Math_random (k : nat) : num * nat := (Fin (rand k), S k).

(** The quotient [f] of [sampleTriangular]. *)
Definition triangular_f (min mode max : num) : num :=
  ndiv (nsub mode min) (nsub max min).

Definition sampleTriangular (min mode max : num) (k : nat) : num * nat :=
  let '(u, k') := Math_random k in
  let f := triangular_f min mode max in
  if nltb u f then
    (nadd min (Math_sqrt (nmul (nmul u (nsub max min)) (nsub mode min))), k')
  else
    (nsub max (Math_sqrt (nmul (nmul (nsub (Fin 1) u) (nsub max min)) (nsub max mode))), k').

(** Step 1: [taskDurations], one draw per task in the order of
    [project.tasks]. *)
Definition sampleTask (acc : gmap string num * nat) (t : Task)
  : gmap string num * nat :=
  let '(d, k') := sampleTriangular (optimistic t) (mostLikely t) (pessimistic t) acc.2 in
  (<[id t := d]> acc.1, k').

Definition sampleDurations (ts : list Task) (k : nat) : gmap string num * nat :=
  foldl sampleTask (∅, k) ts.

(** The body of the loop over [i]. *)
Definition simulateRun (ts sortedTasks : list Task) (i k : nat)
  : SimulationResult * nat :=
  let '(durations, k') := sampleDurations ts k in
  let sch := forwardPass durations sortedTasks in
  ({| runId := i;
      totalDuration := projectDuration sch;
      criticalPath := [];
      taskDurations := durations;
      taskStartTimes := startTimes sch;
      peakResources := resourcePeaks sch ts |}, k').

(** [for (let i = 0; i < iterations; i++)]: [n] runs are left, the next
    one has index [i]. *)
Fixpoint simulateRuns (ts sortedTasks : list Task) (n i k : nat)
  : list SimulationResult * nat :=
  match n with
  | O => ([], k)
  | S n' =>
      let '(r, k') := simulateRun ts sortedTasks i k in
      let '(rs, k'') := simulateRuns ts sortedTasks n' (S i) k' in
      (r :: rs, k'')
  end.

(** Step 4. *)
Definition computeStats (ts : list Task) (results : list SimulationResult)
  : SimulationStats :=
  let durations := js_sort ascending (totalDuration <$> results) in
  let sum := sumOf durations in
  let mean := ndiv sum (ofNat (length durations)) in
  let median := medianOf durations in
  let variance :=
    ndiv (foldl (λ acc val, nadd acc (Math_pow2 (nsub val mean))) (Fin 0) durations)
         (ofNat (length durations)) in
  {| mean := mean;
     median := median;
     stdDev := Math_sqrt variance;
     min := js_index durations (Fin 0);
     max := js_index durations (nsub (ofNat (length durations)) (Fin 1));
     p50 := median;
     p90 := getPercentile durations nine_tenths;
     p95 := getPercentile durations p_95;
     p99 := getPercentile durations p_99;
     resourceStats := resourceStatsOf (resourceTypesOf ts) results |}.

(** [iterations] is a count of loop passes; the caller may leave it out. *)
Definition defaultIterations : nat := 2000.

Definition runSimulation (project : ProjectData) (iterations : nat)
  : outcome (list SimulationResult * SimulationStats) :=
  match topologicalSort (tasks project) with
  | Ok sortedTasks =>
      let results := (simulateRuns (tasks project) sortedTasks iterations 0 0).1 in
      Ok (results, computeStats (tasks project) results)
  | Throw msg => Throw msg
  | OutOfFuel => OutOfFuel
  end.
End engine.

(** A [Math.sqrt] for the examples: exact on the squares of rationals,
    truncated elsewhere. *)
Definition sqrt_trunc (q : Qc) : Qc :=
  Q2Qc (Z.sqrt (Qnum (this q)) # Z.to_pos (Z.sqrt (Zpos (Qden (this q))))).

Local Close Scope Qc_scope.
#[local] Set Warnings "-clear-no-such-hyp".

(** * Specification vocabulary *)

(** ** Dependency graphs *)

(** The dependency relation of a task collection: [a] depends on [b] when a
    task with identifier [a] lists [b]. *)
Definition depends_on (ts : list Task) (a b : string) : Prop :=
  ∃ t, t ∈ ts ∧ id t = a ∧ b ∈ dependencies t.

(** The relation the traversal follows: the task is the one [find] gives.
    The two agree when identifiers are unique. *)
Definition dep (ts : list Task) (a b : string) : Prop :=
  ∃ t, find_task ts a = Some t ∧ b ∈ dependencies t.

Definition acyclic (ts : list Task) : Prop := ∀ a, ¬ tc (depends_on ts) a a.

(** Every dependency identifier names a task of the collection. *)
Definition deps_closed (ts : list Task) : Prop :=
  Forall (λ t, Forall (λ d, d ∈ id <$> ts) (dependencies t)) ts.

(** A ranking that every dependency lowers: a certificate of acyclicity. *)
Definition ranked (rank : string → nat) (ts : list Task) : Prop :=
  Forall (λ t, Forall (λ d, rank d < rank (id t)) (dependencies t)) ts.

(** ** The invariants of [topologicalSort] *)

Definition idSet (ts : list Task) : gset string := list_to_set (id <$> ts).

(** [temp] holds the identifiers of the calls of [visit] in progress, the
    innermost first: each was reached as a dependency of the next. *)
Inductive chain (ts : list Task) : list string → Prop :=
  | chain_nil : chain ts []
  | chain_one x : chain ts [x]
  | chain_cons x y p : dep ts y x → chain ts (y :: p) → chain ts (x :: y :: p).

(** [visit x] is called from the innermost call in progress, if any. *)
Definition entered (ts : list Task) (p : list string) (x : string) : Prop :=
  match p with
  | [] => True
  | h :: _ => dep ts h x
  end.

(** The dependencies of a task that name a task stand before it. *)
Definition deps_before (ts result : list Task) : Prop :=
  ∀ i t d, result !! i = Some t → d ∈ dependencies t →
    is_Some (find_task ts d) →
    ∃ j t', j < i ∧ result !! j = Some t' ∧ id t' = d.

(** [visited] holds the identifiers of [result], each task of [result] is
    the one [find] gives for its identifier, and [result] is ordered. *)
Record sortInv (ts : list Task) (s : sortState) : Prop := {
  inv_visited : visited s = list_to_set (id <$> result s);
  inv_found : ∀ t, t ∈ result s → find_task ts (id t) = Some t;
  inv_before : deps_before ts (result s);
  inv_NoDup : NoDup (id <$> result s);
}.

(** One or several calls of [visit]: the invariant is kept, [temp] is
    restored, and [visited] grows by identifiers that were not in progress. *)
Record sortStep (ts : list Task) (s s' : sortState) : Prop := {
  step_inv : sortInv ts s';
  step_temp : temp s' = temp s;
  step_visited : visited s ⊆ visited s';
  step_new : ∀ y, y ∈ visited s' → y ∉ visited s → y ∉ temp s;
}.

(** ** Schedules *)


(** The sampled durations are finite and not negative. *)
Definition sampled (durations : gmap string num) (ts : list Task) : Prop :=
  ∀ t, t ∈ ts → ∃ dur : Qc, durations !! id t = Some (Fin dur) ∧ (0 ≤ dur)%Qc.

(** The rational a finite number holds. *)
Definition finiteOf (v : option num) : Qc :=
  match v with
  | Some (Fin q) => q
  | _ => 0%Qc
  end.




(** A task with a fixed duration: its three estimates are [d]. *)
Definition fixed (t : Task) (d : Qc) : Prop :=
  optimistic t = Fin d ∧ mostLikely t = Fin d ∧ pessimistic t = Fin d.


(** ** Sorted samples *)

(** The order of the finite numbers. *)
Definition nle (a b : num) : Prop :=
  ∃ x y : Qc, a = Fin x ∧ b = Fin y ∧ (x ≤ y)%Qc.

Definition finite (a : num) : Prop := ∃ x : Qc, a = Fin x.

(** The statistics of a resource type no run has used. *)
Definition zeroStat : ResourceStat :=
  {| meanPeak := Fin 0%Qc; p90Peak := Number (Fin 0%Qc);
     maxPeak := Number (Fin 0%Qc) |}.

(** The percentiles [runSimulation] reads. *)
Definition percentiles : list Qc :=
  [Q2Qc (1 # 2); Q2Qc (9 # 10); Q2Qc (95 # 100); Q2Qc (99 # 100)].

(** ** Example inputs *)

(** A task whose three estimates are the integer [d]. *)
Definition fixedTask (i : string) (d : Z) (deps : list string)
    (ty : option string) (count : option num) : Task :=
  {| id := i; name := i;
     optimistic := ofZ d; mostLikely := ofZ d; pessimistic := ofZ d;
     dependencies := deps; resourceType := ty; resourceCount := count |}.

Definition projectOf (ts : list Task) : ProjectData :=
  {| projectName := "example"; description := ""; tasks := ts |}.

(** Two tasks in sequence on one resource type: [B] waits for [A]. *)
Definition taskA : Task := fixedTask "A" 2 [] (Some "dev") (Some (ofZ 2)).
Definition taskB : Task := fixedTask "B" 2 ["A"] (Some "dev") (Some (ofZ 3)).

Definition rankAB (i : string) : nat := if decide (i = "B") then 1 else 0.

(** A generator that always draws one half. *)
Definition half : nat → Qc := λ _, Q2Qc (1 # 2).

(** A generator that agrees with [half] on its first six draws only. *)
Definition halfThenQuarter : nat → Qc :=
  λ k, if decide (k < 6) then Q2Qc (1 # 2) else Q2Qc (1 # 4).

(** A task that names a dependency no task has. *)
Definition taskOrphan : Task := fixedTask "A" 1 ["ghost"] None None.

(** A task whose dependency names no task but a property that every
    object inherits. *)
Definition taskHeir : Task := fixedTask "A" 1 ["constructor"] None None.

(** Two tasks that wait for each other, and one that waits for itself. *)
Definition taskT1 : Task := fixedTask "T1" 1 ["T2"] None None.
Definition taskT2 : Task := fixedTask "T2" 1 ["T1"] None None.
Definition taskS1 : Task := fixedTask "S1" 1 ["S1"] None None.

(** Three runs of the two tasks in sequence. *)
Definition exampleRuns : list SimulationResult :=
  (simulateRuns sqrt_trunc half [taskA; taskB] [taskA; taskB] 3 0 0).1.

(** A task that names a resource type without a count. *)
Definition taskReview : Task := fixedTask "R" 1 [] (Some "qa") None.

(** Two runs of a project whose second task names the type ["qa"] only. *)
Definition reviewProject : ProjectData := projectOf [taskA; taskReview].
Definition reviewRuns : list SimulationResult :=
  (simulateRuns sqrt_trunc half [taskA; taskReview] [taskA; taskReview] 2 0 0).1.
Definition reviewStats : SimulationStats :=
  computeStats sqrt_trunc [taskA; taskReview] reviewRuns.

(** The same project with the second task's type named like a property
    that every object inherits. *)
Definition taskInherited : Task := fixedTask "R" 1 [] (Some "constructor") None.
Definition inheritedProject : ProjectData := projectOf [taskA; taskInherited].

(** What the statistics hold for a type whose runs all gave the inherited
    function. *)
Definition inheritedStat : ResourceStat :=
  {| meanPeak := NaN; p90Peak := Inherited; maxPeak := Inherited |}.

(** The durations of one run of [taskA] and [taskB], and its schedule:
    [A] runs over [[0, 2]] and [B] over [[2, 4]]. *)
Definition sequenceDurations : gmap string num :=
  <["A" := ofZ 2]> (<["B" := ofZ 2]> ∅).
Definition sequenceSchedule : schedule :=
  forwardPass sequenceDurations [taskA; taskB].

(** One task that holds three units of ["dev"] for two days. *)
Definition taskSolo : Task := fixedTask "T" 2 [] (Some "dev") (Some (ofZ 3)).

(** The scenario of [A] with estimates (1, 2, 4) followed by [B] with a
    fixed duration 1, and a generator that always draws one third, for
    which [A] samples exactly 2. *)
Definition taskWide : Task :=
  {| id := "A"; name := "A";
     optimistic := ofZ 1; mostLikely := ofZ 2; pessimistic := ofZ 4;
     dependencies := []; resourceType := None; resourceCount := None |}.
Definition taskNext : Task := fixedTask "B" 1 ["A"] None None.
Definition third : nat → Qc := λ _, Q2Qc (1 # 3).

(** * The dashboard of [components/Dashboard.tsx]

    The values the component derives from the results of a simulation
    before it draws them. *)

Local Open Scope Qc_scope.

(** [Math.ceil(a)] *)
Definition Math_ceil (a : num) : num :=
  match a with
  | Fin x => ofZ (Qceiling x)
  | other => other
  end.

(** The selector of the run that the schedule shows. *)
Inductive runType : Type :=
  | optimisticRun
  | medianRun
  | pessimisticRun.

Definition p_05 : num := Fin (Q2Qc (5 # 100)).
Definition one_half : num := Fin (Q2Qc (1 # 2)).

(** [(a, b) => a.totalDuration - b.totalDuration] *)
Definition byTotalDuration (a b : SimulationResult) : num :=
  nsub (totalDuration a) (totalDuration b).

(** The run at the 5th or the 95th percentile of the total durations, or
    the median run; [undefined] when there is no run. *)
Definition representativeRun (results : list SimulationResult)
    (selectedRunType : runType) : option SimulationResult :=
  let sortedResults := js_sort byTotalDuration results in
  match selectedRunType with
  | optimisticRun =>
      js_index sortedResults
        (Math_floor (nmul (ofNat (length sortedResults)) p_05))
  | pessimisticRun =>
      js_index sortedResults
        (Math_floor (nmul (ofNat (length sortedResults)) p_95))
  | medianRun =>
      js_index sortedResults
        (Math_floor (nmul (ofNat (length sortedResults)) one_half))
  end.

(** A row of the schedule: the fields [id], [name], [start], [duration],
    [end] and [resource] of the objects of [ganttData]. *)
Record ganttRow := {
  row_id : string;
  row_name : string;
  row_start : option num;
  row_duration : option num;
  row_end : num;
  row_resource : option string;
}.

(** The row of a task.  The run is a run of the project: its records hold
    an own property for every task. *)
Definition ganttRowOf (run : SimulationResult) (t : Task) : ganttRow :=
  {| row_id := id t;
     row_name := name t;
     row_start := taskStartTimes run !! id t;
     row_duration := taskDurations run !! id t;
     row_end := nadd (toNumber (taskStartTimes run !! id t))
                     (toNumber (taskDurations run !! id t));
     row_resource := resourceType t |}.

(** [(a, b) => a.start - b.start] *)
Definition byStart (a b : ganttRow) : num :=
  nsub (toNumber (row_start a)) (toNumber (row_start b)).

Definition ganttData (project : ProjectData)
    (representativeRun : option SimulationResult) : list ganttRow :=
  match representativeRun with
  | None => []
  | Some run => js_sort byStart (ganttRowOf run <$> tasks project)
  end.

(** The bar of a row: its left edge and its width, in percent of the total
    duration of the run; the width is at least one percent. *)
Definition leftPct (run : SimulationResult) (task : ganttRow) : num :=
  nmul (ndiv (toNumber (row_start task)) (totalDuration run)) (ofZ 100).

Definition widthPct (run : SimulationResult) (task : ganttRow) : num :=
  nmax (nmul (ndiv (toNumber (row_duration task)) (totalDuration run)) (ofZ 100))
       (ofZ 1).

(** ** The histogram and the cumulative distribution *)

(** [Math.round(a)]: the nearest integer, a half rounded up. *)
Definition Math_round (a : num) : num :=
  match a with
  | Fin x => ofZ (Qfloor (x + Q2Qc (1 # 2)))
  | other => other
  end.

(** The object [durationCounts].  Its keys are the strings of the values
    of [Math.round]; the model takes the number for its string, and keeps
    the entries in the order in which the keys were added. *)
Definition countRecord : Type := list (num * num).

(** [durationCounts[d]] *)
Definition getCount (counts : countRecord) (d : num) : option num :=
  snd <$> List.find (λ kv, bool_decide (kv.1 = d)) counts.

(** [durationCounts[d] = v]: an existing key keeps its place. *)
Fixpoint setCount (counts : countRecord) (d v : num) : countRecord :=
  match counts with
  | [] => [(d, v)]
  | kv :: counts' =>
      if bool_decide (kv.1 = d) then (d, v) :: counts'
      else kv :: setCount counts' d v
  end.

(** The body of [results.forEach]. *)
Definition countDuration (counts : countRecord) (r : SimulationResult)
  : countRecord :=
  let d := Math_round (totalDuration r) in
  setCount counts d (nadd (or0 (getCount counts d)) (Fin 1)).

(** A key that is an array index: the string of an integer from [0]
    below [2^32 - 1]. *)
Definition isArrayIndex (d : num) : bool :=
  match d with
  | Fin x =>
      bool_decide (Qden (this x) = 1%positive
                   ∧ (0 ≤ Qnum (this x) < 2 ^ 32 - 1)%Z)
  | _ => false
  end.

(** [Object.keys(durationCounts)]: the array indices in ascending order,
    then the other keys in the order in which they were added. *)
Definition Object_keys (counts : countRecord) : list num :=
  js_sort ascending (filter (λ d, isArrayIndex d = true) counts.*1)
  ++ filter (λ d, isArrayIndex d = false) counts.*1.

(** The first decimal digit of a positive integer. *)
Fixpoint leadingDigit (fuel : nat) (z : Z) : Z :=
  match fuel with
  | O => z
  | S fuel' => if (z <? 10)%Z then z else leadingDigit fuel' (z / 10)
  end.

(** [parseInt(d)] for a key [d], the string of a value of [Math.round].
    An integer below [10^21] in magnitude is printed in full and read
    back; a larger one is printed with an exponent, of which [parseInt]
    reads the digit before the point; the strings ["NaN"] and
    ["Infinity"] are no integers. *)
Definition parseInt (d : num) : num :=
  match d with
  | Fin x =>
      let z := Qfloor x in
      if (Z.abs z <? 10 ^ 21)%Z then ofZ z
      else ofZ (Z.sgn z * leadingDigit (Z.to_nat (Z.log2 (Z.abs z))) (Z.abs z))
  | _ => NaN
  end.

(** A bar of the histogram. *)
Record bar := {
  duration : num;
  count : option num;
}.

(** [(a, b) => a.duration - b.duration] *)
Definition byDuration (a b : bar) : num := nsub (duration a) (duration b).

Definition histogramData (results : list SimulationResult) : list bar :=
  let durationCounts := foldl countDuration [] results in
  js_sort byDuration
    ((λ d, {| duration := parseInt d;
              count := getCount durationCounts (parseInt d) |})
       <$> Object_keys durationCounts).

(** A point of the cumulative distribution. *)
Record cdfPoint := {
  cdf_duration : num;
  probability : num;
}.

(** The body of [histogramData.map], over the variable [cumulative]. *)
Definition accumulate (resultsLength : nat) (acc : num * list cdfPoint) (d : bar)
  : num * list cdfPoint :=
  let cumulative := nadd acc.1 (toNumber (count d)) in
  (cumulative,
   acc.2 ++ [ {| cdf_duration := duration d;
                 probability :=
                   nmul (ndiv cumulative (ofNat resultsLength)) (ofZ 100) |} ]).

Definition cdfData (histogramData : list bar) (resultsLength : nat)
  : list cdfPoint :=
  (foldl (accumulate resultsLength) (Fin 0, []) histogramData).2.

(** ** The daily resource usage *)

(** [a <= b] and [a >= b] *)
Definition nleb (a b : num) : bool :=
  match a, b with
  | NaN, _ | _, NaN => false
  | Fin x, Fin y => bool_decide (x ≤ y)
  | NInf, _ | _, PInf => true
  | _, _ => false
  end.

Definition ngeb (a b : num) : bool := nleb b a.

(** The overlap check: the day index lies within
    [[Math.floor(start), Math.ceil(end))]. *)
Definition activeOn (run : SimulationResult) (day : num) (t : Task) : bool :=
  let start := toNumber (taskStartTimes run !! id t) in
  let finish := nadd start (toNumber (taskDurations run !! id t)) in
  ngeb day (Math_floor start) && nltb day (Math_ceil finish).

(** The body of [project.tasks.forEach] over the object [dayData]. *)
Definition addUsage (run : SimulationResult) (day : num)
    (dayData : gmap string num) (t : Task) : gmap string num :=
  match declaredResource t with
  | Some (ty, c) =>
      if activeOn run day t
      then <[ty := nadd (toNumber (dayData !! ty)) c]> dayData
      else dayData
  | None => dayData
  end.

(** The object [dayData] of one day: the key ["day"], then every resource
    type set to [0], then the counts of the tasks active on the day. *)
Definition dayEntry (project : ProjectData) (run : SimulationResult) (day : num)
  : gmap string num :=
  let resourceTypes := resourceTypesOf (tasks project) in
  let dayData := foldl (λ d ty, <[ty := Fin 0]> d) {["day" := day]} resourceTypes in
  foldl (addUsage run day) dayData (tasks project).

(** [resourceTimeline]: the days [0] to [maxDay].  The loop
    [for (day = 0; day <= maxDay; day++)] does not end when [maxDay] is
    [Infinity]: the model has no value then. *)
Definition resourceTimeline (project : ProjectData)
    (representativeRun : option SimulationResult)
  : option (list (gmap string num)) :=
  match representativeRun with
  | None => Some []
  | Some run =>
      match Math_ceil (totalDuration run) with
      | Fin maxDay =>
          Some ((λ day, dayEntry project run (ofNat day))
                  <$> seq 0 (Z.to_nat (Qfloor maxDay + 1)))
      | PInf => None
      | _ => Some []
      end
  end.

Local Close Scope Qc_scope.

(** * The task table of [components/TaskTable.tsx]

    A string of the planner is a sequence of code units below 256, one
    [ascii] each. *)

(** ** The dependency field *)

(** [deps.join(', ')], the text the field shows. *)
Definition join (sep : string) (l : list string) : string := String.concat sep l.

(** [text.split(',')]: the pieces between the commas; a text without a
    comma is one piece. *)
Fixpoint split_comma (text : string) : list string :=
  match text with
  | EmptyString => [EmptyString]
  | String c text' =>
      if bool_decide (c = ","%char) then EmptyString :: split_comma text'
      else
        match split_comma text' with
        | piece :: pieces => String c piece :: pieces
        | [] => [String c EmptyString]
        end
  end.

(** The white space and the line terminators [trim] removes, among the
    code units below 256: tab, line feed, vertical tab, form feed, carriage
    return, space and no-break space. *)
Definition isWhiteSpace (c : ascii) : bool :=
  bool_decide (nat_of_ascii c ∈ [9; 10; 11; 12; 13; 32; 160]).

Fixpoint trimStart (s : string) : string :=
  match s with
  | EmptyString => EmptyString
  | String c s' => if isWhiteSpace c then trimStart s' else s
  end.

Fixpoint trimEnd (s : string) : string :=
  match s with
  | EmptyString => EmptyString
  | String c s' =>
      match trimEnd s' with
      | EmptyString => if isWhiteSpace c then EmptyString else String c EmptyString
      | rest => String c rest
      end
  end.

(** [s.trim()] *)
Definition trim (s : string) : string := trimEnd (trimStart s).

(** [text.split(',').map(s => s.trim()).filter(Boolean)], the dependencies
    the field's change handler stores: the empty string is falsy. *)
Definition parseDependencies (text : string) : list string :=
  filter (λ s, s ≠ EmptyString) (trim <$> split_comma text).

(** ** The edits *)

(** The fields the table edits, each with the value its input hands to
    [handleTaskChange]. *)
Inductive fieldValue : Type :=
  | name_value (value : string)
  | optimistic_value (value : num)
  | mostLikely_value (value : num)
  | pessimistic_value (value : num)
  | dependencies_value (value : list string)
  | resourceType_value (value : string).

(** [{ ...task, [field]: value }] *)
Definition withField (task : Task) (fv : fieldValue) : Task :=
  match fv with
  | name_value v =>
      {| id := id task; name := v; optimistic := optimistic task;
         mostLikely := mostLikely task; pessimistic := pessimistic task;
         dependencies := dependencies task; resourceType := resourceType task;
         resourceCount := resourceCount task |}
  | optimistic_value v =>
      {| id := id task; name := name task; optimistic := v;
         mostLikely := mostLikely task; pessimistic := pessimistic task;
         dependencies := dependencies task; resourceType := resourceType task;
         resourceCount := resourceCount task |}
  | mostLikely_value v =>
      {| id := id task; name := name task; optimistic := optimistic task;
         mostLikely := v; pessimistic := pessimistic task;
         dependencies := dependencies task; resourceType := resourceType task;
         resourceCount := resourceCount task |}
  | pessimistic_value v =>
      {| id := id task; name := name task; optimistic := optimistic task;
         mostLikely := mostLikely task; pessimistic := v;
         dependencies := dependencies task; resourceType := resourceType task;
         resourceCount := resourceCount task |}
  | dependencies_value v =>
      {| id := id task; name := name task; optimistic := optimistic task;
         mostLikely := mostLikely task; pessimistic := pessimistic task;
         dependencies := v; resourceType := resourceType task;
         resourceCount := resourceCount task |}
  | resourceType_value v =>
      {| id := id task; name := name task; optimistic := optimistic task;
         mostLikely := mostLikely task; pessimistic := pessimistic task;
         dependencies := dependencies task; resourceType := Some v;
         resourceCount := resourceCount task |}
  end.

Definition withTasks (project : ProjectData) (newTasks : list Task) : ProjectData :=
  {| projectName := projectName project;
     description := description project;
     tasks := newTasks |}.

(** [handleTaskChange(idx, field, value)], the project handed to
    [setProject].  The table calls it with the index of one of its rows;
    for another index JavaScript would store an object with the one field,
    which is no task: the model has no project then. *)
Definition handleTaskChange (project : ProjectData) (idx : nat) (fv : fieldValue)
  : option ProjectData :=
  match tasks project !! idx with
  | Some task => Some (withTasks project (<[idx := withField task fv]> (tasks project)))
  | None => None
  end.


(** [`task_${Date.now()}`]: the time is a count of milliseconds, printed
    in decimal. *)
Definition newTaskId (now : N) : string :=
  ("task_" ++ NilZero.string_of_uint (N.to_uint now))%string.

(** [addTask()], at the time [now]. *)
Definition addTask (project : ProjectData) (now : N) : ProjectData :=
  let newTask :=
    {| id := newTaskId now; name := "New Task";
       optimistic := ofZ 1; mostLikely := ofZ 2; pessimistic := ofZ 4;
       dependencies := []; resourceType := None; resourceCount := None |} in
  withTasks project (tasks project ++ [newTask]).

(** * The application of [App.tsx] and the request of [services/gemini.ts] *)

(** ['planner' | 'results'] *)
Inductive viewName : Type :=
  | plannerView
  | resultsView.

(** ['user' | 'model'] *)
Inductive chatRole : Type :=
  | user
  | model.

Record ChatMessage := {
  role : chatRole;
  text : string;
  isProjectUpdate : option bool;
}.

(** The state of the component [App]. *)
Record AppState := {
  view : viewName;
  project : option ProjectData;
  messages : list ChatMessage;
  isAiLoading : bool;
  simResults : list SimulationResult;
  simStats : option SimulationStats;
}.

Section app.
Variable sqrtQ : Qc → Qc.
Variable rand : nat → Qc.

(** [handleRunSimulation], with the callback it hands to [setTimeout]:
    the state after the callback and the error the callback throws, which
    nothing catches.  Without a project or without tasks there is no
    callback. *)
Definition handleRunSimulation (s : AppState) : AppState * option string :=
  match project s with
  | None => (s, None)
  | Some p =>
      match tasks p with
      | [] => (s, None)
      | _ =>
          match runSimulation sqrtQ rand p 2000 with
          | Ok (results', stats) =>
              ({| view := resultsView;
                  project := project s;
                  messages := messages s;
                  isAiLoading := isAiLoading s;
                  simResults := results';
                  simStats := Some stats |}, None)
          | Throw msg => (s, Some msg)
          | OutOfFuel => (s, None)
          end
      end
  end.
End app.

(** [view === 'planner' ? ... : simStats && project && <Dashboard .../>]:
    the properties [stats], [results] and [project] of the dashboard that is
    drawn, if one is. *)
Definition dashboardProps (s : AppState)
  : option (SimulationStats * list SimulationResult * ProjectData) :=
  match view s with
  | plannerView => None
  | resultsView =>
      match simStats s, project s with
      | Some stats, Some p => Some (stats, simResults s, p)
      | _, _ => None
      end
  end.

(** An entry of the history handed to [analyzeProjectDescription]: its
    role is a string there. *)
Record historyEntry := {
  history_role : string;
  content : string;
}.

(** An entry of [contents]: a role and the texts of its parts. *)
Record requestContent := {
  content_role : string;
  parts : list string;
}.

(** The array [contents] of [analyzeProjectDescription]. *)
Definition contents (history : list historyEntry) (currentInput : string)
  : list requestContent :=
  ((λ h, {| content_role :=
              if bool_decide (history_role h = "user") then "user" else "model";
            parts := [content h] |}) <$> history)
  ++ [ {| content_role := "user"; parts := [currentInput] |} ].

Definition roleName (r : chatRole) : string :=
  match r with
  | user => "user"
  | model => "model"
  end.

(** [m => ({ role: m.role, content: m.text })] *)
Definition historyOf (m : ChatMessage) : historyEntry :=
  {| history_role := roleName (role m); content := text m |}.

(** The call of [analyzeProjectDescription] in [handleSendMessage]: the
    history is made of [newMessages], the messages with the new one. *)
Definition sentContents (messages : list ChatMessage) (input : string)
  : list requestContent :=
  let newMessages :=
    messages ++ [ {| role := user; text := input; isProjectUpdate := None |} ] in
  contents (historyOf <$> newMessages) input.

(** ** The inputs of a run *)

(** A [Math.sqrt] for the examples whose estimates differ: the root of the
    numerator scaled by the denominator, rounded down. *)
Definition sqrt_floor (q : Qc) : Qc :=
  Q2Qc (Z.sqrt (Qnum (this q) * Zpos (Qden (this q))) # Qden (this q)).

(** Names that the records of a run handle as the code means them to.  No
    task is called [__proto__]: an assignment to that key of a record
    stores nothing.  And a dependency that names no task names no property
    that every object inherits either: [taskFinishTimes[depId]] would be a
    function, not [undefined]. *)
Definition plainNames (ts : list Task) : Prop :=
  Forall (λ t,
    id t ≠ "__proto__" ∧
    Forall (λ d, d ∈ (id <$> ts) ∨ inherited d = false) (dependencies t)) ts.

(** A list of tasks in which a dependency stands before the task that
    names it, or names no own and no inherited property of the record of
    the finish times. *)
Definition readable (sorted : list Task) : Prop :=
  ∀ i t d, sorted !! i = Some t → d ∈ dependencies t →
    (∃ j t', j < i ∧ sorted !! j = Some t' ∧ id t' = d) ∨ inherited d = false.

(** The largest duration taken as moderate: the sums of a schedule of
    moderate durations stay far from the overflow of double precision. *)
Definition durationBound : Qc := Q2Qc (inject_Z (10 ^ 100)).

(** The integers up to [2 ^ 53] are numbers, each of them, and are added
    and subtracted without rounding. *)
Definition exactBound : Qc := Q2Qc (inject_Z (2 ^ 53)).

(** The durations sampled for the tasks are finite, not negative and
    moderate. *)
Definition moderate (durations : gmap string num) (ts : list Task) : Prop :=
  Forall (λ t, ∃ d : Qc,
    durations !! id t = Some (Fin d) ∧ (0 ≤ d)%Qc ∧ (d ≤ durationBound)%Qc) ts.

(** ** Schedules of projects with unknown dependencies *)

Definition sumQc (l : list Qc) : Qc := foldr Qcplus 0%Qc l.

(** The sampled duration of a task, as a rational. *)
Definition durationOf (durations : gmap string num) (t : Task) : Qc :=
  finiteOf (durations !! id t).

(** The state of the forward pass after the tasks of [l], whose identifiers
    are distinct, whatever their dependencies name: the recorded times are
    finite and not negative, a task ends its duration after its start, it
    starts at [0] or at the end of one of its dependencies, and no earlier
    than the end of a dependency scheduled before it,
    and the project duration is the largest end, at most the sum of the
    durations. *)
Record passBounds (durations : gmap string num) (l : list Task) (sch : schedule)
  : Prop := {
  pb_dom : ∀ k, is_Some (finishTimes sch !! k) → k ∈ id <$> l;
  pb_finish : ∀ k f, finishTimes sch !! k = Some f →
    ∃ q : Qc, f = Fin q ∧ (0 ≤ q)%Qc;
  pb_total : ∃ T : Qc,
    projectDuration sch = Fin T ∧ (0 ≤ T)%Qc ∧
    (T ≤ sumQc (durationOf durations <$> l))%Qc ∧
    (l = [] ∨ ∃ t, t ∈ l ∧ finishTimes sch !! id t = Some (Fin T)) ∧
    ∀ k q, finishTimes sch !! k = Some (Fin q) → (q ≤ T)%Qc;
  pb_task : ∀ t, t ∈ l →
    ∃ s d : Qc,
      durations !! id t = Some (Fin d) ∧
      startTimes sch !! id t = Some (Fin s) ∧
      finishTimes sch !! id t = Some (Fin (s + d)%Qc) ∧
      (0 ≤ s)%Qc ∧
      (s = 0%Qc ∨
       ∃ dep, dep ∈ dependencies t ∧ finishTimes sch !! dep = Some (Fin s));
  pb_deps : ∀ i j t t', l !! i = Some t → l !! j = Some t' → j < i →
    id t' ∈ dependencies t →
    (finiteOf (finishTimes sch !! id t') ≤ finiteOf (startTimes sch !! id t))%Qc;
}.

(** ** A planned project *)

(** A generator that cycles through the sevenths of [[0, 1)]. *)
Definition sevenths (k : nat) : Qc := Q2Qc (Z.of_nat (k mod 7) # 7).

Definition planTask (i : string) (lo mode hi : Z) (deps : list string)
    (ty : string) (count : Z) : Task :=
  {| id := i; name := i;
     optimistic := ofZ lo; mostLikely := ofZ mode; pessimistic := ofZ hi;
     dependencies := deps;
     resourceType := Some ty; resourceCount := Some (ofZ count) |}.

(** A design task, then a build and its documentation side by side, then
    the test of the build; the build names a task that does not exist. *)
Definition planTasks : list Task :=
  [ planTask "test" 1 1 2 ["build"] "dev" 1;
    planTask "design" 1 2 4 [] "designer" 1;
    planTask "build" 2 3 6 ["design"; "review"] "dev" 2;
    planTask "docs" 1 2 3 ["design"] "dev" 1 ].

Definition planProject : ProjectData :=
  {| projectName := "plan"; description := ""; tasks := planTasks |}.

Definition planSorted : list Task :=
  match topologicalSort planTasks with
  | Ok sorted => sorted
  | _ => []
  end.

Definition planRuns : list SimulationResult :=
  (simulateRuns sqrt_floor sevenths planTasks planSorted 5 0 0).1.

Definition planStats : SimulationStats :=
  computeStats sqrt_floor planTasks planRuns.

(** A project without uncertainty: every task has a fixed duration that
    is not negative. *)
Definition certain (ts : list Task) : Prop :=
  Forall (λ t, ∃ d : Qc, fixed t d ∧ (0 ≤ d)%Qc) ts.

(** ** Estimates that are not numbers *)

(** A task one of whose estimates is [NaN], as the planner's number fields
    give for an input that [parseFloat] cannot read. *)
Definition blank (t : Task) : Prop :=
  optimistic t = NaN ∨ mostLikely t = NaN ∨ pessimistic t = NaN.

(** A number that can stand for a duration: [Infinity], or a finite number
    that is not negative. *)
Definition sane (a : num) : Prop :=
  a = PInf ∨ ∃ T : Qc, a = Fin T ∧ (0 ≤ T)%Qc.

(** A task without an optimistic estimate, and one that waits for it. *)
Definition taskBlank : Task :=
  {| id := "A"; name := "A";
     optimistic := NaN; mostLikely := ofZ 2; pessimistic := ofZ 4;
     dependencies := []; resourceType := None; resourceCount := None |}.

Definition blankProject : ProjectData := projectOf [taskBlank; taskNext].

Definition blankRuns : list SimulationResult :=
  (simulateRuns sqrt_floor sevenths [taskBlank; taskNext] [taskBlank; taskNext]
     2 0 0).1.

(** ** Resource usage over a run *)

Definition Qcmax (a b : Qc) : Qc := if decide (a < b)%Qc then b else a.
Definition Qcmin (a b : Qc) : Qc := if decide (b < a)%Qc then b else a.

(** The largest and the smallest running total of a list of changes,
    starting from the total [cur] and the extremes [pk] and [mn] so far. *)
Fixpoint crest (cur pk : Qc) (ds : list Qc) : Qc :=
  match ds with
  | [] => pk
  | d :: ds' => crest (cur + d) (Qcmax pk (cur + d)) ds'
  end.

Fixpoint trough (cur mn : Qc) (ds : list Qc) : Qc :=
  match ds with
  | [] => mn
  | d :: ds' => trough (cur + d) (Qcmin mn (cur + d)) ds'
  end.

(** The change an event makes to the usage of the type [ty]. *)
Definition delta (ty : string) (e : event) : Qc :=
  if decide (type e = ty) then finiteOf (Some (change e)) else 0%Qc.

(** The number of units of [ty] a task holds while it runs. *)
Definition demand (ty : string) (t : Task) : Qc :=
  match declaredResource t with
  | Some (ty', c) => if decide (ty' = ty) then finiteOf (Some c) else 0%Qc
  | None => 0%Qc
  end.

(** The counts the tasks declare are finite and positive. *)
Definition counted (t : Task) : Prop :=
  ∀ ty c, declaredResource t = Some (ty, c) → ∃ q : Qc, c = Fin q ∧ (0 < q)%Qc.

(** The counts the tasks declare are whole and positive: their sums are
    exact in double precision. *)
Definition whole (t : Task) : Prop :=
  ∀ ty c, declaredResource t = Some (ty, c) → ∃ z : Z, c = ofZ z ∧ (0 < z)%Z.

(** ** The histogram *)

(** The number of runs whose total duration rounds to [d]. *)
Definition occurrences (d : num) (results : list SimulationResult) : nat :=
  length (filter (λ r, Math_round (totalDuration r) = d) results).

(** A run whose total duration is finite and rounds to an integer that
    JavaScript prints in full. *)
Definition printable (r : SimulationResult) : Prop :=
  ∃ z : Z, Math_round (totalDuration r) = ofZ z ∧ (Z.abs z < 10 ^ 21)%Z.

(** The strict order of the finite numbers. *)
Definition nlt (a b : num) : Prop :=
  ∃ x y : Qc, a = Fin x ∧ b = Fin y ∧ (x < y)%Qc.

(** The number of runs whose total duration rounds to [d] or to less. *)
Definition upTo (d : num) (results : list SimulationResult) : nat :=
  length (filter (λ r, nltb d (Math_round (totalDuration r)) = false) results).

(** [k] runs of [n], in percent. *)
Definition percent (k n : nat) : num :=
  nmul (ndiv (ofNat k) (ofNat n)) (ofZ 100).

(** ** Dependency identifiers *)

Fixpoint hasComma (s : string) : bool :=
  match s with
  | EmptyString => false
  | String c s' => bool_decide (c = ","%char) || hasComma s'
  end.

(** An identifier that the dependency field can hold: not empty, without
    a comma, without white space at its ends. *)
Definition tidy (d : string) : Prop :=
  d ≠ EmptyString ∧ hasComma d = false ∧ trim d = d.

(** ** What the engine reads of a task *)

(** A task without its name. *)
Definition unnamed (t : Task) : Task :=
  {| id := id t; name := EmptyString; optimistic := optimistic t;
     mostLikely := mostLikely t; pessimistic := pessimistic t;
     dependencies := dependencies t; resourceType := resourceType t;
     resourceCount := resourceCount t |}.

Definition mapOutcome {A B : Type} (f : A → B) (o : outcome A) : outcome B :=
  match o with
  | Ok a => Ok (f a)
  | Throw msg => Throw msg
  | OutOfFuel => OutOfFuel
  end.

Definition unnamedState (s : sortState) : sortState :=
  {| visited := visited s; result := unnamed <$> result s; temp := temp s |}.

(** The planned project with another name for its build task. *)
Definition renamedProject : ProjectData :=
  withTasks planProject
    (<[2 := withField (planTask "build" 2 3 6 ["design"; "review"] "dev" 2)
              (name_value "Build the thing")]> (tasks planProject)).

(** ** Dependency chains *)

(** A chain of tasks of the collection, the last one first: each task
    names the next one of the list as a dependency. *)
Inductive pathOf (ts : list Task) : list Task → Prop :=
  | pathOf_one t : t ∈ ts → pathOf ts [t]
  | pathOf_cons t t' p :
      t ∈ ts → id t' ∈ dependencies t → pathOf ts (t' :: p) →
      pathOf ts (t :: t' :: p).

(** The time the tasks of a chain take in a run, one after the other:
    the durations are added up from the first task of the chain (the last of
    the list) on, as the forward pass adds them. *)
Definition pathLength (r : SimulationResult) (p : list Task) : num :=
  foldr (λ t acc, nadd acc (toNumber (taskDurations r !! id t))) (Fin 0%Qc) p.

(** ** The daily resource usage *)


(** A project with a resource type named like the key of the day. *)
Definition dayProject : ProjectData :=
  projectOf [ planTask "shift" 1 2 3 [] "day" 2; planTask "night" 1 1 1 [] "dev" 1 ].

Definition dayRun : SimulationResult :=
  {| runId := 0; totalDuration := Fin (Q2Qc (5 # 2)); criticalPath := [];
     taskDurations := <["shift" := Fin (Q2Qc (5 # 2))]> (<["night" := ofZ 1]> ∅);
     taskStartTimes := <["shift" := ofZ 0]> (<["night" := ofZ 0]> ∅);
     peakResources := ∅ |}.

(** * Properties of [topologicalSort] *)

Lemma find_task_Some ts x t :
  find_task ts x = Some t → t ∈ ts ∧ id t = x.
Proof.
  unfold find_task. intros H. apply find_some in H as [Hin Hid].
  split; [by apply list_elem_of_In | by apply bool_decide_eq_true in Hid].
Qed.

Lemma find_task_None ts x t :
  find_task ts x = None → t ∈ ts → id t ≠ x.
Proof.
  unfold find_task. intros H Hin Heq.
  apply list_elem_of_In in Hin. pose proof (find_none _ _ H _ Hin) as Hf.
  apply bool_decide_eq_false in Hf. done.
Qed.

Lemma find_task_elem_of ts t :
  t ∈ ts → is_Some (find_task ts (id t)).
Proof.
  intros Hin. destruct (find_task ts (id t)) eqn:E; [by eexists|].
  by destruct (find_task_None _ _ _ E Hin).
Qed.

Lemma find_task_NoDup ts t :
  NoDup (id <$> ts) → t ∈ ts → find_task ts (id t) = Some t.
Proof.
  intros Hnd Hin. destruct (find_task_elem_of _ _ Hin) as [t' E].
  rewrite E. f_equal. apply find_task_Some in E as [Hin' Hid].
  apply list_elem_of_lookup in Hin as [i Hi], Hin' as [j Hj].
  assert (i = j) as ->.
  { eapply NoDup_lookup; [exact Hnd| |]; rewrite list_lookup_fmap.
    - by rewrite Hi.
    - by rewrite Hj, <- Hid. }
  congruence.
Qed.

Lemma dep_depends_on ts a b : dep ts a b → depends_on ts a b.
Proof.
  intros (t & Hf & Hd). apply find_task_Some in Hf as [? ?]. by exists t.
Qed.

Lemma depends_on_dep ts a b :
  NoDup (id <$> ts) → depends_on ts a b → dep ts a b.
Proof.
  intros Hnd (t & Hin & <- & Hd). exists t. split; [|done].
  by apply find_task_NoDup.
Qed.

Lemma tc_dep_depends_on ts a b : tc (dep ts) a b → tc (depends_on ts) a b.
Proof.
  induction 1; [apply tc_once | eapply tc_l]; eauto using dep_depends_on.
Qed.

(** *** The steps of [forEachM] *)

Lemma forEachM_Ok_inv {A S : Type} (f : A → S → outcome S) x l s s' :
  forEachM f (x :: l) s = Ok s' →
  ∃ s1, f x s = Ok s1 ∧ forEachM f l s1 = Ok s'.
Proof. simpl. destruct (f x s) eqn:E; [eauto | done | done]. Qed.

(** *** [visit] leaves [temp] as it found it *)

Lemma forEachM_temp (f : string → sortState → outcome sortState) :
  (∀ x s s', f x s = Ok s' → temp s' = temp s) →
  ∀ l s s', forEachM f l s = Ok s' → temp s' = temp s.
Proof.
  intros Hf l. induction l as [|x l IH]; intros s s' H.
  - by inversion H.
  - apply forEachM_Ok_inv in H as (s1 & H1 & H2).
    rewrite (IH _ _ H2). eauto.
Qed.

Lemma visit_temp ts fuel x s s' :
  visit ts fuel x s = Ok s' → temp s' = temp s.
Proof.
  revert x s s'. induction fuel as [|fuel IH]; intros x s s'; [done|].
  simpl. destruct (decide (x ∈ temp s)) as [|Hx]; [done|].
  destruct (decide (x ∈ visited s)); [by intros [= <-]|].
  destruct (find_task ts x) as [task|].
  - destruct (forEachM _ _ _) as [s2| |] eqn:E; [|done..].
    intros [= <-]. simpl. apply (forEachM_temp _ IH) in E.
    rewrite E. simpl. set_solver.
  - intros [= <-]. simpl. set_solver.
Qed.

(** *** Fuel: the nesting of [visit] is bounded by the number of tasks *)

Lemma forEachM_fuel ts (f : string → sortState → outcome sortState) (n : nat) :
  (∀ x s s', f x s = Ok s' → temp s' = temp s) →
  (∀ x s, size (idSet ts ∖ temp s) < n → f x s ≠ OutOfFuel) →
  ∀ l s, size (idSet ts ∖ temp s) < n → forEachM f l s ≠ OutOfFuel.
Proof.
  intros Ht Hf l. induction l as [|x l IH]; intros s Hs; [done|].
  simpl. destruct (f x s) as [s1| |] eqn:E; [|done|by apply Hf in E].
  apply IH. by rewrite (Ht _ _ _ E).
Qed.

Lemma visit_fuel ts fuel x s :
  size (idSet ts ∖ temp s) < fuel → visit ts fuel x s ≠ OutOfFuel.
Proof.
  revert x s. induction fuel as [|fuel IH]; intros x s Hs; [lia|].
  simpl. destruct (decide (x ∈ temp s)) as [|Hx]; [done|].
  destruct (decide (x ∈ visited s)); [done|].
  destruct (find_task ts x) as [task|] eqn:Hfind; [|done].
  destruct (forEachM _ _ _) as [s2| |] eqn:E; [done|done|].
  exfalso. revert E. apply forEachM_fuel with (ts := ts) (n := fuel).
  - intros ???. apply visit_temp.
  - exact IH.
  - simpl. apply find_task_Some in Hfind as [Hin Hid].
    assert (x ∈ idSet ts).
    { unfold idSet. apply elem_of_list_to_set, list_elem_of_fmap. eauto. }
    assert (idSet ts ∖ ({[x]} ∪ temp s) ⊂ idSet ts ∖ temp s) as Hsub by set_solver.
    apply subset_size in Hsub. lia.
Qed.

Lemma size_idSet ts : size (idSet ts) ≤ length ts.
Proof.
  unfold idSet. induction ts as [|t ts IH].
  - rewrite fmap_nil, list_to_set_nil, size_empty. done.
  - rewrite fmap_cons, list_to_set_cons, size_union_alt, size_singleton.
    assert (size (list_to_set (id <$> ts) ∖ {[id t]} : gset string)
            ≤ size (list_to_set (id <$> ts) : gset string)).
    { apply subseteq_size. set_solver. }
    simpl. lia.
Qed.

(** *** An exception means a cycle *)

Lemma chain_push ts p x : chain ts p → entered ts p x → chain ts (x :: p).
Proof. destruct p; intros; by constructor. Qed.

Lemma chain_reach ts h p x :
  chain ts (h :: p) → x ∈ h :: p → rtc (dep ts) x h.
Proof.
  revert h. induction p as [|y p IH]; intros h Hc Hx.
  - apply list_elem_of_singleton in Hx as ->. done.
  - apply elem_of_cons in Hx as [->|Hx]; [done|].
    inversion Hc; subst. eapply rtc_r; [by apply IH|done].
Qed.

Lemma chain_cycle ts p x :
  chain ts p → entered ts p x → x ∈ p → tc (dep ts) x x.
Proof.
  destruct p as [|h p]; intros Hc He Hx; [by apply elem_of_nil in Hx|].
  eapply tc_rtc_l; [by eapply chain_reach|]. by apply tc_once.
Qed.

Lemma forEachM_throw ts (f : string → sortState → outcome sortState) p :
  (∀ x s s', f x s = Ok s' → temp s' = temp s) →
  (∀ x s msg, temp s = list_to_set p → entered ts p x →
     f x s = Throw msg → ∃ a, tc (dep ts) a a) →
  ∀ l s msg, temp s = list_to_set p → Forall (entered ts p) l →
    forEachM f l s = Throw msg → ∃ a, tc (dep ts) a a.
Proof.
  intros Ht Hf l. induction l as [|x l IH]; intros s msg Hs Hl; [done|].
  apply Forall_cons in Hl as [Hx Hl].
  simpl. destruct (f x s) as [s1| |] eqn:E; [|intros [= <-]; eauto|done].
  apply IH; [|done]. by rewrite (Ht _ _ _ E).
Qed.

Lemma visit_throw ts fuel x s p msg :
  temp s = list_to_set p → chain ts p → entered ts p x →
  visit ts fuel x s = Throw msg → ∃ a, tc (dep ts) a a.
Proof.
  revert x s p msg.
  induction fuel as [|fuel IH]; intros x s p msg Hs Hc He; [done|].
  simpl. destruct (decide (x ∈ temp s)) as [Hx|Hx].
  { intros _. exists x. eapply chain_cycle; [done..|].
    rewrite Hs in Hx. by apply elem_of_list_to_set in Hx. }
  destruct (decide (x ∈ visited s)); [done|].
  destruct (find_task ts x) as [task|] eqn:Hfind; [|done].
  destruct (forEachM _ _ _) as [s2| |] eqn:E; [done| |done].
  intros [= <-]. revert E.
  apply forEachM_throw with (p := x :: p).
  - intros ???. apply visit_temp.
  - intros d s' msg' Hs' Hd. apply IH with (p := x :: p); [done| |done].
    by apply chain_push.
  - simpl. by rewrite Hs.
  - apply Forall_forall. intros d Hd. simpl. by exists task.
Qed.

(** *** What a successful traversal has built *)

Lemma sortStep_refl ts s : sortInv ts s → sortStep ts s s.
Proof. intros. split; [done|done|done|]. intros y ??. done. Qed.

Lemma sortStep_trans ts s1 s2 s3 :
  sortStep ts s1 s2 → sortStep ts s2 s3 → sortStep ts s1 s3.
Proof.
  intros [_ Ht1 Hv1 Hn1] [Hi2 Ht2 Hv2 Hn2]. split; [done|congruence|set_solver|].
  intros y Hy3 Hy1. destruct (decide (y ∈ visited s2)) as [Hy2|Hy2].
  - by apply Hn1.
  - rewrite <- Ht1. by apply Hn2.
Qed.

Lemma sortInv_init ts : sortInv ts sortInit.
Proof.
  split; simpl.
  - done.
  - intros t Ht. by apply elem_of_nil in Ht.
  - intros i t d Hi. done.
  - constructor.
Qed.

Lemma forEachM_step {A : Type} ts (key : A → string)
    (f : A → sortState → outcome sortState) :
  (∀ x s s', sortInv ts s → f x s = Ok s' →
     sortStep ts s s' ∧ (is_Some (find_task ts (key x)) → key x ∈ visited s')) →
  ∀ l s s', sortInv ts s → forEachM f l s = Ok s' →
    sortStep ts s s' ∧
    ∀ x, x ∈ l → is_Some (find_task ts (key x)) → key x ∈ visited s'.
Proof.
  intros Hf l. induction l as [|x l IH]; intros s s' Hs H.
  - inversion H; subst. split; [by apply sortStep_refl|].
    intros x Hx. by apply elem_of_nil in Hx.
  - apply forEachM_Ok_inv in H as (s1 & H1 & H2).
    destruct (Hf _ _ _ Hs H1) as [Hstep1 Hx].
    destruct (IH _ _ (step_inv _ _ _ Hstep1) H2) as [Hstep2 Hl].
    split; [by eapply sortStep_trans|].
    intros y Hy Hsome. apply elem_of_cons in Hy as [->|Hy]; [|by apply Hl].
    apply (step_visited _ _ _ Hstep2). by apply Hx.
Qed.

Lemma sortInv_push ts s task x :
  sortInv ts s → find_task ts x = Some task → x ∉ visited s →
  (∀ d, d ∈ dependencies task → is_Some (find_task ts d) → d ∈ visited s) →
  sortInv ts {| visited := {[x]} ∪ visited s;
                result := result s ++ [task];
                temp := temp s ∖ {[x]} |}.
Proof.
  intros [Hv Hf Hb Hnd] Hfind Hx Hdeps.
  pose proof (find_task_Some _ _ _ Hfind) as [Hin Hid].
  split; simpl.
  - rewrite fmap_app, list_to_set_app_L, Hv. simpl. rewrite Hid. set_solver.
  - intros t Ht. apply elem_of_app in Ht as [Ht|Ht]; [by apply Hf|].
    apply list_elem_of_singleton in Ht as ->. by rewrite Hid.
  - intros i t d Hi Hd Hsome.
    destruct (decide (i < length (result s))) as [Hlt|Hge].
    + rewrite lookup_app_l in Hi by done.
      destruct (Hb _ _ _ Hi Hd Hsome) as (j & t' & Hj & Hj' & Hid').
      exists j, t'. split; [done|]. split; [|done].
      rewrite lookup_app_l; [done|lia].
    + rewrite lookup_app_r in Hi by lia.
      apply list_lookup_singleton_Some in Hi as [Hi ->].
      specialize (Hdeps _ Hd Hsome). rewrite Hv in Hdeps.
      apply elem_of_list_to_set, list_elem_of_lookup in Hdeps as [j Hj].
      rewrite list_lookup_fmap in Hj.
      destruct (result s !! j) as [t'|] eqn:Hj'; [|done].
      exists j, t'. apply lookup_lt_Some in Hj' as Hlt.
      split; [lia|]. split; [by rewrite lookup_app_l|]. by inversion Hj.
  - rewrite fmap_app. apply NoDup_app. split; [done|]. split.
    + intros y Hy Hy'. apply list_elem_of_singleton in Hy'. simpl in Hy'.
      subst y. rewrite Hid in Hy. apply Hx. rewrite Hv.
      by apply elem_of_list_to_set.
    + apply NoDup_singleton.
Qed.

Lemma visit_step ts fuel x s s' :
  sortInv ts s → visit ts fuel x s = Ok s' →
  sortStep ts s s' ∧ (is_Some (find_task ts x) → x ∈ visited s').
Proof.
  revert x s s'. induction fuel as [|fuel IH]; intros x s s' Hs; [done|].
  simpl. destruct (decide (x ∈ temp s)) as [|Hx]; [done|].
  destruct (decide (x ∈ visited s)) as [Hv|Hv].
  { intros [= <-]. split; [by apply sortStep_refl|done]. }
  destruct (find_task ts x) as [task|] eqn:Hfind.
  - destruct (forEachM _ _ _) as [s2| |] eqn:E; [|done..].
    intros [= <-].
    apply (forEachM_step ts (λ d, d) _ IH) in E as [[Hi2 Ht2 Hv2 Hn2] Hdeps];
      [|by destruct Hs].
    simpl in *. split; [|intros _; set_solver].
    assert (x ∉ visited s2) as Hx2.
    { intros Hx2. apply (Hn2 x Hx2 Hv). set_solver. }
    split; simpl.
    + apply sortInv_push; [done..|]. intros d Hd Hsome. by apply Hdeps.
    + rewrite Ht2. set_solver.
    + set_solver.
    + intros y Hy Hy'. apply elem_of_union in Hy as [Hy|Hy].
      * apply elem_of_singleton in Hy as ->. done.
      * intros Hyt. apply (Hn2 y Hy Hy'). set_solver.
  - intros [= <-]. split; [|by intros []].
    destruct Hs. split; simpl; [by split|set_solver|done|].
    intros y Hy Hy'. done.
Qed.

(** *** The whole sort *)

Lemma visitUnvisited_temp ts fuel t s s' :
  visitUnvisited ts fuel t s = Ok s' → temp s' = temp s.
Proof.
  unfold visitUnvisited. destruct (decide _); [by intros [= <-]|].
  apply visit_temp.
Qed.

Lemma visitUnvisited_step ts fuel t s s' :
  sortInv ts s → visitUnvisited ts fuel t s = Ok s' →
  sortStep ts s s' ∧ (is_Some (find_task ts (id t)) → id t ∈ visited s').
Proof.
  unfold visitUnvisited. intros Hs. destruct (decide _).
  - intros [= <-]. split; [by apply sortStep_refl|done].
  - by apply visit_step.
Qed.

Lemma topologicalSort_fuel ts : topologicalSort ts ≠ OutOfFuel.
Proof.
  unfold topologicalSort.
  destruct (forEachM _ _ _) as [s| |] eqn:E; [done|done|].
  exfalso. revert E.
  assert (∀ l s, temp s = ∅ →
    forEachM (visitUnvisited ts (S (length ts))) l s ≠ OutOfFuel) as H;
    [|by apply H].
  intros l. induction l as [|t l IH]; intros s Hs; [done|].
  simpl. destruct (visitUnvisited _ _ _ _) as [s1| |] eqn:E; [|done|].
  - apply IH. by rewrite (visitUnvisited_temp _ _ _ _ _ E).
  - exfalso. revert E. unfold visitUnvisited. destruct (decide _); [done|].
    intros E. eapply visit_fuel; [|exact E].
    rewrite Hs, difference_empty_L. pose proof (size_idSet ts). lia.
Qed.

Lemma topologicalSort_Throw ts msg :
  topologicalSort ts = Throw msg → ∃ a, tc (dep ts) a a.
Proof.
  unfold topologicalSort.
  destruct (forEachM _ _ _) as [s| |] eqn:E; [done| |done].
  intros _. revert E.
  assert (∀ l s m, temp s = ∅ →
    forEachM (visitUnvisited ts (S (length ts))) l s = Throw m →
    ∃ a, tc (dep ts) a a) as H; [|by apply H].
  intros l. induction l as [|t l IH]; intros s m Hs; [done|].
  simpl. destruct (visitUnvisited _ _ _ _) as [s1| |] eqn:E; [| |done].
  - apply IH. by rewrite (visitUnvisited_temp _ _ _ _ _ E).
  - intros _. revert E. unfold visitUnvisited. destruct (decide _); [done|].
    apply visit_throw with (p := []); [done|constructor|done].
Qed.

(** The only exception is the one of [visit]. *)
Lemma forEachM_msg {A S : Type} (f : A → S → outcome S) (m : string) :
  (∀ x s msg, f x s = Throw msg → msg = m) →
  ∀ l s msg, forEachM f l s = Throw msg → msg = m.
Proof.
  intros Hf l. induction l as [|x l IH]; intros s msg; [done|].
  simpl. destruct (f x s) eqn:E; [by apply IH| |done].
  intros [= <-]. eauto.
Qed.

Lemma visit_msg ts fuel x s msg :
  visit ts fuel x s = Throw msg → msg = circular.
Proof.
  revert x s msg. induction fuel as [|fuel IH]; intros x s msg; [done|].
  simpl. destruct (decide _); [by intros [= <-]|].
  destruct (decide _); [done|].
  destruct (find_task ts x); [|done].
  destruct (forEachM _ _ _) eqn:E; [done| |done].
  intros [= <-]. by apply (forEachM_msg _ _ IH) in E.
Qed.

Lemma topologicalSort_msg ts msg :
  topologicalSort ts = Throw msg → msg = circular.
Proof.
  unfold topologicalSort.
  destruct (forEachM _ _ _) eqn:E; [done| |done].
  intros [= <-]. revert E. apply forEachM_msg.
  intros t s m. unfold visitUnvisited. destruct (decide _); [done|].
  apply visit_msg.
Qed.

Lemma topologicalSort_Ok ts sorted :
  topologicalSort ts = Ok sorted →
  NoDup (id <$> sorted) ∧
  (∀ t, t ∈ sorted → find_task ts (id t) = Some t) ∧
  deps_before ts sorted ∧
  (∀ t, t ∈ ts → id t ∈ id <$> sorted).
Proof.
  unfold topologicalSort.
  destruct (forEachM _ _ _) as [s| |] eqn:E; [|done..].
  intros [= <-].
  apply (forEachM_step ts id _ (visitUnvisited_step ts _)) in E
    as [[[Hv Hf Hb Hnd] _ _ _] Hall]; [|apply sortInv_init].
  repeat split; [done..|].
  intros t Ht. specialize (Hall t Ht (find_task_elem_of _ _ Ht)).
  rewrite Hv in Hall. by apply elem_of_list_to_set in Hall.
Qed.

(** In a sorted result the traversal's relation descends, so it has no
    cycle. *)
Lemma sorted_descends ts sorted a b :
  NoDup (id <$> sorted) →
  (∀ t, t ∈ sorted → find_task ts (id t) = Some t) →
  deps_before ts sorted →
  tc (dep ts) a b → is_Some (find_task ts b) →
  ∀ i ta, sorted !! i = Some ta → id ta = a →
    ∃ j tb, j < i ∧ sorted !! j = Some tb ∧ id tb = b.
Proof.
  intros Hnd Hf Hb Htc. induction Htc as [a b Hab|a c b Hac Hcb IH];
    intros Hsome i ta Hi Hid.
  - destruct Hab as (t & Ht & Hd).
    assert (t = ta) as ->.
    { apply list_elem_of_lookup_2 in Hi. apply Hf in Hi. congruence. }
    by eapply Hb.
  - destruct Hac as (t & Ht & Hd).
    assert (t = ta) as ->.
    { apply list_elem_of_lookup_2 in Hi. apply Hf in Hi. congruence. }
    assert (is_Some (find_task ts c)) as Hc.
    { inversion Hcb as [?? (t' & Ht' & _)|??? (t' & Ht' & _)]; by eexists. }
    destruct (Hb _ _ _ Hi Hd Hc) as (j & tc' & Hj & Hj' & Hidc).
    destruct (IH Hsome _ _ Hj' Hidc) as (k & tb & Hk & Hk' & Hidb).
    exists k, tb. split; [lia|done].
Qed.

Lemma topologicalSort_Ok_acyclic ts sorted a :
  topologicalSort ts = Ok sorted → ¬ tc (dep ts) a a.
Proof.
  intros H Hc. apply topologicalSort_Ok in H as (Hnd & Hf & Hb & Hall).
  assert (∃ t, find_task ts a = Some t) as [t Ht].
  { inversion Hc as [?? (t & Ht & _)|??? (t & Ht & _)]; by eexists. }
  pose proof (find_task_Some _ _ _ Ht) as [Hin Hid].
  apply Hall, list_elem_of_lookup in Hin as [i Hi].
  rewrite list_lookup_fmap in Hi.
  destruct (sorted !! i) as [ta|] eqn:Hi'; [|done]. simpl in Hi.
  assert (id ta = a) as Hida by congruence.
  destruct (sorted_descends _ _ _ _ Hnd Hf Hb Hc (mk_is_Some _ _ Ht) _ _ Hi' Hida)
    as (j & tb & Hj & Hj' & Hidb).
  assert (i = j); [|lia].
  eapply NoDup_lookup; [exact Hnd| |]; rewrite list_lookup_fmap.
  - by rewrite Hi'.
  - rewrite Hj'. simpl. congruence.
Qed.

Lemma topologicalSort_Permutation ts sorted :
  NoDup (id <$> ts) → topologicalSort ts = Ok sorted → sorted ≡ₚ ts.
Proof.
  intros Hts H. apply topologicalSort_Ok in H as (Hnd & Hf & _ & Hall).
  apply NoDup_Permutation; [by eapply NoDup_fmap_1..|].
  intros t. split.
  - intros Ht. apply Hf in Ht. by apply find_task_Some in Ht as [? _].
  - intros Ht. pose proof (Hall _ Ht) as Hid.
    apply list_elem_of_fmap in Hid as (t' & Hid & Ht').
    pose proof (Hf _ Ht') as Hfind. rewrite <- Hid in Hfind.
    rewrite (find_task_NoDup _ _ Hts Ht) in Hfind. congruence.
Qed.


(** *** Acyclicity from a ranking, and the two relations *)

Lemma ranked_descends rank ts a b :
  ranked rank ts → tc (depends_on ts) a b → rank b < rank a.
Proof.
  intros Hr. assert (∀ x y, depends_on ts x y → rank y < rank x) as Hstep.
  { intros x y (t & Ht & <- & Hd).
    unfold ranked in Hr. rewrite Forall_forall in Hr.
    specialize (Hr t Ht). rewrite Forall_forall in Hr. by apply Hr. }
  induction 1 as [x y Hxy|x y z Hxy _ IH].
  - by apply Hstep.
  - apply Hstep in Hxy. lia.
Qed.

Lemma ranked_acyclic rank ts : ranked rank ts → acyclic ts.
Proof. intros Hr a Ha. pose proof (ranked_descends _ _ _ _ Hr Ha). lia. Qed.

Lemma tc_depends_on_dep ts a b :
  NoDup (id <$> ts) → tc (depends_on ts) a b → tc (dep ts) a b.
Proof.
  intros Hnd.
  induction 1; [apply tc_once | eapply tc_l]; eauto using depends_on_dep.
Qed.

Lemma deps_closed_find ts t d :
  deps_closed ts → t ∈ ts → d ∈ dependencies t → is_Some (find_task ts d).
Proof.
  unfold deps_closed. rewrite Forall_forall. intros Hc Ht Hd.
  specialize (Hc t Ht). rewrite Forall_forall in Hc.
  apply Hc, list_elem_of_fmap in Hd as (t' & -> & Ht').
  by apply find_task_elem_of.
Qed.

(** An acyclic collection is sorted without an exception, whether or not
    its dependency identifiers all name tasks. *)
Lemma topologicalSort_acyclic ts :
  acyclic ts → ∃ sorted, topologicalSort ts = Ok sorted.
Proof.
  intros Hac. destruct (topologicalSort ts) as [sorted|msg|] eqn:E.
  - by exists sorted.
  - apply topologicalSort_Throw in E as [a Ha].
    destruct (Hac a). by apply tc_dep_depends_on.
  - by apply topologicalSort_fuel in E.
Qed.

Lemma topologicalSort_cyclic ts a :
  NoDup (id <$> ts) → tc (depends_on ts) a a →
  topologicalSort ts = Throw circular.
Proof.
  intros Hnd Ha. destruct (topologicalSort ts) as [sorted|msg|] eqn:E.
  - destruct (topologicalSort_Ok_acyclic _ _ a E). by apply tc_depends_on_dep.
  - by rewrite (topologicalSort_msg _ _ E).
  - by apply topologicalSort_fuel in E.
Qed.

(** C1. For a task collection with unique identifiers: when the dependency
    relation is acyclic and every dependency identifier names a task,
    [topologicalSort] returns an ordering of the whole collection in which
    every task stands after all the tasks it depends on; when the relation
    has a cycle, it throws, and so returns no order at all. *)
Theorem topologicalSort_correct (ts : list Task) :
  NoDup (id <$> ts) →
  (acyclic ts → deps_closed ts →
   ∃ sorted, topologicalSort ts = Ok sorted ∧ sorted ≡ₚ ts ∧
     ∀ i t d, sorted !! i = Some t → d ∈ dependencies t →
       ∃ j t', j < i ∧ sorted !! j = Some t' ∧ id t' = d) ∧
  ((∃ a, tc (depends_on ts) a a) → topologicalSort ts = Throw circular).
Proof.
  intros Hnd. split.
  - intros Hac Hcl. destruct (topologicalSort_acyclic _ Hac) as [sorted E].
    exists sorted. split; [done|].
    pose proof (topologicalSort_Permutation _ _ Hnd E) as Hperm.
    split; [done|]. intros i t d Hi Hd.
    apply topologicalSort_Ok in E as (_ & _ & Hb & _).
    apply (Hb i t d Hi Hd). apply (deps_closed_find ts t); [done| |done].
    rewrite <- Hperm. by eapply list_elem_of_lookup_2.
  - intros [a Ha]. by eapply topologicalSort_cyclic.
Qed.

Lemma topologicalSort_correct_witness :
  ∃ sorted, topologicalSort [taskB; taskA] = Ok sorted ∧
    sorted ≡ₚ [taskB; taskA] ∧
    ∀ i t d, sorted !! i = Some t → d ∈ dependencies t →
      ∃ j t', j < i ∧ sorted !! j = Some t' ∧ id t' = d.
Proof.
  apply (topologicalSort_correct [taskB; taskA]).
  - compute_done.
  - apply (ranked_acyclic rankAB). compute_done.
  - compute_done.
Defined.

(** * Arithmetic of [num] *)

Section numbers.
Local Open Scope Qc_scope.
Implicit Types a b c x y : Qc.

Lemma nsub_Fin a b : nsub (Fin a) (Fin b) = Fin (a - b).
Proof. reflexivity. Qed.

Lemma nsub_diag a : nsub (Fin a) (Fin a) = Fin 0.
Proof. rewrite nsub_Fin. f_equal. ring. Qed.

Lemma nadd_0_l a : nadd (Fin 0) (Fin a) = Fin a.
Proof. simpl. f_equal. ring. Qed.

Lemma nadd_0_r a : nadd (Fin a) (Fin 0) = Fin a.
Proof. simpl. f_equal. ring. Qed.

Lemma nsub_0_r a : nsub (Fin a) (Fin 0) = Fin a.
Proof. rewrite nsub_Fin. f_equal. ring. Qed.

Lemma nmul_0_l a : nmul (Fin 0) (Fin a) = Fin 0.
Proof. simpl. f_equal. ring. Qed.

Lemma nmul_0_r a : nmul (Fin a) (Fin 0) = Fin 0.
Proof. simpl. f_equal. ring. Qed.

Lemma ndiv_0_r a : ndiv (Fin a) (Fin 0) = inf_of (a ?= 0).
Proof. unfold ndiv. by case_decide. Qed.

Lemma inf_of_not_Fin (o : comparison) x : inf_of o ≠ Fin x.
Proof. by destruct o. Qed.

Lemma or0_Fin a : or0 (Some (Fin a)) = Fin a.
Proof.
  unfold or0, truthy. destruct (decide (a = 0)) as [->|H].
  - by rewrite bool_decide_false by (intros H; by apply H).
  - by rewrite bool_decide_true.
Qed.

Lemma orZero_Fin a : orZero (Number (Fin a)) = Number (Fin a).
Proof.
  cbn [orZero]. f_equal. pose proof (or0_Fin a) as H. unfold or0 in H. exact H.
Qed.

(** Reading an own property is reading the map. *)
Lemma get_own (obj : gmap string num) k v :
  obj !! k = Some v → numberOf (orZero (get obj k)) = or0 (Some v).
Proof. intros H. unfold get. by rewrite H. Qed.

Lemma get_Fin (obj : gmap string num) k a :
  obj !! k = Some (Fin a) → numberOf (orZero (get obj k)) = Fin a.
Proof. intros H. rewrite (get_own _ _ _ H). apply or0_Fin. Qed.

(** A key that is no own property and no inherited one reads as [0], an
    inherited one as [NaN]. *)
Lemma get_missing (obj : gmap string num) k :
  obj !! k = None → inherited k = false → numberOf (orZero (get obj k)) = Fin 0.
Proof. intros H Hk. unfold get, prototypeLookup. by rewrite H, Hk. Qed.

Lemma nltb_Fin a b : nltb (Fin a) (Fin b) = bool_decide (a < b).
Proof. reflexivity. Qed.

Lemma ngtb_Fin a b : ngtb (Fin a) (Fin b) = bool_decide (b < a).
Proof. reflexivity. Qed.

Lemma nmax_Fin a b : nmax (Fin a) (Fin b) = Fin (if decide (a < b) then b else a).
Proof. unfold nmax, nltb. case_bool_decide; by case_decide. Qed.

Lemma Math_sqrt_0 sqrtQ : sqrtQ 0 = 0 → Math_sqrt sqrtQ (Fin 0) = Fin 0.
Proof.
  intros H. unfold Math_sqrt. case_decide as Hlt; [|by rewrite H].
  by apply Qclt_not_le in Hlt.
Qed.

End numbers.

(** * Properties of [sampleTriangular] *)

Section sampling.
Local Open Scope Qc_scope.
Variable sqrtQ : Qc → Qc.
Variable rand : nat → Qc.
Hypothesis sqrtQ_0 : sqrtQ 0 = 0.

(** One draw is consumed, whatever the estimates. *)
Lemma sampleTriangular_position lo mode hi k :
  (sampleTriangular sqrtQ rand lo mode hi k).2 = S k.
Proof. unfold sampleTriangular, Math_random. by destruct (nltb _ _). Qed.

(** With [min == max] the divisor of [f] is zero, and [f] is not a finite
    number. *)
Lemma triangular_f_degenerate c mode :
  triangular_f (Fin c) (Fin mode) (Fin c) = inf_of (mode - c ?= 0).
Proof. unfold triangular_f. by rewrite nsub_diag, nsub_Fin, ndiv_0_r. Qed.

(** Both branches then add or subtract the square root of zero. *)
Lemma sampleTriangular_degenerate c mode k :
  (sampleTriangular sqrtQ rand (Fin c) (Fin mode) (Fin c) k).1 = Fin c.
Proof.
  unfold sampleTriangular, Math_random.
  rewrite triangular_f_degenerate, nsub_diag, !nsub_Fin.
  destruct (mode - c ?= 0); simpl inf_of; cbn [nltb fst].
  - rewrite nmul_0_r, nmul_0_l, Math_sqrt_0 by done. apply nsub_0_r.
  - rewrite nmul_0_r, nmul_0_l, Math_sqrt_0 by done. apply nsub_0_r.
  - rewrite nmul_0_r, nmul_0_l, Math_sqrt_0 by done. apply nadd_0_r.
Qed.

End sampling.

(** C4, as the code has it. For every finite triple with
    [optimistic == pessimistic] and every draw, [sampleTriangular] returns
    that constant; it does so without a short-circuit: the divisor
    [max - min] of [f] is zero and [f] is [NaN] or an infinity, which selects
    a branch that adds or subtracts the square root of zero. *)
Theorem sampleTriangular_constant (sqrtQ : Qc → Qc) (rand : nat → Qc)
    (c mode : Qc) (k : nat) :
  sqrtQ 0%Qc = 0%Qc →
  (sampleTriangular sqrtQ rand (Fin c) (Fin mode) (Fin c) k).1 = Fin c ∧
  nsub (Fin c) (Fin c) = Fin 0%Qc ∧
  ∀ q, triangular_f (Fin c) (Fin mode) (Fin c) ≠ Fin q.
Proof.
  intros Hsqrt. split; [by apply sampleTriangular_degenerate|].
  split; [apply nsub_diag|].
  intros q. rewrite triangular_f_degenerate. apply inf_of_not_Fin.
Qed.

Lemma sqrt_trunc_0 : sqrt_trunc 0%Qc = 0%Qc.
Proof. apply Qc_is_canon. reflexivity. Qed.

Lemma sampleTriangular_constant_witness :
  (sampleTriangular sqrt_trunc half (ofZ 2) (ofZ 5) (ofZ 2) 0).1 = ofZ 2 ∧
  nsub (ofZ 2) (ofZ 2) = Fin 0%Qc ∧
  ∀ q, triangular_f (ofZ 2) (ofZ 5) (ofZ 2) ≠ Fin q.
Proof. apply (sampleTriangular_constant sqrt_trunc half). apply sqrt_trunc_0. Defined.

(** C4, as stated, fails: with all three estimates equal to 2 the division
    is performed, by zero: the divisor is [0] and the quotient [f] is [NaN]
    (and [Infinity] with a larger [mostLikely]). *)
Lemma sampleTriangular_divides_by_zero :
  nsub (pessimistic taskA) (optimistic taskA) = Fin 0%Qc ∧
  triangular_f (optimistic taskA) (mostLikely taskA) (pessimistic taskA) = NaN ∧
  triangular_f (ofZ 2) (ofZ 5) (ofZ 2) = PInf.
Proof. split; [|split]; by vm_compute. Qed.

(** * The forward pass *)

Section forward.
Local Open Scope Qc_scope.

Lemma Math_max_from {A : Type} (g : A → num) (h : A → Qc) (l : list A) (m0 : Qc) :
  (∀ a, a ∈ l → g a = Fin (h a)) →
  ∃ m, foldl nmax (Fin m0) (g <$> l) = Fin m ∧
    (m = m0 ∨ ∃ a, a ∈ l ∧ h a = m) ∧ m0 ≤ m ∧ ∀ a, a ∈ l → h a ≤ m.
Proof.
  revert m0. induction l as [|a l IH]; intros m0 Hg.
  - exists m0. split; [done|]. split; [by left|]. split; [apply Qcle_refl|].
    intros a Ha. by apply elem_of_nil in Ha.
  - rewrite fmap_cons. cbn [foldl]. rewrite (Hg a) by left. rewrite nmax_Fin.
    destruct (IH (if decide (m0 < h a) then h a else m0)) as (m & Hm & Hin & Hle & Hall).
    { intros a' Ha'. apply Hg. by right. }
    exists m. split; [done|]. case_decide as Hlt.
    + split; [|split].
      * right. destruct Hin as [->|(a' & Ha' & <-)].
        -- exists a. split; [left|done].
        -- exists a'. split; [by right|done].
      * eapply Qcle_trans; [by apply Qclt_le_weak|done].
      * intros a' Ha'. apply elem_of_cons in Ha' as [->|Ha']; [done|by apply Hall].
    + split; [|split; [done|]].
      * destruct Hin as [->|(a' & Ha' & <-)]; [by left|].
        right. exists a'. split; [by right|done].
      * intros a' Ha'. apply elem_of_cons in Ha' as [->|Ha']; [|by apply Hall].
        eapply Qcle_trans; [|done]. by apply Qcnot_lt_le.
Qed.

(** [Math.max] of finite numbers is the largest of them. *)
Lemma Math_max_finite {A : Type} (g : A → num) (h : A → Qc) (l : list A) :
  l ≠ [] → (∀ a, a ∈ l → g a = Fin (h a)) →
  ∃ m, Math_max (g <$> l) = Fin m ∧
    (∃ a, a ∈ l ∧ h a = m) ∧ ∀ a, a ∈ l → h a ≤ m.
Proof.
  destruct l as [|a l]; [done|]. intros _ Hg.
  unfold Math_max. rewrite fmap_cons. cbn [foldl]. rewrite (Hg a) by left.
  assert (nmax NInf (Fin (h a)) = Fin (h a)) as -> by done.
  destruct (Math_max_from g h l (h a)) as (m & Hm & Hin & Hle & Hall).
  { intros a' Ha'. apply Hg. by right. }
  exists m. split; [done|]. split.
  - destruct Hin as [->|(a' & Ha' & <-)].
    + exists a. split; [left|done].
    + exists a'. split; [by right|done].
  - intros a' Ha'. apply elem_of_cons in Ha' as [->|Ha']; [done|by apply Hall].
Qed.







End forward.

(** * The runs of [runSimulation] *)

(** ** The draws that are read *)

Lemma sampleTriangular_agree sqrtQ rand1 rand2 lo mode hi k :
  rand1 k = rand2 k →
  sampleTriangular sqrtQ rand1 lo mode hi k
  = sampleTriangular sqrtQ rand2 lo mode hi k.
Proof. intros H. unfold sampleTriangular, Math_random. by rewrite H. Qed.

Lemma sampleTask_position sqrtQ rand acc t :
  (sampleTask sqrtQ rand acc t).2 = S acc.2.
Proof.
  unfold sampleTask.
  pose proof (sampleTriangular_position sqrtQ rand
    (optimistic t) (mostLikely t) (pessimistic t) acc.2) as H.
  by destruct (sampleTriangular _ _ _ _ _ _).
Qed.

Lemma sampleTask_fst sqrtQ rand acc t :
  (sampleTask sqrtQ rand acc t).1
  = <[id t := (sampleTriangular sqrtQ rand
                 (optimistic t) (mostLikely t) (pessimistic t) acc.2).1]> acc.1.
Proof. unfold sampleTask. by destruct (sampleTriangular _ _ _ _ _ _). Qed.

Lemma foldl_sampleTask_position sqrtQ rand ts acc :
  (foldl (sampleTask sqrtQ rand) acc ts).2 = acc.2 + length ts.
Proof.
  revert acc. induction ts as [|t ts IH]; intros acc; simpl; [lia|].
  rewrite IH, sampleTask_position. lia.
Qed.

Lemma sampleDurations_position sqrtQ rand ts k :
  (sampleDurations sqrtQ rand ts k).2 = k + length ts.
Proof. apply foldl_sampleTask_position. Qed.

Lemma foldl_sampleTask_agree sqrtQ rand1 rand2 ts acc :
  (∀ j, j < length ts → rand1 (acc.2 + j) = rand2 (acc.2 + j)) →
  foldl (sampleTask sqrtQ rand1) acc ts = foldl (sampleTask sqrtQ rand2) acc ts.
Proof.
  revert acc. induction ts as [|t ts IH]; intros acc H; [done|].
  simpl. assert (sampleTask sqrtQ rand1 acc t = sampleTask sqrtQ rand2 acc t) as E.
  { unfold sampleTask. rewrite (sampleTriangular_agree _ rand1 rand2); [done|].
    specialize (H 0). rewrite Nat.add_0_r in H. apply H. simpl. lia. }
  rewrite E. apply IH. intros j Hj. rewrite sampleTask_position.
  specialize (H (S j)). rewrite Nat.add_succ_r in H. apply H. simpl. lia.
Qed.

Lemma simulateRun_agree sqrtQ rand1 rand2 ts sorted i k :
  (∀ j, j < length ts → rand1 (k + j) = rand2 (k + j)) →
  simulateRun sqrtQ rand1 ts sorted i k = simulateRun sqrtQ rand2 ts sorted i k.
Proof.
  intros H. unfold simulateRun, sampleDurations.
  by rewrite (foldl_sampleTask_agree _ rand1 rand2).
Qed.

Lemma simulateRun_position sqrtQ rand ts sorted i k :
  (simulateRun sqrtQ rand ts sorted i k).2 = k + length ts.
Proof.
  unfold simulateRun.
  pose proof (sampleDurations_position sqrtQ rand ts k) as H.
  by destruct (sampleDurations _ _ _ _).
Qed.

Lemma simulateRuns_position sqrtQ rand ts sorted n i k :
  (simulateRuns sqrtQ rand ts sorted n i k).2 = k + n * length ts.
Proof.
  revert i k. induction n as [|n IH]; intros i k; simpl; [lia|].
  pose proof (simulateRun_position sqrtQ rand ts sorted i k) as H.
  destruct (simulateRun _ _ _ _ _ _) as [r k']. simpl in H. subst k'.
  specialize (IH (S i) (k + length ts)).
  destruct (simulateRuns _ _ _ _ _ _ _) as [rs k'']. simpl in *. lia.
Qed.

Lemma simulateRuns_agree sqrtQ rand1 rand2 ts sorted n i k :
  (∀ j, j < n * length ts → rand1 (k + j) = rand2 (k + j)) →
  simulateRuns sqrtQ rand1 ts sorted n i k
  = simulateRuns sqrtQ rand2 ts sorted n i k.
Proof.
  revert i k. induction n as [|n IH]; intros i k H; [done|].
  simpl. rewrite (simulateRun_agree _ rand1 rand2).
  2:{ intros j Hj. apply H. simpl. lia. }
  pose proof (simulateRun_position sqrtQ rand2 ts sorted i k) as Hp.
  destruct (simulateRun _ _ _ _ _ _) as [r k']. simpl in Hp. subst k'.
  rewrite IH; [done|].
  intros j Hj. rewrite <- Nat.add_assoc. apply H. simpl. lia.
Qed.

(** ** What each run holds *)

Lemma simulateRun_fst sqrtQ rand ts sorted i k :
  (simulateRun sqrtQ rand ts sorted i k).1
  = let durations := (sampleDurations sqrtQ rand ts k).1 in
    let sch := forwardPass durations sorted in
    {| runId := i;
       totalDuration := projectDuration sch;
       criticalPath := [];
       taskDurations := durations;
       taskStartTimes := startTimes sch;
       peakResources := resourcePeaks sch ts |}.
Proof. unfold simulateRun. by destruct (sampleDurations _ _ _ _). Qed.

Lemma simulateRuns_length sqrtQ rand ts sorted n i k :
  length (simulateRuns sqrtQ rand ts sorted n i k).1 = n.
Proof.
  revert i k. induction n as [|n IH]; intros i k; [done|].
  simpl. destruct (simulateRun _ _ _ _ _ _) as [r k'].
  specialize (IH (S i) k'). destruct (simulateRuns _ _ _ _ _ _ _). simpl in *.
  by rewrite IH.
Qed.

(** Every result is the one of [simulateRun] at some index and position. *)
Lemma simulateRuns_elem sqrtQ rand ts sorted n i k r :
  r ∈ (simulateRuns sqrtQ rand ts sorted n i k).1 →
  ∃ i' k', r = (simulateRun sqrtQ rand ts sorted i' k').1.
Proof.
  revert i k. induction n as [|n IH]; intros i k; simpl.
  - intros H. by apply elem_of_nil in H.
  - destruct (simulateRun _ _ _ _ _ _) as [r0 k0] eqn:E0.
    specialize (IH (S i) k0). destruct (simulateRuns _ _ _ _ _ _ _) as [rs k1].
    simpl in *. intros H. apply elem_of_cons in H as [->|H]; [|by apply IH].
    exists i, k. by rewrite E0.
Qed.

Lemma runSimulation_Ok sqrtQ rand project n results stats :
  runSimulation sqrtQ rand project n = Ok (results, stats) ↔
  ∃ sorted, topologicalSort (tasks project) = Ok sorted ∧
    results = (simulateRuns sqrtQ rand (tasks project) sorted n 0 0).1 ∧
    stats = computeStats sqrtQ (tasks project) results.
Proof.
  unfold runSimulation. destruct (topologicalSort _) as [sorted|msg|].
  - split.
    + intros [= <- <-]. by exists sorted.
    + intros (? & [= <-] & -> & ->). done.
  - split; [done|]. by intros (? & ? & _).
  - split; [done|]. by intros (? & ? & _).
Qed.

Lemma runSimulation_Throw sqrtQ rand project n msg :
  runSimulation sqrtQ rand project n = Throw msg ↔
  topologicalSort (tasks project) = Throw msg.
Proof.
  unfold runSimulation. destruct (topologicalSort _); split; intros H;
    by inversion H.
Qed.

(** ** The sampled durations *)

Lemma foldl_sampleTask_other sqrtQ rand ts acc key :
  key ∉ (id <$> ts) →
  (foldl (sampleTask sqrtQ rand) acc ts).1 !! key = acc.1 !! key.
Proof.
  revert acc. induction ts as [|t ts IH]; intros acc Hk; [done|].
  rewrite fmap_cons, not_elem_of_cons in Hk. destruct Hk as [Hne Hk].
  simpl. rewrite IH by done. rewrite sampleTask_fst.
  by rewrite lookup_insert_ne.
Qed.

Lemma foldl_sampleTask_lookup sqrtQ rand ts acc i t :
  NoDup (id <$> ts) → ts !! i = Some t →
  (foldl (sampleTask sqrtQ rand) acc ts).1 !! id t
  = Some (sampleTriangular sqrtQ rand
            (optimistic t) (mostLikely t) (pessimistic t) (acc.2 + i)).1.
Proof.
  revert acc i. induction ts as [|t0 ts IH]; intros acc i Hnd Hi; [done|].
  rewrite fmap_cons in Hnd. apply NoDup_cons in Hnd as [Hnot Hnd].
  simpl. destruct i as [|i]; simpl in Hi.
  - inversion Hi; subst t0. rewrite foldl_sampleTask_other by done.
    rewrite sampleTask_fst, lookup_insert_eq, Nat.add_0_r. done.
  - rewrite (IH _ i) by done. rewrite sampleTask_position.
    do 3 f_equal. lia.
Qed.


(** * The schedule of a valid task collection *)



Section chainAB.
Local Open Scope Qc_scope.
Variables (A B : Task) (dA dB : Qc).
Hypothesis A_free : dependencies A = [].
Hypothesis B_after_A : dependencies B = [id A].
Hypothesis distinct : id A ≠ id B.





End chainAB.



(** * Properties of [runSimulation] *)

(** C9. Two executions of [runSimulation] on the same project and iteration
    count, with generators that give the same draws (it reads the first
    [iterations * tasks.length] of them), return the same run results and the
    same summary statistics, or throw the same error. *)
Theorem runSimulation_reproducible (sqrtQ : Qc → Qc) (rand1 rand2 : nat → Qc)
    (project : ProjectData) (n : nat) :
  (∀ k, k < n * length (tasks project) → rand1 k = rand2 k) →
  runSimulation sqrtQ rand1 project n = runSimulation sqrtQ rand2 project n.
Proof.
  intros H. unfold runSimulation.
  destruct (topologicalSort (tasks project)) as [sorted|msg|]; [|done..].
  by rewrite (simulateRuns_agree sqrtQ rand1 rand2).
Qed.

Lemma runSimulation_reproducible_witness :
  runSimulation sqrt_trunc half (projectOf [taskA; taskB]) 3
  = runSimulation sqrt_trunc halfThenQuarter (projectOf [taskA; taskB]) 3.
Proof.
  apply runSimulation_reproducible. intros k Hk. simpl in Hk.
  unfold half, halfThenQuarter. by rewrite decide_True.
Defined.

(** The forward pass records a start time for the sorted tasks, and for no
    other identifier. *)
Lemma foldl_scheduleTask_dom durations l sch k :
  is_Some (startTimes (foldl (scheduleTask durations) sch l) !! k) ↔
  k ∈ (id <$> l) ∨ is_Some (startTimes sch !! k).
Proof.
  revert sch. induction l as [|x l IH]; intros sch; cbn [foldl].
  - rewrite fmap_nil, elem_of_nil. naive_solver.
  - rewrite IH, fmap_cons, elem_of_cons. unfold scheduleTask. cbn [startTimes].
    destruct (decide (k = id x)) as [->|Hne].
    + rewrite lookup_insert_eq. split; [intros _; by left; left|by right].
    + rewrite lookup_insert_ne by done. naive_solver.
Qed.

Lemma forwardPass_dom durations l k :
  is_Some (startTimes (forwardPass durations l) !! k) ↔ k ∈ id <$> l.
Proof.
  unfold forwardPass. rewrite foldl_scheduleTask_dom. split; [|by left].
  intros [H|[v H]]; [done|]. unfold scheduleInit in H. cbn [startTimes] in H.
  by rewrite lookup_empty in H.
Qed.

(** The forward pass leaves alone what it has recorded for the
    identifiers of other tasks. *)
Lemma foldl_scheduleTask_other durations l sch key :
  key ∉ (id <$> l) →
  startTimes (foldl (scheduleTask durations) sch l) !! key = startTimes sch !! key ∧
  finishTimes (foldl (scheduleTask durations) sch l) !! key = finishTimes sch !! key.
Proof.
  revert sch. induction l as [|x l IH]; intros sch Hk; [done|].
  rewrite fmap_cons, not_elem_of_cons in Hk. destruct Hk as [Hx Hk].
  cbn [foldl]. destruct (IH (scheduleTask durations sch x) Hk) as [-> ->].
  unfold scheduleTask. cbn [startTimes finishTimes].
  by rewrite !lookup_insert_ne.
Qed.

Lemma foldl_scheduleTask_finish_dom durations l sch k :
  is_Some (finishTimes (foldl (scheduleTask durations) sch l) !! k) →
  k ∈ (id <$> l) ∨ is_Some (finishTimes sch !! k).
Proof.
  revert sch. induction l as [|x l IH]; intros sch; cbn [foldl]; [by right|].
  intros H. apply IH in H as [H|H]; [left; by right|].
  unfold scheduleTask in H. cbn [finishTimes] in H.
  destruct (decide (id x = k)) as [<-|Hne]; [left; left|].
  rewrite lookup_insert_ne in H by done. by right.
Qed.

(** What the pass records for the task at position [j] of a list with
    distinct identifiers is what [scheduleTask] computes from the state
    after the tasks before it. *)
Lemma forwardPass_at durations sorted j t :
  NoDup (id <$> sorted) → sorted !! j = Some t →
  let before := foldl (scheduleTask durations) scheduleInit (take j sorted) in
  startTimes (forwardPass durations sorted) !! id t
  = startTimes (scheduleTask durations before t) !! id t ∧
  finishTimes (forwardPass durations sorted) !! id t
  = finishTimes (scheduleTask durations before t) !! id t ∧
  ∀ k, is_Some (finishTimes before !! k) → k ∈ id <$> take j sorted.
Proof.
  intros Hnd Hj before.
  rewrite <- (take_drop_middle sorted j t Hj) in Hnd.
  rewrite fmap_app, fmap_cons in Hnd.
  apply NoDup_app in Hnd as (_ & _ & Hr). apply NoDup_cons in Hr as [Hr _].
  unfold forwardPass. rewrite <- (take_drop_middle sorted j t Hj) at 1 2.
  rewrite foldl_app. cbn [foldl]. fold before.
  destruct (foldl_scheduleTask_other durations (drop (S j) sorted)
              (scheduleTask durations before t) (id t) Hr) as [-> ->].
  split; [done|]. split; [done|].
  intros k Hk. apply foldl_scheduleTask_finish_dom in Hk as [Hk|Hk]; [done|].
  cbn in Hk. rewrite lookup_empty in Hk. by destruct Hk.
Qed.

(** A task all of whose dependencies read as [0] starts at [0]. *)
Lemma scheduleTask_start_0 durations sch x :
  (∀ d, d ∈ dependencies x →
     numberOf (orZero (get (finishTimes sch) d)) = Fin 0%Qc) →
  startTimes (scheduleTask durations sch x) !! id x = Some (Fin 0%Qc).
Proof.
  intros Hdeps. unfold scheduleTask. cbn [startTimes]. rewrite lookup_insert_eq.
  f_equal. destruct (dependencies x) as [|d0 ds] eqn:E; [done|].
  destruct (Math_max_finite (λ depId, numberOf (orZero (get (finishTimes sch) depId)))
              (λ _, 0%Qc) (d0 :: ds) ltac:(done) Hdeps)
    as (m & -> & (_ & _ & <-) & _).
  done.
Qed.

(** C3, as the code has it. When a task [t] lists a dependency [d] that
    names no task, no error is raised for it: the only error
    [runSimulation] throws is the one for a circular dependency, and when the
    dependency relation is acyclic [runSimulation] returns as many run
    results as iterations were asked, in each of which [t] is scheduled and
    [d] is not.  With unique identifiers, a task all of whose dependencies
    name no task, and no property that every object inherits, starts at
    [0]: the missing finish times are read as [0].  ([t] is not called
    [__proto__]: an assignment to that key of a record stores nothing.) *)
Theorem unknown_dependency_tolerated (sqrtQ : Qc → Qc) (rand : nat → Qc)
    (project : ProjectData) (n : nat) (t : Task) (d : string) :
  t ∈ tasks project → d ∈ dependencies t → (d ∉ id <$> tasks project) →
  id t ≠ "__proto__" →
  (∀ msg, runSimulation sqrtQ rand project n = Throw msg → msg = circular) ∧
  (acyclic (tasks project) →
   ∃ results stats,
     runSimulation sqrtQ rand project n = Ok (results, stats) ∧
     length results = n ∧
     ∀ r, r ∈ results →
       is_Some (taskStartTimes r !! id t) ∧ taskStartTimes r !! d = None ∧
       (NoDup (id <$> tasks project) →
        Forall (λ d', (d' ∉ id <$> tasks project) ∧ inherited d' = false)
          (dependencies t) →
        taskStartTimes r !! id t = Some (Fin 0%Qc))).
Proof.
  intros Ht Hd Hnot _. split.
  - intros msg H. apply runSimulation_Throw in H.
    by apply topologicalSort_msg in H.
  - intros Hac. destruct (topologicalSort_acyclic _ Hac) as [sorted E].
    eexists _, _. split; [|split].
    + apply runSimulation_Ok. exists sorted. by split.
    + apply simulateRuns_length.
    + intros r Hr. apply simulateRuns_elem in Hr as (i & k & ->).
      rewrite simulateRun_fst. cbn [taskStartTimes].
      pose proof E as E'.
      apply topologicalSort_Ok in E as (Hnd' & Hfound & _ & Hall).
      split; [|split].
      * apply forwardPass_dom. by apply Hall.
      * apply eq_None_not_Some. rewrite forwardPass_dom. intros Hin.
        apply list_elem_of_fmap in Hin as (t' & -> & Ht').
        apply Hfound, find_task_Some in Ht' as [Ht' _].
        apply Hnot, list_elem_of_fmap. by exists t'.
      * intros Hnd Hdeps. rewrite Forall_forall in Hdeps.
        pose proof (topologicalSort_Permutation _ _ Hnd E') as Hperm.
        assert (t ∈ sorted) as Hin by (by rewrite Hperm).
        apply list_elem_of_lookup in Hin as [j Hj].
        destruct (forwardPass_at (sampleDurations sqrtQ rand (tasks project) k).1
                    sorted j t Hnd' Hj) as (-> & _ & Hdom).
        apply scheduleTask_start_0. intros d' Hd'.
        destruct (Hdeps d' Hd') as [Hun Hplain].
        apply get_missing; [|done]. apply eq_None_not_Some. intros Hsome.
        apply Hun. rewrite <- Hperm. apply Hdom in Hsome.
        apply list_elem_of_fmap in Hsome as (x & -> & Hx).
        apply list_elem_of_fmap. exists x. split; [done|].
        apply list_elem_of_lookup in Hx as [j' Hj'].
        apply lookup_take_Some in Hj' as [Hj' _].
        by eapply list_elem_of_lookup_2.
Qed.

Lemma taskOrphan_open : ¬ deps_closed [taskOrphan].
Proof. unfold deps_closed. compute_done. Qed.

Lemma taskOrphan_acyclic : acyclic [taskOrphan].
Proof.
  intros a Ha.
  assert (∀ x y, tc (depends_on [taskOrphan]) x y → y = "ghost") as Hto.
  { induction 1 as [x y (t & Ht & _ & Hd)|]; [|done].
    apply list_elem_of_singleton in Ht as ->.
    by apply list_elem_of_singleton in Hd. }
  pose proof (Hto _ _ Ha) as ->.
  inversion Ha as [?? (t & Ht & Hid & _)|??? (t & Ht & Hid & _)];
    apply list_elem_of_singleton in Ht as ->; done.
Qed.

Lemma unknown_dependency_tolerated_witness :
  (∀ msg, runSimulation sqrt_trunc half (projectOf [taskOrphan]) 2 = Throw msg →
     msg = circular) ∧
  (acyclic [taskOrphan] →
   ∃ results stats,
     runSimulation sqrt_trunc half (projectOf [taskOrphan]) 2
       = Ok (results, stats) ∧
     length results = 2 ∧
     ∀ r, r ∈ results →
       is_Some (taskStartTimes r !! "A") ∧ taskStartTimes r !! "ghost" = None ∧
       (NoDup (id <$> [taskOrphan]) →
        Forall (λ d', (d' ∉ id <$> [taskOrphan]) ∧ inherited d' = false)
          (dependencies taskOrphan) →
        taskStartTimes r !! "A" = Some (Fin 0%Qc))).
Proof.
  apply (unknown_dependency_tolerated sqrt_trunc half (projectOf [taskOrphan]) 2
           taskOrphan "ghost").
  - by left.
  - by left.
  - compute_done.
  - done.
Defined.

(** C3, as stated, fails: a project whose only task depends on the unknown
    identifier ["ghost"] is simulated without any error, and the task
    starts at [0]. *)
Lemma unknown_dependency_not_reported :
  ¬ deps_closed [taskOrphan] ∧
  ∃ r stats,
    runSimulation sqrt_trunc half (projectOf [taskOrphan]) 1 = Ok ([r], stats) ∧
    taskStartTimes r !! "A" = Some (Fin 0%Qc) ∧
    totalDuration r = ofZ 1.
Proof.
  split; [apply taskOrphan_open|].
  eexists _, _. split; [vm_compute; reflexivity|].
  split; by vm_compute.
Qed.

(** An unknown identifier that names an inherited property is not read as
    [0]: [taskFinishTimes["constructor"] || 0] is the inherited function,
    [Math.max] makes [NaN] of it, the task starts and ends at [NaN], and the
    total duration stays [0]. *)
Example inherited_dependency_is_not_zero :
  ∃ r stats,
    runSimulation sqrt_trunc half (projectOf [taskHeir]) 1 = Ok ([r], stats) ∧
    taskStartTimes r !! "A" = Some NaN ∧
    taskDurations r !! "A" = Some (ofZ 1) ∧
    totalDuration r = ofZ 0.
Proof.
  eexists _, _. split; [vm_compute; reflexivity|].
  repeat split; by vm_compute.
Qed.

(** C5, as the code has it. For a task collection with unique identifiers
    and a dependency cycle, [runSimulation] throws the error with the fixed
    message ["Circular dependency detected"], whatever the tasks on the
    cycle, and so returns no run results. *)
Theorem cycle_aborts_simulation (sqrtQ : Qc → Qc) (rand : nat → Qc)
    (project : ProjectData) (n : nat) :
  NoDup (id <$> tasks project) →
  (∃ a, tc (depends_on (tasks project)) a a) →
  runSimulation sqrtQ rand project n = Throw "Circular dependency detected".
Proof.
  intros Hnd [a Ha]. apply runSimulation_Throw.
  by apply (topologicalSort_cyclic _ a).
Qed.

Lemma taskT_cycle : tc (depends_on [taskT1; taskT2]) "T1" "T1".
Proof.
  apply tc_l with "T2"; [|apply tc_once].
  - exists taskT1. split; [left|]. split; [done|]. left.
  - exists taskT2. split; [right; left|]. split; [done|]. left.
Qed.

Lemma cycle_aborts_simulation_witness :
  runSimulation sqrt_trunc half (projectOf [taskT1; taskT2]) 5
  = Throw "Circular dependency detected".
Proof.
  apply cycle_aborts_simulation.
  - compute_done.
  - exists "T1". apply taskT_cycle.
Defined.

(** C5, as stated, fails: the error for the cycle between ["T1"] and
    ["T2"] holds neither identifier, and it is the very error thrown for
    the unrelated cycle of ["S1"]. *)
Lemma cycle_error_names_no_task :
  runSimulation sqrt_trunc half (projectOf [taskT1; taskT2]) 1 = Throw circular ∧
  runSimulation sqrt_trunc half (projectOf [taskS1]) 1 = Throw circular ∧
  String.index 0 "T1" circular = None ∧
  String.index 0 "T2" circular = None.
Proof. repeat split; by vm_compute. Qed.

(** * Sorting and indexing *)

Section sorting.
Local Open Scope Qc_scope.

Lemma sort_insert_length {A : Type} (cmp : A → A → num) x l :
  length (sort_insert cmp x l) = S (length l).
Proof.
  induction l as [|y l IH]; cbn [sort_insert]; [done|].
  destruct (ngtb _ _); simpl; by rewrite ?IH.
Qed.

Lemma js_sort_length {A : Type} (cmp : A → A → num) l :
  length (js_sort cmp l) = length l.
Proof.
  induction l as [|x l IH]; [done|]. unfold js_sort in *. cbn [foldr].
  by rewrite sort_insert_length, IH.
Qed.

Lemma sort_insert_Permutation {A : Type} (cmp : A → A → num) x l :
  sort_insert cmp x l ≡ₚ x :: l.
Proof.
  induction l as [|y l IH]; cbn [sort_insert]; [done|].
  destruct (ngtb _ _); [|done]. rewrite IH. apply Permutation_swap.
Qed.

Lemma js_sort_Permutation {A : Type} (cmp : A → A → num) l :
  js_sort cmp l ≡ₚ l.
Proof.
  induction l as [|x l IH]; [done|]. unfold js_sort in *. cbn [foldr].
  by rewrite sort_insert_Permutation, IH.
Qed.

Lemma js_sort_Forall {A : Type} (cmp : A → A → num) (P : A → Prop) l :
  Forall P l → Forall P (js_sort cmp l).
Proof. by rewrite js_sort_Permutation. Qed.

Lemma ascending_gt x y :
  ngtb (ascending (Fin x) (Fin y)) (Fin 0) = bool_decide (y < x).
Proof.
  unfold ascending. rewrite nsub_Fin, ngtb_Fin.
  apply bool_decide_ext. split; intros H.
  - apply (Qcplus_lt_mono_r _ _ (- y)). by rewrite Qcplus_opp_r.
  - apply (Qcplus_lt_mono_r _ _ (- y)) in H. by rewrite Qcplus_opp_r in H.
Qed.

#[local] Instance nle_trans : Transitive nle.
Proof.
  intros a b c (x & y & -> & -> & Hxy) (y' & z & [= <-] & -> & Hyz).
  exists x, z. repeat split. by eapply Qcle_trans.
Qed.

Lemma sort_insert_Sorted a l :
  finite a → Forall finite l → Sorted nle l →
  Sorted nle (sort_insert ascending a l).
Proof.
  intros [x ->] Hfin Hs. induction l as [|b l IH]; cbn [sort_insert].
  - repeat constructor.
  - apply Forall_cons in Hfin as [[y ->] Hfin].
    apply Sorted_inv in Hs as [Hs Hhd]. rewrite ascending_gt.
    case_bool_decide as Hlt.
    + constructor; [by apply IH|].
      destruct l as [|c l]; cbn [sort_insert].
      * constructor. exists y, x. repeat split. by apply Qclt_le_weak.
      * destruct (ngtb _ _).
        -- constructor. by apply HdRel_inv in Hhd.
        -- constructor. exists y, x. repeat split. by apply Qclt_le_weak.
    + constructor; [by constructor|]. constructor.
      exists x, y. repeat split. by apply Qcnot_lt_le.
Qed.

Lemma js_sort_Sorted l :
  Forall finite l → StronglySorted nle (js_sort ascending l).
Proof.
  intros Hfin. apply Sorted_StronglySorted; [apply nle_trans|].
  induction l as [|a l IH]; [constructor|]. unfold js_sort in *. cbn [foldr].
  apply Forall_cons in Hfin as [Ha Hfin].
  apply sort_insert_Sorted; [done| |by apply IH].
  by apply (js_sort_Forall ascending).
Qed.

Lemma StronglySorted_lookup_le (l : list num) (i j : nat) a b :
  StronglySorted nle l → Forall finite l → (i ≤ j)%nat →
  l !! i = Some a → l !! j = Some b → nle a b.
Proof.
  intros Hs. revert i j. induction Hs as [|c l Hs IH Hall]; intros i j Hfin Hij Hi Hj.
  - done.
  - apply Forall_cons in Hfin as [[x ->] Hfin].
    destruct i as [|i], j as [|j]; simpl in *; try lia.
    + inversion Hi; inversion Hj; subst. exists x, x. repeat split. apply Qcle_refl.
    + inversion Hi; subst. rewrite Forall_forall in Hall.
      apply Hall. by eapply list_elem_of_lookup_2.
    + apply (IH i j); [done|lia|done..].
Qed.

(** ** Indices *)

Lemma this_ofZ z : this (Q2Qc (inject_Z z)) = inject_Z z.
Proof. simpl. apply inject_Z_Qred. Qed.

Lemma js_index_ofZ {A : Type} (l : list A) z :
  js_index l (ofZ z) = if decide (0 ≤ z)%Z then l !! Z.to_nat z else None.
Proof.
  unfold js_index, ofZ. rewrite this_ofZ. simpl.
  destruct (decide (0 ≤ z)%Z); [by rewrite decide_True|].
  rewrite decide_False; [done|]. by intros [_ ?].
Qed.

Lemma js_index_ofNat {A : Type} (l : list A) n :
  js_index l (ofNat n) = l !! n.
Proof.
  unfold ofNat. rewrite js_index_ofZ, decide_True by lia. by rewrite Nat2Z.id.
Qed.

(** [Math.floor(n * p)] is the integer [Qfloor (n * p)]. *)
Lemma floor_mul_ofNat n p :
  Math_floor (nmul (ofNat n) (Fin p)) = ofZ (Qfloor (inject_Z (Z.of_nat n) * p)).
Proof.
  unfold ofNat, ofZ at 1. cbn [nmul Math_floor]. f_equal.
  apply Qfloor_comp. unfold Qcmult. rewrite this_ofZ.
  simpl. apply Qred_correct.
Qed.

Lemma inject_Z_nat_nonneg (n : nat) : (0 <= inject_Z (Z.of_nat n))%Q.
Proof. change 0%Q with (inject_Z 0). rewrite <- Zle_Qle. lia. Qed.

Lemma inject_Z_nat_pos (n : nat) : (0 < n)%nat → (0 < inject_Z (Z.of_nat n))%Q.
Proof. intros Hn. change 0%Q with (inject_Z 0). rewrite <- Zlt_Qlt. lia. Qed.

Lemma floor_mul_bounds (n : nat) (p : Qc) :
  0 ≤ p → p < 1 → (0 < n)%nat →
  (0 ≤ Qfloor (inject_Z (Z.of_nat n) * p) < Z.of_nat n)%Z.
Proof.
  intros H0 H1 Hn. split.
  - rewrite <- (Qfloor_Z 0). apply Qfloor_resp_le.
    apply Qmult_le_0_compat; [apply inject_Z_nat_nonneg|done].
  - rewrite Zlt_Qlt. eapply Qle_lt_trans; [apply Qfloor_le|].
    rewrite <- (Qmult_1_r (inject_Z (Z.of_nat n))) at 2.
    apply Qmult_lt_l; [by apply inject_Z_nat_pos|done].
Qed.

Lemma floor_mul_mono (n : nat) (p q : Qc) :
  p ≤ q →
  (Qfloor (inject_Z (Z.of_nat n) * p) ≤ Qfloor (inject_Z (Z.of_nat n) * q))%Z.
Proof.
  intros Hpq. apply Qfloor_resp_le.
  rewrite !(Qmult_comm (inject_Z _)).
  apply Qmult_le_compat_r; [done|apply inject_Z_nat_nonneg].
Qed.

End sorting.

(** * The statistics *)

Section statistics.
Local Open Scope Qc_scope.

Lemma ofNat_nonzero (n : nat) : (0 < n)%nat → Q2Qc (inject_Z (Z.of_nat n)) ≠ 0.
Proof.
  intros Hn H. apply Q2Qc_eq_iff in H.
  pose proof (inject_Z_nat_pos n Hn) as Hpos. rewrite H in Hpos.
  by apply Qlt_irrefl in Hpos.
Qed.

Lemma ofZ_sub a b : nsub (ofZ a) (ofZ b) = ofZ (a - b).
Proof.
  unfold ofZ. rewrite nsub_Fin. f_equal. apply Qc_is_canon.
  unfold Qcminus, Qcplus, Qcopp. cbn [this Q2Qc].
  rewrite !Qred_correct. unfold Z.sub.
  by rewrite inject_Z_plus, inject_Z_opp.
Qed.

Lemma js_index_nil {A : Type} (i : num) : js_index (@nil A) i = None.
Proof. destruct i; cbn [js_index]; [by case_decide|done..]. Qed.

Lemma js_index_last {A : Type} (l : list A) :
  js_index l (nsub (ofNat (length l)) (Fin 1)) = last l.
Proof.
  induction l as [|a l _] using rev_ind; [apply js_index_nil|].
  change (Fin 1) with (ofZ 1). unfold ofNat. rewrite ofZ_sub, js_index_ofZ.
  rewrite length_app, last_snoc. cbn [length]. rewrite decide_True by lia.
  rewrite lookup_app_r by lia.
  replace (Z.to_nat _ - length l)%nat with 0%nat by lia. done.
Qed.

Lemma floor_mul_nonneg (n : nat) (p : Qc) :
  0 ≤ p → (0 ≤ Qfloor (inject_Z (Z.of_nat n) * p))%Z.
Proof.
  intros Hp. rewrite <- (Qfloor_Z 0). apply Qfloor_resp_le.
  apply Qmult_le_0_compat; [apply inject_Z_nat_nonneg|done].
Qed.

(** [percentile(p)] is the sorted element at index [floor(n * p)]. *)
Lemma getPercentile_lookup (l : list num) (p : Qc) :
  0 ≤ p →
  getPercentile l (Fin p)
  = l !! Z.to_nat (Qfloor (inject_Z (Z.of_nat (length l)) * p)).
Proof.
  intros Hp. unfold getPercentile. rewrite floor_mul_ofNat, js_index_ofZ.
  rewrite decide_True; [done|]. by apply floor_mul_nonneg.
Qed.

(** The median is computed by a division, the percentiles by a product:
    at one half they are the same number. *)
Lemma medianOf_half (l : list num) :
  medianOf l = getPercentile l (Fin (Q2Qc (1 # 2))).
Proof.
  unfold medianOf, getPercentile. by do 2 f_equal.
Qed.

Lemma medianOf_lookup (l : list num) : medianOf l = l !! (length l / 2)%nat.
Proof.
  rewrite medianOf_half, getPercentile_lookup by done. f_equal.
  cbn [this Q2Qc Qred Z.ggcd Z.of_nat snd Pos.ggcd].
  rewrite (Qfloor_comp _ _ (Qmult_inject_Z_l 1 2 _)).
  cbn [Qfloor]. rewrite Z.mul_1_r.
  change 2%Z with (Z.of_nat 2). rewrite <- Nat2Z.inj_div. apply Nat2Z.id.
Qed.

Lemma getPercentile_is_Some (l : list num) (p : Qc) :
  l ≠ [] → 0 ≤ p → p < 1 → is_Some (getPercentile l (Fin p)).
Proof.
  intros Hl H0 H1. rewrite getPercentile_lookup by done.
  apply lookup_lt_is_Some.
  assert (0 < length l)%nat as Hn by (destruct l; [done|simpl; lia]).
  pose proof (floor_mul_bounds (length l) p H0 H1 Hn). lia.
Qed.

(** The percentiles of finite samples do not decrease with [p]. *)
Lemma getPercentile_mono (ds : list num) (p q : Qc) :
  ds ≠ [] → Forall finite ds → 0 ≤ p → p ≤ q → q < 1 →
  ∃ x y,
    getPercentile (js_sort ascending ds) (Fin p) = Some (Fin x) ∧
    getPercentile (js_sort ascending ds) (Fin q) = Some (Fin y) ∧
    x ≤ y.
Proof.
  intros Hds Hfin H0 Hpq H1.
  assert (js_sort ascending ds ≠ []) as Hl.
  { intros H. apply (f_equal length) in H. rewrite js_sort_length in H.
    by destruct ds. }
  assert (p < 1) as Hp1 by by eapply Qcle_lt_trans.
  assert (0 ≤ q) as Hq0 by by eapply Qcle_trans.
  destruct (getPercentile_is_Some _ p Hl H0 Hp1) as [a Ha].
  destruct (getPercentile_is_Some _ q Hl Hq0 H1) as [b Hb].
  rewrite Ha, Hb. rewrite getPercentile_lookup in Ha, Hb by done.
  set (n := length (js_sort ascending ds)) in *.
  assert (Z.to_nat (Qfloor (inject_Z (Z.of_nat n) * p))
          ≤ Z.to_nat (Qfloor (inject_Z (Z.of_nat n) * q)))%nat as Hij.
  { apply Z2Nat.inj_le; [by apply floor_mul_nonneg..|by apply floor_mul_mono]. }
  destruct (StronglySorted_lookup_le _ _ _ a b (js_sort_Sorted ds Hfin)
              (js_sort_Forall ascending _ _ Hfin) Hij Ha Hb)
    as (x & y & -> & -> & Hxy).
  by exists x, y.
Qed.

End statistics.

(** The four percentiles read are below one. *)
Lemma percentiles_range (p : Qc) : p ∈ percentiles → (0 ≤ p)%Qc ∧ (p < 1)%Qc.
Proof.
  unfold percentiles. rewrite !elem_of_cons, elem_of_nil.
  intros [->|[->|[->|[->|[]]]]]; by split.
Qed.

Lemma computeStats_defined sqrtQ ts results :
  results ≠ [] →
  let stats := computeStats sqrtQ ts results in
  is_Some (median stats) ∧ is_Some (min stats) ∧ is_Some (max stats) ∧
  is_Some (p50 stats) ∧ is_Some (p90 stats) ∧ is_Some (p95 stats) ∧
  is_Some (p99 stats).
Proof.
  intros Hne stats.
  set (durations := js_sort ascending (totalDuration <$> results)).
  assert (durations ≠ []) as Hd.
  { intros H. apply (f_equal length) in H. unfold durations in H.
    rewrite js_sort_length, length_fmap in H. by destruct results. }
  assert (is_Some (medianOf durations)) as Hmed.
  { rewrite medianOf_half. by apply getPercentile_is_Some. }
  repeat split; try done.
  - unfold stats, computeStats. cbn [min]. fold durations.
    change (Fin (Q2Qc 0)) with (ofNat 0). rewrite js_index_ofNat.
    by destruct durations.
  - unfold stats, computeStats. cbn [max]. fold durations.
    rewrite js_index_last. destruct durations using rev_ind; [done|].
    by rewrite last_snoc.
  - by apply getPercentile_is_Some.
  - by apply getPercentile_is_Some.
  - by apply getPercentile_is_Some.
Qed.

(** C7. For a non-empty collection of runs, with [durations] the sorted
    total durations and [n] their number: the median is [durations] at index
    [floor(n / 2)], which exists (and [p50] is the median), [percentile(p)]
    is [durations]
    at index [floor(n * p)] for every [p ≥ 0] (so are [p90], [p95], [p99]),
    [percentile(0.5)] is the median, and on finite durations
    [percentile(p)] does not decrease with [p] in [[0, 1)]. *)
Theorem percentiles_of_sorted_durations (sqrtQ : Qc → Qc) (ts : list Task)
    (results : list SimulationResult) :
  results ≠ [] →
  let durations := js_sort ascending (totalDuration <$> results) in
  let stats := computeStats sqrtQ ts results in
  let n := length results in
  median stats = durations !! (n / 2) ∧
  is_Some (median stats) ∧
  p50 stats = median stats ∧
  p90 stats = getPercentile durations nine_tenths ∧
  p95 stats = getPercentile durations p_95 ∧
  p99 stats = getPercentile durations p_99 ∧
  (∀ p : Qc, (0 ≤ p)%Qc →
     getPercentile durations (Fin p)
     = durations !! Z.to_nat (Qfloor (inject_Z (Z.of_nat n) * p))) ∧
  getPercentile durations (Fin (Q2Qc (1 # 2))) = median stats ∧
  (Forall finite (totalDuration <$> results) →
   ∀ p q : Qc, (0 ≤ p)%Qc → (p ≤ q)%Qc → (q < 1)%Qc →
     ∃ x y : Qc,
       getPercentile durations (Fin p) = Some (Fin x) ∧
       getPercentile durations (Fin q) = Some (Fin y) ∧
       (x ≤ y)%Qc).
Proof.
  intros Hne durations stats n.
  assert (length (js_sort ascending (totalDuration <$> results))
          = length results) as Hlen.
  { by rewrite js_sort_length, length_fmap. }
  pose proof (computeStats_defined sqrtQ ts results Hne) as [Hmed _].
  subst durations stats n.
  split; [|split; [done|]; split; [done|]; split; [done|]; split; [done|];
           split; [done|]].
  { unfold computeStats. cbn [median]. by rewrite medianOf_lookup, Hlen. }
  split; [|split].
  - intros p Hp. by rewrite getPercentile_lookup, Hlen.
  - symmetry. apply medianOf_half.
  - intros Hfin p q H0 Hpq H1. apply getPercentile_mono; [|done..].
    by destruct results.
Qed.

Lemma exampleRuns_nonempty : exampleRuns ≠ [].
Proof. intros H. apply (f_equal length) in H. by vm_compute in H. Qed.

Lemma percentiles_of_sorted_durations_witness :
  let durations := js_sort ascending (totalDuration <$> exampleRuns) in
  let stats := computeStats sqrt_trunc [taskA; taskB] exampleRuns in
  let n := length exampleRuns in
  median stats = durations !! (n / 2) ∧
  is_Some (median stats) ∧
  p50 stats = median stats ∧
  p90 stats = getPercentile durations nine_tenths ∧
  p95 stats = getPercentile durations p_95 ∧
  p99 stats = getPercentile durations p_99 ∧
  (∀ p : Qc, (0 ≤ p)%Qc →
     getPercentile durations (Fin p)
     = durations !! Z.to_nat (Qfloor (inject_Z (Z.of_nat n) * p))) ∧
  getPercentile durations (Fin (Q2Qc (1 # 2))) = median stats ∧
  (Forall finite (totalDuration <$> exampleRuns) →
   ∀ p q : Qc, (0 ≤ p)%Qc → (p ≤ q)%Qc → (q < 1)%Qc →
     ∃ x y : Qc,
       getPercentile durations (Fin p) = Some (Fin x) ∧
       getPercentile durations (Fin q) = Some (Fin y) ∧
       (x ≤ y)%Qc).
Proof.
  apply (percentiles_of_sorted_durations sqrt_trunc [taskA; taskB] exampleRuns).
  apply exampleRuns_nonempty.
Defined.

(** C10. The aggregation is not guarded. With [n ≥ 1] runs every index
    [floor(n * p)], for [p] among 0.5, 0.9, 0.95 and 0.99, is within
    [[0, n)], the divisor [n] is not zero, and the median, minimum, maximum
    and percentiles are all defined. With no run, [runSimulation] still
    returns statistics: the mean is [0 / 0 = NaN] and every lookup reads the
    empty array, giving [undefined]. *)
Theorem aggregation_needs_a_run (sqrtQ : Qc → Qc) (rand : nat → Qc)
    (project : ProjectData) :
  (∀ (n : nat) (p : Qc), 0 < n → p ∈ percentiles →
     (0 ≤ Qfloor (inject_Z (Z.of_nat n) * p) < Z.of_nat n)%Z) ∧
  (∀ results : list SimulationResult, results ≠ [] →
     let stats := computeStats sqrtQ (tasks project) results in
     ofNat (length results) ≠ Fin 0%Qc ∧
     is_Some (median stats) ∧ is_Some (min stats) ∧ is_Some (max stats) ∧
     is_Some (p50 stats) ∧ is_Some (p90 stats) ∧ is_Some (p95 stats) ∧
     is_Some (p99 stats)) ∧
  (∀ sorted, topologicalSort (tasks project) = Ok sorted →
     ∃ stats,
       runSimulation sqrtQ rand project 0 = Ok ([], stats) ∧
       ofNat 0 = Fin 0%Qc ∧
       mean stats = NaN ∧ stdDev stats = NaN ∧
       median stats = None ∧ min stats = None ∧ max stats = None ∧
       p50 stats = None ∧ p90 stats = None ∧ p95 stats = None ∧
       p99 stats = None).
Proof.
  split; [|split].
  - intros n p Hn Hp. apply percentiles_range in Hp as [H0 H1].
    by apply floor_mul_bounds.
  - intros results Hne stats. split; [|by apply computeStats_defined].
    intros H. apply (ofNat_nonzero (length results)).
    + destruct results; [done|simpl; lia].
    + unfold ofNat, ofZ in H. congruence.
  - intros sorted E. eexists. split.
    + apply runSimulation_Ok. exists sorted. by split.
    + repeat split.
Qed.

(** * Resource statistics *)

Lemma foldl_addResourceType ts acc ty :
  ty ∈ foldl addResourceType acc ts ↔
  ty ∈ acc ∨ (ty ≠ "" ∧ ∃ t, t ∈ ts ∧ resourceType t = Some ty).
Proof.
  revert acc. induction ts as [|t ts IH]; intros acc; cbn [foldl].
  - split; [by left|]. intros [?|(_ & t & Ht & _)]; [done|].
    by apply elem_of_nil in Ht.
  - rewrite IH. unfold addResourceType at 1.
    destruct (resourceType t) as [ty'|] eqn:E.
    + case_bool_decide as Hne; [case_bool_decide as Hin|].
      * split.
        -- intros [?|(? & t' & Ht' & ?)]; [by left|].
           right. split; [done|]. exists t'. split; [by right|done].
        -- intros [?|(? & t' & Ht' & Hty)]; [by left|].
           apply elem_of_cons in Ht' as [->|Ht'].
           ++ left. congruence.
           ++ right. split; [done|]. by exists t'.
      * rewrite elem_of_app, list_elem_of_singleton. split.
        -- intros [[?| ->]|(? & t' & Ht' & ?)].
           ++ by left.
           ++ right. split; [done|]. exists t. split; [left|done].
           ++ right. split; [done|]. exists t'. split; [by right|done].
        -- intros [?|(? & t' & Ht' & Hty)]; [by left; left|].
           apply elem_of_cons in Ht' as [->|Ht'].
           ++ left. right. congruence.
           ++ right. split; [done|]. by exists t'.
      * split.
        -- intros [?|(? & t' & Ht' & ?)]; [by left|].
           right. split; [done|]. exists t'. split; [by right|done].
        -- intros [?|(Hty' & t' & Ht' & Hty)]; [by left|].
           apply elem_of_cons in Ht' as [->|Ht'].
           ++ exfalso. apply Hty'. rewrite E in Hty. congruence.
           ++ right. split; [done|]. by exists t'.
    + split.
      * intros [?|(? & t' & Ht' & ?)]; [by left|].
        right. split; [done|]. exists t'. split; [by right|done].
      * intros [?|(? & t' & Ht' & Hty)]; [by left|].
        apply elem_of_cons in Ht' as [->|Ht']; [congruence|].
        right. split; [done|]. by exists t'.
Qed.

(** The set [resourceTypes]: the non-empty labels of the tasks. *)
Lemma resourceTypesOf_spec ts ty :
  ty ∈ resourceTypesOf ts ↔
  ty ≠ "" ∧ ∃ t, t ∈ ts ∧ resourceType t = Some ty.
Proof.
  unfold resourceTypesOf. rewrite foldl_addResourceType. split; [|by right].
  intros [H|H]; [by apply elem_of_nil in H|done].
Qed.

Lemma foldl_resourceStat results types (acc : gmap string ResourceStat) ty :
  foldl (λ stats ty', <[ty' := resourceStatOf results ty']> stats) acc types !! ty
  = if decide (ty ∈ types) then Some (resourceStatOf results ty) else acc !! ty.
Proof.
  revert acc. induction types as [|ty0 types IH]; intros acc; cbn [foldl].
  - rewrite decide_False; [done|]. apply not_elem_of_nil.
  - rewrite IH. destruct (decide (ty ∈ types)) as [Hin|Hnin].
    + rewrite decide_True; [done|]. by right.
    + destruct (decide (ty = ty0)) as [->|Hne].
      * rewrite decide_True by left. by rewrite lookup_insert_eq.
      * rewrite decide_False; [by rewrite lookup_insert_ne|].
        by intros [?|?]%elem_of_cons.
Qed.

Lemma resourceStatsOf_lookup types results ty :
  resourceStatsOf types results !! ty
  = if decide (ty ∈ types) then Some (resourceStatOf results ty) else None.
Proof. unfold resourceStatsOf. by rewrite foldl_resourceStat, lookup_empty. Qed.

Lemma sumOfValues_zeros n :
  sumOfValues (replicate n (Number (Fin 0%Qc))) = Number (Fin 0%Qc).
Proof.
  unfold sumOfValues. induction n as [|n IH]; [done|].
  cbn [replicate foldl add numberOf]. by rewrite nadd_0_l.
Qed.

Lemma js_sort_zeros n :
  js_sort ascendingValue (replicate n (Number (Fin 0%Qc)))
  = replicate n (Number (Fin 0%Qc)).
Proof.
  induction n as [|n IH]; [done|].
  unfold js_sort in *. cbn [replicate foldr]. rewrite IH.
  destruct n as [|n]; [done|]. cbn [replicate sort_insert].
  unfold ascendingValue. cbn [numberOf].
  change (nsub (Fin 0%Qc) (Fin 0%Qc)) with (ascending (Fin 0%Qc) (Fin 0%Qc)).
  rewrite ascending_gt, bool_decide_false; [done|].
  apply Qcle_not_lt, Qcle_refl.
Qed.

(** The statistics over runs that all contribute [0]. *)
Lemma resourceStatOf_zero results ty :
  results ≠ [] →
  (∀ r, r ∈ results → orZero (get (peakResources r) ty) = Number (Fin 0%Qc)) →
  resourceStatOf results ty = zeroStat.
Proof.
  intros Hne Hzero.
  assert ((λ r, orZero (get (peakResources r) ty)) <$> results
          = replicate (length results) (Number (Fin 0%Qc))) as Hpeaks.
  { clear Hne. induction results as [|r rs IH]; [done|].
    cbn [fmap list_fmap length replicate]. rewrite (Hzero r) by left.
    f_equal. apply IH. intros r' Hr'. apply Hzero. by right. }
  assert (0 < length results) as Hn by (destruct results; [done|simpl; lia]).
  unfold resourceStatOf, zeroStat, elementAt.
  rewrite Hpeaks, js_sort_zeros, length_replicate, sumOfValues_zeros. f_equal.
  - cbn [numberOf]. unfold ofNat, ofZ, ndiv.
    rewrite decide_False by by apply ofNat_nonzero.
    f_equal. unfold Qcdiv. apply Qcmult_0_l.
  - unfold nine_tenths. rewrite floor_mul_ofNat, js_index_ofZ.
    pose proof (floor_mul_bounds (length results) (Q2Qc (9 # 10))
                  ltac:(done) ltac:(done) Hn) as [H0 H1].
    rewrite decide_True by done.
    rewrite (lookup_replicate_2 _ _ (Z.to_nat _)) by lia. done.
  - pose proof (js_index_last (replicate (length results) (Number (Fin 0%Qc)))) as Hl.
    rewrite length_replicate in Hl. rewrite Hl.
    destruct (length results); [lia|]. by rewrite replicate_S_end, last_snoc.
Qed.

(** A run without a peak for a type that names no inherited property, or
    with the peak [0], contributes [0]. *)
Lemma orZero_get_zero (obj : gmap string num) ty :
  inherited ty = false →
  obj !! ty = None ∨ obj !! ty = Some (Fin 0%Qc) →
  orZero (get obj ty) = Number (Fin 0%Qc).
Proof.
  intros Hty [H|H]; unfold get, prototypeLookup; rewrite H; [by rewrite Hty|].
  cbn [orZero]. by destruct (truthy _).
Qed.

(** Only the resource types of the events get a peak. *)
Lemma foldl_applyEvent_None events us ty :
  Forall (λ e, type e ≠ ty) events → peaks us !! ty = None →
  peaks (foldl applyEvent us events) !! ty = None.
Proof.
  revert us. induction events as [|e events IH]; intros us Hev Hus; [done|].
  apply Forall_cons in Hev as [He Hev]. cbn [foldl]. apply IH; [done|].
  unfold applyEvent. cbn [peaks]. by rewrite lookup_insert_ne.
Qed.

Lemma resourceEvents_types sch ts ty :
  (∀ t c, t ∈ ts → declaredResource t ≠ Some (ty, c)) →
  Forall (λ e, type e ≠ ty) (resourceEvents sch ts).
Proof.
  intros H. unfold resourceEvents. induction ts as [|t ts IH]; [constructor|].
  cbn [flat_map]. apply Forall_app. split.
  - unfold taskEvents. destruct (declaredResource t) as [[ty' c]|] eqn:E;
      [|constructor].
    assert (ty' ≠ ty) as Hne.
    { intros ->. by apply (H t c); [left|]. }
    by repeat constructor.
  - apply IH. intros t' c Ht'. apply H. by right.
Qed.

Lemma resourcePeaks_None sch ts ty :
  (∀ t c, t ∈ ts → declaredResource t ≠ Some (ty, c)) →
  resourcePeaks sch ts !! ty = None.
Proof.
  intros H. unfold resourcePeaks. apply foldl_applyEvent_None; [|done].
  apply js_sort_Forall. by apply resourceEvents_types.
Qed.

(** C8, on the code. The project of [taskA] and a second task that names
    a resource type without a count, run once.  With the type ["qa"] the
    run records no peak for the type and the statistics of the type are all
    [0], as the claim says.  With the type ["constructor"] the run records
    no peak either, but [r.peakResources[type] || 0] reads the function
    that every object inherits under that name: the mean is [NaN], and the
    90th percentile and the maximum are that function, not [0]. *)
Theorem inherited_label_statistics :
  (∃ r stats,
     runSimulation sqrt_trunc half reviewProject 1 = Ok ([r], stats) ∧
     peakResources r !! "qa" = None ∧
     resourceStats stats !! "qa" = Some zeroStat) ∧
  (∃ r stats,
     runSimulation sqrt_trunc half inheritedProject 1 = Ok ([r], stats) ∧
     peakResources r !! "constructor" = None ∧
     resourceStats stats !! "constructor" = Some inheritedStat).
Proof.
  split; eexists _, _; (split; [vm_compute; reflexivity|]); split;
    apply (bool_decide_unpack _); by vm_compute.
Qed.

(** X27. For a project simulated with at least one run, the per-resource
    statistics have an entry exactly for the non-empty [resourceType] labels
    of the tasks (the label [__proto__] apart, which JavaScript does not
    store as a key); and a label that names no inherited property has mean,
    90th percentile and maximum [0] when no run recorded a peak for it (or
    only the peak [0]), and so when no task uses it with a count. *)
Theorem plain_label_statistics (sqrtQ : Qc → Qc) (rand : nat → Qc)
    (project : ProjectData) (n : nat) (results : list SimulationResult)
    (stats : SimulationStats) :
  n ≠ 0 →
  runSimulation sqrtQ rand project n = Ok (results, stats) →
  (∀ ty, ty ≠ "__proto__" →
     (is_Some (resourceStats stats !! ty) ↔
      ty ≠ "" ∧ ∃ t, t ∈ tasks project ∧ resourceType t = Some ty)) ∧
  (∀ ty, inherited ty = false → is_Some (resourceStats stats !! ty) →
     (∀ r, r ∈ results →
        peakResources r !! ty = None ∨ peakResources r !! ty = Some (Fin 0%Qc)) →
     resourceStats stats !! ty = Some zeroStat) ∧
  (∀ ty, inherited ty = false → is_Some (resourceStats stats !! ty) →
     (∀ t, t ∈ tasks project → resourceType t = Some ty →
        declaredResource t = None) →
     resourceStats stats !! ty = Some zeroStat).
Proof.
  intros Hn Hrun. apply runSimulation_Ok in Hrun as (sorted & E & Hres & ->).
  assert (results ≠ []) as Hne.
  { intros H. apply (f_equal length) in H.
    rewrite Hres, simulateRuns_length in H. done. }
  cbn [resourceStats computeStats].
  assert (∀ ty, inherited ty = false →
     is_Some (resourceStatsOf (resourceTypesOf (tasks project)) results !! ty) →
     (∀ r, r ∈ results →
        peakResources r !! ty = None ∨ peakResources r !! ty = Some (Fin 0%Qc)) →
     resourceStatsOf (resourceTypesOf (tasks project)) results !! ty
     = Some zeroStat) as Hzero.
  { intros ty Hty Hsome Hpeaks. revert Hsome. rewrite resourceStatsOf_lookup.
    case_decide; [intros _|by intros []]. f_equal.
    apply resourceStatOf_zero; [done|]. intros r Hr.
    by apply orZero_get_zero; [|apply Hpeaks]. }
  split; [|split; [done|]].
  - intros ty _. rewrite resourceStatsOf_lookup, <- resourceTypesOf_spec.
    case_decide as Hin; split; intros H;
      [done|by eexists|by destruct H|done].
  - intros ty Hty Hsome Hunused. apply Hzero; [done..|].
    intros r Hr. left. rewrite Hres in Hr.
    apply simulateRuns_elem in Hr as (i & k & ->).
    rewrite simulateRun_fst. cbn [peakResources]. apply resourcePeaks_None.
    intros t c Ht Hdecl.
    assert (resourceType t = Some ty) as Hty'.
    { unfold declaredResource in Hdecl.
      destruct (resourceType t) as [ty'|]; [|done].
      destruct (resourceCount t); [|done].
      destruct (_ && _); [|done]. by inversion Hdecl. }
    by rewrite (Hunused t Ht Hty') in Hdecl.
Qed.

Lemma plain_label_statistics_witness :
  (∀ ty, ty ≠ "__proto__" →
     (is_Some (resourceStats reviewStats !! ty) ↔
      ty ≠ "" ∧ ∃ t, t ∈ tasks reviewProject ∧ resourceType t = Some ty)) ∧
  (∀ ty, inherited ty = false → is_Some (resourceStats reviewStats !! ty) →
     (∀ r, r ∈ reviewRuns →
        peakResources r !! ty = None ∨ peakResources r !! ty = Some (Fin 0%Qc)) →
     resourceStats reviewStats !! ty = Some zeroStat) ∧
  (∀ ty, inherited ty = false → is_Some (resourceStats reviewStats !! ty) →
     (∀ t, t ∈ tasks reviewProject → resourceType t = Some ty →
        declaredResource t = None) →
     resourceStats reviewStats !! ty = Some zeroStat).
Proof.
  apply (plain_label_statistics sqrt_trunc half reviewProject 2).
  - lia.
  - vm_compute. reflexivity.
Defined.

(** The type ["qa"], which no task uses with a count, has all-zero
    statistics; the type ["dev"] has the peak of its one task. *)
Example review_statistics :
  resourceStats reviewStats !! "qa" = Some zeroStat ∧
  maxPeak <$> resourceStats reviewStats !! "dev" = Some (Number (ofZ 2)).
Proof.
  split; [|by vm_compute].
  apply (bool_decide_unpack _). by vm_compute.
Qed.


(** * The resource usage tracker *)

(** The events of the two tasks in sequence, after the sort by time: with
    [B] listed first, its acquisition at time 2 stays before the release of
    [A] at time 2. *)
Example sequence_events :
  finishTimes sequenceSchedule !! "A" = Some (ofZ 2) ∧
  startTimes sequenceSchedule !! "B" = Some (ofZ 2) ∧
  change <$> js_sort byTime (resourceEvents sequenceSchedule [taskA; taskB])
  = [ofZ 2; ofZ (-2); ofZ 3; ofZ (-3)] ∧
  change <$> js_sort byTime (resourceEvents sequenceSchedule [taskB; taskA])
  = [ofZ 2; ofZ 3; ofZ (-2); ofZ (-3)].
Proof. repeat split; by vm_compute. Qed.

(** C2, on the code. [B] (3 units of ["dev"]) depends on [A] (2 units) and
    starts at the instant [A] finishes. Listed as [A, B], the run has the
    peak 3; listed as [B, A], the same schedule has the peak 5, the total
    before the release plus the new acquisition: the peak is read after
    each single event, and the events of one instant keep the order of the
    task list. *)
Theorem same_instant_peak_follows_task_order :
  (∃ r stats,
     runSimulation sqrt_trunc half (projectOf [taskA; taskB]) 1 = Ok ([r], stats) ∧
     taskStartTimes r !! "A" = Some (ofZ 0) ∧
     taskDurations r !! "A" = Some (ofZ 2) ∧
     taskStartTimes r !! "B" = Some (ofZ 2) ∧
     peakResources r !! "dev" = Some (ofZ 3)) ∧
  (∃ r stats,
     runSimulation sqrt_trunc half (projectOf [taskB; taskA]) 1 = Ok ([r], stats) ∧
     taskStartTimes r !! "A" = Some (ofZ 0) ∧
     taskDurations r !! "A" = Some (ofZ 2) ∧
     taskStartTimes r !! "B" = Some (ofZ 2) ∧
     peakResources r !! "dev" = Some (ofZ 5)).
Proof.
  split; eexists _, _; (split; [vm_compute; reflexivity|]); repeat split;
    by vm_compute.
Qed.

(** * Further properties of the engine *)

Lemma simulateRuns_runId sqrtQ rand ts sorted n i k j r :
  (simulateRuns sqrtQ rand ts sorted n i k).1 !! j = Some r → runId r = i + j.
Proof.
  revert i k j. induction n as [|n IH]; intros i k j; [done|].
  cbn [simulateRuns].
  destruct (simulateRun _ _ _ _ _ _) as [r0 k0] eqn:E0.
  specialize (IH (S i) k0). destruct (simulateRuns _ _ _ _ _ _ _) as [rs k1].
  cbn [fst] in *. destruct j as [|j]; cbn [lookup list_lookup].
  - intros [= <-]. pose proof (simulateRun_fst sqrtQ rand ts sorted i k) as H.
    rewrite E0 in H. cbn [fst] in H. rewrite H. cbn [runId]. lia.
  - intros H. rewrite (IH j) by done. lia.
Qed.

(** X1. [runSimulation] produces exactly as many run results as iterations
    were asked, numbered from zero in order. *)
Theorem runSimulation_run_count (sqrtQ : Qc → Qc) (rand : nat → Qc)
    (project : ProjectData) (n : nat) (results : list SimulationResult)
    (stats : SimulationStats) :
  runSimulation sqrtQ rand project n = Ok (results, stats) →
  length results = n ∧ ∀ j r, results !! j = Some r → runId r = j.
Proof.
  intros H. apply runSimulation_Ok in H as (sorted & _ & -> & _). split.
  - apply simulateRuns_length.
  - intros j r Hj. by apply simulateRuns_runId in Hj.
Qed.

Lemma runSimulation_run_count_witness :
  length reviewRuns = 2 ∧ ∀ j r, reviewRuns !! j = Some r → runId r = j.
Proof.
  apply (runSimulation_run_count sqrt_trunc half reviewProject 2 reviewRuns
           reviewStats).
  vm_compute. reflexivity.
Defined.

(** X2. A single task with three units of ["dev"] and a fixed duration 2
    has the peak 3 for ["dev"] in every run, and no peak for any other
    type. *)
Theorem single_task_peak (sqrtQ : Qc → Qc) (rand : nat → Qc) (n : nat) :
  sqrtQ 0%Qc = 0%Qc →
  ∃ results stats,
    runSimulation sqrtQ rand (projectOf [taskSolo]) n = Ok (results, stats) ∧
    length results = n ∧
    ∀ r, r ∈ results →
      peakResources r !! "dev" = Some (ofZ 3) ∧
      ∀ ty, ty ≠ "dev" → peakResources r !! ty = None.
Proof.
  intros Hsqrt. eexists _, _. split; [|split].
  - apply runSimulation_Ok. exists [taskSolo]. split; [by vm_compute|by split].
  - apply simulateRuns_length.
  - intros r Hr. apply simulateRuns_elem in Hr as (i & k & ->).
    rewrite simulateRun_fst. cbn zeta. cbn [peakResources].
    assert ((sampleDurations sqrtQ rand (tasks (projectOf [taskSolo])) k).1
            = <["T" := ofZ 2]> ∅) as ->.
    { unfold sampleDurations. cbn [tasks projectOf foldl].
      rewrite sampleTask_fst. cbn [fst snd id taskSolo fixedTask].
      f_equal. cbn [optimistic mostLikely pessimistic].
      by apply sampleTriangular_degenerate. }
    split; [by vm_compute|].
    intros ty Hty. apply resourcePeaks_None.
    intros t c Ht Hdecl. cbn [tasks projectOf] in Ht.
    apply list_elem_of_singleton in Ht as ->.
    vm_compute in Hdecl. congruence.
Qed.

Lemma single_task_peak_witness :
  ∃ results stats,
    runSimulation sqrt_trunc half (projectOf [taskSolo]) 4 = Ok (results, stats) ∧
    length results = 4 ∧
    ∀ r, r ∈ results →
      peakResources r !! "dev" = Some (ofZ 3) ∧
      ∀ ty, ty ≠ "dev" → peakResources r !! ty = None.
Proof. apply (single_task_peak sqrt_trunc half 4). apply sqrt_trunc_0. Defined.

(** X3. The scenario of the specification: [A] with estimates (1, 2, 4)
    samples exactly 2 on the draw one third, and the run has
    [finish(A) = 2], [start(B) = 2], [finish(B) = 3] and the total
    duration 3. *)
Theorem scenario_wide_then_next :
  ∃ r stats,
    runSimulation sqrt_trunc third (projectOf [taskWide; taskNext]) 1
    = Ok ([r], stats) ∧
    taskStartTimes r !! "A" = Some (ofZ 0) ∧
    taskDurations r !! "A" = Some (ofZ 2) ∧
    taskStartTimes r !! "B" = Some (ofZ 2) ∧
    taskDurations r !! "B" = Some (ofZ 1) ∧
    totalDuration r = ofZ 3.
Proof.
  eexists _, _. split; [vm_compute; reflexivity|].
  repeat split; apply (bool_decide_unpack _); by vm_compute.
Qed.

(** Tasks without dependencies keep the order of the input. *)
Lemma forEachM_independent ts fuel l s :
  temp s = ∅ → visited s = list_to_set (id <$> result s) →
  NoDup (id <$> result s ++ l) →
  Forall (λ t, find_task ts (id t) = Some t ∧ dependencies t = []) l →
  ∃ s', forEachM (visitUnvisited ts (S fuel)) l s = Ok s' ∧
    result s' = result s ++ l.
Proof.
  revert s. induction l as [|t l IH]; intros s Htemp Hvis Hnd Hall.
  - exists s. by rewrite app_nil_r.
  - apply Forall_cons in Hall as [[Hfind Hdeps] Hall].
    assert (id t ∉ visited s) as Hnot.
    { rewrite Hvis, elem_of_list_to_set. intros Hin.
      rewrite fmap_app, fmap_cons in Hnd. apply NoDup_app in Hnd as (_ & Hd & _).
      apply (Hd _ Hin). left. }
    cbn [forEachM]. unfold visitUnvisited at 1. rewrite decide_False by done.
    cbn [visit]. rewrite decide_False by (rewrite Htemp; apply not_elem_of_empty).
    rewrite decide_False by done. rewrite Hfind, Hdeps. cbn [forEachM].
    destruct (IH {| visited := {[id t]} ∪ visited s;
                    result := result s ++ [t];
                    temp := ({[id t]} ∪ temp s) ∖ {[id t]} |})
      as (s' & Hs' & Hres).
    + cbn [temp]. rewrite Htemp. set_solver.
    + cbn [visited result]. rewrite fmap_app, list_to_set_app_L, Hvis.
      cbn. set_solver.
    + cbn [result]. by rewrite <- app_assoc.
    + done.
    + exists s'. split; [done|]. rewrite Hres. cbn [result].
      by rewrite <- app_assoc.
Qed.

(** X4. Tasks without dependencies, with unique identifiers, are returned
    in the order of the input. *)
Theorem topologicalSort_independent (ts : list Task) :
  NoDup (id <$> ts) → Forall (λ t, dependencies t = []) ts →
  topologicalSort ts = Ok ts.
Proof.
  intros Hnd Hdeps. unfold topologicalSort.
  destruct (forEachM_independent ts (length ts) ts sortInit) as (s' & -> & Hres).
  - done.
  - done.
  - done.
  - apply Forall_forall. intros t Ht. split; [by apply find_task_NoDup|].
    rewrite Forall_forall in Hdeps. by apply Hdeps.
  - by rewrite Hres.
Qed.

Lemma topologicalSort_independent_witness :
  topologicalSort [taskSolo; taskReview] = Ok [taskSolo; taskReview].
Proof. apply topologicalSort_independent; [compute_done|by repeat constructor]. Defined.

(** X5. [topologicalSort] never loops: on every task collection it returns
    a list or throws the circular dependency error. *)
Theorem topologicalSort_terminates (ts : list Task) :
  (∃ sorted, topologicalSort ts = Ok sorted) ∨
  topologicalSort ts = Throw "Circular dependency detected".
Proof.
  destruct (topologicalSort ts) as [sorted|msg|] eqn:E.
  - left. by exists sorted.
  - right. by rewrite (topologicalSort_msg _ _ E).
  - by apply topologicalSort_fuel in E.
Qed.
(** * Arithmetic of the rationals *)

Section arithmetic.
Local Open Scope Qc_scope.

Lemma this_plus (a b : Qc) : (this (a + b) == this a + this b)%Q.
Proof. apply Qred_correct. Qed.

Lemma this_mult (a b : Qc) : (this (a * b) == this a * this b)%Q.
Proof. apply Qred_correct. Qed.

Lemma this_opp (a : Qc) : (this (- a) == - this a)%Q.
Proof. apply Qred_correct. Qed.

Lemma Qc_eq_Qeq (a b : Qc) : a = b → (this a == this b)%Q.
Proof. by intros ->. Qed.

Lemma Qc_neq_Qeq (a b : Qc) : a ≠ b → ¬ (this a == this b)%Q.
Proof. intros Hne E. by apply Hne, Qc_is_canon. Qed.

End arithmetic.

(** Goals on [Qc] as goals on [Q], for [lra] and [nra]. *)
Ltac qc2q :=
  repeat match goal with
  | H : @eq Qc _ _ |- _ => apply Qc_eq_Qeq in H
  | H : ¬ @eq Qc _ _ |- _ => apply Qc_neq_Qeq in H
  | |- @eq Qc _ _ => apply Qc_is_canon
  end;
  unfold Qcle, Qclt, Qcminus in *;
  repeat match goal with
  | H : context [this (_ + _)%Qc] |- _ => rewrite this_plus in H
  | H : context [this (_ * _)%Qc] |- _ => rewrite this_mult in H
  | H : context [this (- _)%Qc] |- _ => rewrite this_opp in H
  | |- context [this (_ + _)%Qc] => rewrite this_plus
  | |- context [this (_ * _)%Qc] => rewrite this_mult
  | |- context [this (- _)%Qc] => rewrite this_opp
  end;
  change (this 0%Qc) with 0%Q in *; change (this 1%Qc) with 1%Q in *;
  repeat match goal with
  | |- context [this ?t] =>
      let q := fresh "q" in set (q := this t) in *; clearbody q
  | H : context [this ?t] |- _ =>
      let q := fresh "q" in set (q := this t) in *; clearbody q
  end.

(** * The forward pass, whatever the dependencies name *)

Section bounds.
Local Open Scope Qc_scope.

Lemma sumQc_app l1 l2 : sumQc (l1 ++ l2) = sumQc l1 + sumQc l2.
Proof.
  induction l1 as [|a l1 IH]; cbn [app sumQc foldr].
  - by rewrite Qcplus_0_l.
  - fold (sumQc (l1 ++ l2)). fold (sumQc l1). rewrite IH. ring.
Qed.

Lemma sumOf_Fin_from (a : Qc) l :
  foldl nadd (Fin a) (Fin <$> l) = Fin (a + sumQc l).
Proof.
  revert a. induction l as [|b l IH]; intros a; cbn [fmap list_fmap foldl sumQc foldr].
  - f_equal. ring.
  - cbn [nadd]. rewrite IH. fold (sumQc l). f_equal. ring.
Qed.

(** A finish time that is finite, or missing under a name that no object
    inherits, is read as the rational it holds. *)
Lemma get_finiteOf (obj : gmap string num) k :
  (∀ f, obj !! k = Some f → ∃ q, f = Fin q) →
  is_Some (obj !! k) ∨ inherited k = false →
  numberOf (orZero (get obj k)) = Fin (finiteOf (obj !! k)).
Proof.
  intros Hv Hk. destruct (obj !! k) as [f|] eqn:E.
  - destruct (Hv f eq_refl) as [q ->]. by apply get_Fin.
  - destruct Hk as [[? ?]|Hk]; [done|]. by apply get_missing.
Qed.

(** The start time [scheduleTask] computes from finish times that are
    finite and not negative. *)
Lemma startTime_bounds (sch : schedule) (x : Task) :
  (∀ k f, finishTimes sch !! k = Some f → ∃ q, f = Fin q ∧ 0 ≤ q) →
  (∀ d, d ∈ dependencies x →
     is_Some (finishTimes sch !! d) ∨ inherited d = false) →
  ∃ s,
    match dependencies x with
    | [] => Fin 0
    | deps =>
        Math_max ((λ depId, numberOf (orZero (get (finishTimes sch) depId))) <$> deps)
    end = Fin s ∧
    0 ≤ s ∧
    (s = 0 ∨ ∃ d, d ∈ dependencies x ∧ finishTimes sch !! d = Some (Fin s)) ∧
    ∀ d, d ∈ dependencies x → finiteOf (finishTimes sch !! d) ≤ s.
Proof.
  intros Hfin Hread. destruct (dependencies x) as [|d0 ds] eqn:E.
  { exists 0. repeat split; [done|by left|]. intros d Hd. by apply elem_of_nil in Hd. }
  assert (∀ d, d ∈ d0 :: ds →
    numberOf (orZero (get (finishTimes sch) d))
    = Fin (finiteOf (finishTimes sch !! d))) as Hg.
  { intros d Hd. apply get_finiteOf; [|by apply Hread]. intros f Hf.
    destruct (Hfin d f Hf) as (q & -> & _). by exists q. }
  destruct (Math_max_finite _ _ (d0 :: ds) ltac:(done) Hg)
    as (m & Hm & (a & Hin & Ha) & Hall).
  exists m. split; [done|].
  assert (0 ≤ m ∧
    (m = 0 ∨ ∃ d, d ∈ d0 :: ds ∧ finishTimes sch !! d = Some (Fin m))) as [? ?];
    [|done].
  rewrite <- Ha. destruct (finishTimes sch !! a) as [f|] eqn:Hf; [|by split; [|left]].
  destruct (Hfin a f Hf) as (q & -> & Hq). split; [done|]. right. by exists a.
Qed.

Lemma passBounds_init durations : passBounds durations [] scheduleInit.
Proof.
  split.
  - intros k [v Hv]. cbn in Hv. by rewrite lookup_empty in Hv.
  - intros k f Hf. cbn in Hf. by rewrite lookup_empty in Hf.
  - exists 0. repeat split; [done..|by left|].
    intros k q Hf. cbn in Hf. by rewrite lookup_empty in Hf.
  - intros t Ht. by apply elem_of_nil in Ht.
  - intros i j t t' Hi. by rewrite lookup_nil in Hi.
Qed.

Lemma scheduleTask_bounds durations l sch x :
  passBounds durations l sch →
  id x ∉ (id <$> l) →
  (∀ d, d ∈ dependencies x → d ∈ (id <$> l) ∨ inherited d = false) →
  (∃ d, durations !! id x = Some (Fin d) ∧ 0 ≤ d) →
  passBounds durations (l ++ [x]) (scheduleTask durations sch x).
Proof.
  intros [Hdom Hfin (T & HT & HT0 & HTsum & HTat & HTmax) Htask Hdeps] Hx Hread
    (d & Hd & Hd0).
  assert (∀ t, t ∈ l → is_Some (finishTimes sch !! id t)) as Hdone.
  { intros t Ht. destruct (Htask t Ht) as (? & ? & _ & _ & Hf & _). by rewrite Hf. }
  destruct (startTime_bounds sch x Hfin) as (s & Hs & Hs0 & Hsat & Hsdeps).
  { intros dep Hdep. destruct (Hread dep Hdep) as [Hin|Hin]; [left|by right].
    apply list_elem_of_fmap in Hin as (t & -> & Ht). by apply Hdone. }
  assert (s ≤ T) as HsT.
  { destruct Hsat as [->|(k & _ & Hk)]; [done|]. by eapply HTmax. }
  assert (∀ k, is_Some (finishTimes sch !! k) → k ≠ id x) as Hne.
  { intros k Hk ->. by apply Hx, Hdom. }
  assert (∀ t, t ∈ l → id t ≠ id x) as Hne'.
  { intros t Ht E. apply Hx. rewrite <- E. apply list_elem_of_fmap. eauto. }
  unfold scheduleTask. rewrite Hs, Hd, HT. cbn [toNumber nadd]. rewrite ngtb_Fin.
  split; cbn [startTimes finishTimes projectDuration].
  - intros k. rewrite fmap_app, elem_of_app.
    destruct (decide (k = id x)) as [->|Hk].
    + intros _. right. simpl. left.
    + rewrite lookup_insert_ne by done. intros Hsome. left. by apply Hdom.
  - intros k f. destruct (decide (k = id x)) as [->|Hk].
    + rewrite lookup_insert_eq. intros [= <-]. exists (s + d). split; [done|].
      qc2q. lra.
    + rewrite lookup_insert_ne by done. apply Hfin.
  - exists (if decide (T < s + d) then s + d else T).
    split; [by case_bool_decide; case_decide|].
    split; [case_decide; qc2q; lra|]. split; [|split].
    + rewrite fmap_app, sumQc_app. cbn [fmap list_fmap sumQc foldr].
      unfold durationOf at 2. rewrite Hd. cbn [finiteOf].
      case_decide; qc2q; lra.
    + right. case_decide as Hlt.
      * exists x. rewrite lookup_insert_eq. split; [|done]. apply elem_of_app. right. left.
      * destruct HTat as [->|(t & Ht & Hft)].
        -- exists x. rewrite lookup_insert_eq. split; [by left|].
           do 2 f_equal. cbn [fmap list_fmap sumQc foldr] in HTsum.
           qc2q. lra.
        -- exists t. split; [apply elem_of_app; by left|].
           rewrite lookup_insert_ne; [done|]. apply not_eq_sym, Hne'. done. 
    + intros k q. destruct (decide (k = id x)) as [->|Hk].
      * rewrite lookup_insert_eq. intros [= <-]. case_decide; [apply Qcle_refl|by apply Qcnot_lt_le].
      * rewrite lookup_insert_ne by done. intros Hk'. specialize (HTmax _ _ Hk').
        case_decide; qc2q; lra.
  - intros t Ht. apply elem_of_app in Ht as [Ht|Ht].
    + destruct (Htask t Ht) as (s' & d' & ? & ? & ? & ? & Hat).
      exists s', d'. rewrite !lookup_insert_ne by (apply not_eq_sym, Hne'; done).
      repeat split; [done..|]. destruct Hat as [?|(dep & ? & Hdep)]; [by left|].
      right. exists dep. split; [done|]. rewrite lookup_insert_ne; [done|].
      apply not_eq_sym, Hne. by rewrite Hdep.
    + apply list_elem_of_singleton in Ht as ->. exists s, d.
      rewrite !lookup_insert_eq. repeat split; [done..|].
      destruct Hsat as [?|(dep & ? & Hdep)]; [by left|].
      right. exists dep. split; [done|]. rewrite lookup_insert_ne; [done|].
      apply not_eq_sym, Hne. by rewrite Hdep.
  - intros i j t t' Hi Hj Hji Hin.
    pose proof (lookup_lt_Some _ _ _ Hi) as Hlen. rewrite length_app in Hlen. cbn in Hlen.
    rewrite lookup_app_l in Hj by lia.
    assert (t' ∈ l) as Ht' by (by eapply list_elem_of_lookup_2).
    rewrite (lookup_insert_ne _ (id x) (id t')) by (apply not_eq_sym, Hne'; done).
    destruct (decide (i < length l)%nat) as [Hil|Hil].
    + rewrite lookup_app_l in Hi by done.
      assert (t ∈ l) as Ht by (by eapply list_elem_of_lookup_2).
      rewrite lookup_insert_ne by (apply not_eq_sym, Hne'; done). by eapply Hdeps.
    + rewrite lookup_app_r in Hi by lia.
      assert (i - length l = 0)%nat as E by lia. rewrite E in Hi. cbn in Hi.
      injection Hi as <-. rewrite lookup_insert_eq. cbn [finiteOf]. by apply Hsdeps.
Qed.
End bounds.

Section runs.
Local Open Scope Qc_scope.

Lemma readable_snoc l x :
  readable (l ++ [x]) →
  readable l ∧ ∀ d, d ∈ dependencies x → d ∈ (id <$> l) ∨ inherited d = false.
Proof.
  intros Hr. split.
  - intros i t d Hi Hd. pose proof (lookup_lt_Some _ _ _ Hi) as Hlt.
    destruct (Hr i t d) as [(j & t' & Hj & Hj' & Hid)|?];
      [by rewrite lookup_app_l|done| |by right].
    left. exists j, t'. split; [done|]. split; [|done].
    by rewrite lookup_app_l in Hj' by lia.
  - intros d Hd. destruct (Hr (length l) x d) as [(j & t' & Hj & Hj' & Hid)|?];
      [|done| |by right].
    { rewrite lookup_app_r by lia. by rewrite Nat.sub_diag. }
    left. rewrite lookup_app_l in Hj' by lia.
    apply list_elem_of_fmap. exists t'. split; [done|].
    by eapply list_elem_of_lookup_2.
Qed.

Lemma forwardPass_bounds durations l :
  NoDup (id <$> l) → sampled durations l → readable l →
  passBounds durations l (forwardPass durations l).
Proof.
  unfold forwardPass. induction l as [|x l IH] using rev_ind; intros Hnd Hs Hr.
  - apply passBounds_init.
  - rewrite foldl_app. cbn [foldl]. rewrite fmap_app in Hnd.
    apply NoDup_app in Hnd as (Hnd & Hx & _).
    apply readable_snoc in Hr as [Hr Hread].
    apply scheduleTask_bounds.
    + apply IH; [done| |done]. intros t Ht. apply Hs, elem_of_app. by left.
    + intros Hin. apply (Hx _ Hin). left.
    + done.
    + apply Hs, elem_of_app. right. left.
Qed.

(** What [runSimulation] returns, run by run. *)
Lemma runSimulation_runs sqrtQ rand project n results stats r :
  runSimulation sqrtQ rand project n = Ok (results, stats) → r ∈ results →
  ∃ sorted i k,
    topologicalSort (tasks project) = Ok sorted ∧
    let durations := (sampleDurations sqrtQ rand (tasks project) k).1 in
    let sch := forwardPass durations sorted in
    r = {| runId := i;
           totalDuration := projectDuration sch;
           criticalPath := [];
           taskDurations := durations;
           taskStartTimes := startTimes sch;
           peakResources := resourcePeaks sch (tasks project) |}.
Proof.
  intros Hrun Hr. apply runSimulation_Ok in Hrun as (sorted & Hsort & -> & _).
  apply simulateRuns_elem in Hr as (i & k & ->).
  exists sorted, i, k. split; [done|]. apply simulateRun_fst.
Qed.
End runs.

(** ** The total duration, whatever the estimates are *)

Section total.
Local Open Scope Qc_scope.

Lemma scheduleTask_sane durations sch x :
  sane (projectDuration sch) →
  sane (projectDuration (scheduleTask durations sch x)).
Proof.
  unfold scheduleTask. cbn [projectDuration].
  match goal with |- context [ngtb ?f _] => generalize f end.
  intros finish [->|(T & -> & HT)].
  - unfold ngtb. destruct finish; by left.
  - unfold ngtb. destruct finish as [f| | |]; cbn [nltb]; [|by left|by right; exists T..].
    case_bool_decide as Hlt; right; [exists f|exists T]; split; try done.
    apply Qclt_le_weak. by eapply Qcle_lt_trans.
Qed.

Lemma forwardPass_sane durations l : sane (projectDuration (forwardPass durations l)).
Proof.
  unfold forwardPass.
  assert (sane (projectDuration scheduleInit)) as H by (right; by exists 0).
  revert H. generalize scheduleInit. induction l as [|x l IH]; intros sch H; [done|].
  cbn [foldl]. by apply IH, scheduleTask_sane.
Qed.

End total.
(** * Runs of a project with plain names *)

Lemma planTasks_NoDup : NoDup (id <$> planTasks).
Proof. compute_done. Qed.

Lemma planTasks_plain : plainNames planTasks.
Proof.
  repeat constructor; try done; first [by right | left; compute_done].
Qed.

Lemma planProject_runs :
  runSimulation sqrt_floor sevenths planProject 5 = Ok (planRuns, planStats).
Proof. by vm_compute. Qed.

Lemma planRuns_moderate : Forall (λ r, moderate (taskDurations r) planTasks) planRuns.
Proof.
  let l := eval vm_compute in planRuns in
  assert (planRuns = l) as -> by (vm_compute; reflexivity).
  unfold moderate, planTasks.
  repeat first [apply Forall_nil_2 | apply Forall_cons_2];
    (eexists; split; [vm_compute; reflexivity|split; by vm_compute]).
Qed.

Section schedules.
Local Open Scope Qc_scope.

Lemma NoDup_id_inj (l : list Task) t t' :
  NoDup (id <$> l) → t ∈ l → t' ∈ l → id t = id t' → t = t'.
Proof.
  intros Hnd Ht Ht' E.
  apply list_elem_of_lookup in Ht as [i Hi]. apply list_elem_of_lookup in Ht' as [j Hj].
  assert (i = j) as ->; [|congruence].
  eapply NoDup_lookup; [done|by rewrite list_lookup_fmap, Hi|].
  by rewrite list_lookup_fmap, Hj, E.
Qed.

(** The schedule of one run of a project with unique identifiers and plain
    names, for durations that are not negative. *)
Lemma run_passBounds ts sorted durations :
  NoDup (id <$> ts) → plainNames ts → topologicalSort ts = Ok sorted →
  moderate durations ts →
  sorted ≡ₚ ts ∧ passBounds durations sorted (forwardPass durations sorted).
Proof.
  intros Hnd Hplain Hsort Hmod.
  pose proof (topologicalSort_Permutation _ _ Hnd Hsort) as Hperm.
  unfold plainNames, moderate in *. rewrite Forall_forall in Hplain, Hmod.
  split; [done|]. apply forwardPass_bounds.
  - by rewrite Hperm.
  - intros t Ht. rewrite Hperm in Ht.
    destruct (Hmod t Ht) as (d & ? & ? & _). by exists d.
  - intros i t d Hi Hd.
    assert (t ∈ ts) as Ht by (rewrite <- Hperm; by eapply list_elem_of_lookup_2).
    destruct (Hplain t Ht) as [_ Hdeps]. rewrite Forall_forall in Hdeps.
    destruct (Hdeps d Hd) as [Hin|?]; [left|by right].
    destruct (topologicalSort_Ok _ _ Hsort) as (_ & _ & Hbefore & _).
    apply (Hbefore i t d Hi Hd).
    apply list_elem_of_fmap in Hin as (t' & -> & Ht'). by apply find_task_elem_of.
Qed.

(** A dependency that names a task stands before the task in the sorted
    list. *)
Lemma sorted_before ts sorted t t' :
  NoDup (id <$> ts) → topologicalSort ts = Ok sorted →
  t ∈ ts → t' ∈ ts → id t' ∈ dependencies t →
  ∃ i j, sorted !! i = Some t ∧ sorted !! j = Some t' ∧ (j < i)%nat.
Proof.
  intros Hnd Hsort Ht Ht' Hdep.
  pose proof (topologicalSort_Permutation _ _ Hnd Hsort) as Hperm.
  destruct (topologicalSort_Ok _ _ Hsort) as (_ & _ & Hbefore & _).
  assert (t ∈ sorted) as Hin by (by rewrite Hperm).
  apply list_elem_of_lookup in Hin as [i Hi].
  destruct (Hbefore i t (id t') Hi Hdep) as (j & t'' & Hji & Hj & Hid).
  { by apply find_task_elem_of. }
  assert (t'' = t') as ->.
  { eapply (NoDup_id_inj ts); [done| |done..].
    rewrite <- Hperm. by eapply list_elem_of_lookup_2. }
  by exists i, j.
Qed.
End schedules.

Lemma run_schedule (sqrtQ : Qc → Qc) (rand : nat → Qc)
    (project : ProjectData) (n : nat) (results : list SimulationResult)
    (stats : SimulationStats) :
  NoDup (id <$> tasks project) → plainNames (tasks project) →
  runSimulation sqrtQ rand project n = Ok (results, stats) →
  ∀ r t, r ∈ results → moderate (taskDurations r) (tasks project) →
    t ∈ tasks project →
    ∃ s d : Qc,
      taskStartTimes r !! id t = Some (Fin s) ∧
      taskDurations r !! id t = Some (Fin d) ∧
      (0 ≤ s)%Qc ∧ (0 ≤ d)%Qc ∧
      (s = 0%Qc ∨
       ∃ t' s' d', t' ∈ tasks project ∧ id t' ∈ dependencies t ∧
         taskStartTimes r !! id t' = Some (Fin s') ∧
         taskDurations r !! id t' = Some (Fin d') ∧ (s' + d')%Qc = s) ∧
      ∀ t', t' ∈ tasks project → id t' ∈ dependencies t →
        ∃ s' d' : Qc,
          taskStartTimes r !! id t' = Some (Fin s') ∧
          taskDurations r !! id t' = Some (Fin d') ∧
          (s' + d' ≤ s)%Qc.
Proof.
  intros Hnd Hplain Hrun r t Hr Hmod Ht.
  destruct (runSimulation_runs _ _ _ _ _ _ r Hrun Hr)
    as (sorted & i & k & Hsort & ->).
  cbn [taskDurations taskStartTimes] in *.
  destruct (run_passBounds _ _ _ Hnd Hplain Hsort Hmod) as [Hperm Hpb].
  unfold moderate in Hmod. rewrite Forall_forall in Hmod.
  destruct (Hmod t Ht) as (d0 & Hd0 & Hd0pos & _).
  destruct (pb_task _ _ _ Hpb t) as (s & d & Hd & Hs & Hf & Hs0 & Hat);
    [by rewrite Hperm|].
  exists s, d. repeat split; [done..|congruence| |].
  - destruct Hat as [?|(dep & Hdep & Hfdep)]; [by left|]. right.
    assert (dep ∈ id <$> sorted) as Hin by (eapply pb_dom; [done|by rewrite Hfdep]).
    apply list_elem_of_fmap in Hin as (t' & -> & Ht').
    destruct (pb_task _ _ _ Hpb t' Ht') as (s' & d' & Hd' & Hs' & Hf' & _).
    exists t', s', d'. rewrite Hperm in Ht'. repeat split; [done..|]. congruence.
  - intros t' Ht' Hdep.
    destruct (sorted_before _ _ t t' Hnd Hsort Ht Ht' Hdep) as (i' & j' & Hi' & Hj' & Hlt).
    destruct (pb_task _ _ _ Hpb t') as (s' & d' & Hd' & Hs' & Hf' & _);
      [by rewrite Hperm|].
    exists s', d'. repeat split; [done..|].
    pose proof (pb_deps _ _ _ Hpb i' j' t t' Hi' Hj' Hlt Hdep) as Hle.
    by rewrite Hf', Hs in Hle.
Qed.

(** X8. In a run whose sampled durations are finite, not negative and
    moderate, of a project with unique identifiers and plain names, a task
    starts at [0] or at the moment one of its dependencies ends, and never
    before the end (start plus duration) of a dependency that names a task;
    a dependency that names no task holds nothing back.  Closedness of the
    dependencies is not needed. *)
Theorem run_schedule_respects_dependencies (sqrtQ : Qc → Qc) (rand : nat → Qc)
    (project : ProjectData) (n : nat) (results : list SimulationResult)
    (stats : SimulationStats) :
  NoDup (id <$> tasks project) → plainNames (tasks project) →
  runSimulation sqrtQ rand project n = Ok (results, stats) →
  ∀ r t, r ∈ results → moderate (taskDurations r) (tasks project) →
    t ∈ tasks project →
    ∃ s d : Qc,
      taskStartTimes r !! id t = Some (Fin s) ∧
      taskDurations r !! id t = Some (Fin d) ∧
      (0 ≤ s)%Qc ∧ (0 ≤ d)%Qc ∧
      (s = 0%Qc ∨
       ∃ t' s' d', t' ∈ tasks project ∧ id t' ∈ dependencies t ∧
         taskStartTimes r !! id t' = Some (Fin s') ∧
         taskDurations r !! id t' = Some (Fin d') ∧ (s' + d')%Qc = s) ∧
      ∀ t', t' ∈ tasks project → id t' ∈ dependencies t →
        ∃ s' d' : Qc,
          taskStartTimes r !! id t' = Some (Fin s') ∧
          taskDurations r !! id t' = Some (Fin d') ∧
          (s' + d' ≤ s)%Qc.
Proof. apply run_schedule. Qed.

Lemma run_schedule_respects_dependencies_witness :
  Forall (λ r, Forall (λ t,
    ∃ s d : Qc,
      taskStartTimes r !! id t = Some (Fin s) ∧
      taskDurations r !! id t = Some (Fin d) ∧
      (0 ≤ s)%Qc ∧ (0 ≤ d)%Qc ∧
      (s = 0%Qc ∨
       ∃ t' s' d', t' ∈ tasks planProject ∧ id t' ∈ dependencies t ∧
         taskStartTimes r !! id t' = Some (Fin s') ∧
         taskDurations r !! id t' = Some (Fin d') ∧ (s' + d')%Qc = s) ∧
      ∀ t', t' ∈ tasks planProject → id t' ∈ dependencies t →
        ∃ s' d' : Qc,
          taskStartTimes r !! id t' = Some (Fin s') ∧
          taskDurations r !! id t' = Some (Fin d') ∧
          (s' + d' ≤ s)%Qc) (tasks planProject)) planRuns.
Proof.
  apply Forall_forall. intros r Hr. apply Forall_forall. intros t Ht.
  apply (run_schedule_respects_dependencies sqrt_floor sevenths planProject 5
           planRuns planStats).
  - exact planTasks_NoDup.
  - exact planTasks_plain.
  - exact planProject_runs.
  - exact Hr.
  - pose proof planRuns_moderate as Hmod. rewrite Forall_forall in Hmod.
    by apply Hmod.
  - exact Ht.
Defined.

Lemma run_total (sqrtQ : Qc → Qc) (rand : nat → Qc)
    (project : ProjectData) (n : nat) (results : list SimulationResult)
    (stats : SimulationStats) :
  NoDup (id <$> tasks project) → plainNames (tasks project) →
  runSimulation sqrtQ rand project n = Ok (results, stats) →
  ∀ r, r ∈ results → moderate (taskDurations r) (tasks project) →
    ∃ T : Qc,
      totalDuration r = Fin T ∧ (0 ≤ T)%Qc ∧
      (∀ t, t ∈ tasks project →
         ∃ s d : Qc,
           taskStartTimes r !! id t = Some (Fin s) ∧
           taskDurations r !! id t = Some (Fin d) ∧ (s + d ≤ T)%Qc) ∧
      (tasks project = [] ∨
       ∃ t s d, t ∈ tasks project ∧
         taskStartTimes r !! id t = Some (Fin s) ∧
         taskDurations r !! id t = Some (Fin d) ∧ (s + d)%Qc = T).
Proof.
  intros Hnd Hplain Hrun r Hr Hmod.
  destruct (runSimulation_runs _ _ _ _ _ _ r Hrun Hr)
    as (sorted & i & k & Hsort & ->).
  cbn [taskDurations taskStartTimes totalDuration] in *.
  destruct (run_passBounds _ _ _ Hnd Hplain Hsort Hmod) as [Hperm Hpb].
  destruct (pb_total _ _ _ Hpb) as (T & HT & HT0 & HTsum & HTat & HTmax).
  exists T. repeat split; [done..| |].
  - intros t Ht.
    destruct (pb_task _ _ _ Hpb t) as (s & d & Hd & Hs & Hf & Hs0 & _);
      [by rewrite Hperm|].
    exists s, d. repeat split; [done..|]. by eapply HTmax.
  - destruct HTat as [->|(t & Ht & Hf)].
    + left. by apply Permutation_nil_l in Hperm.
    + right. destruct (pb_task _ _ _ Hpb t Ht) as (s & d & Hd & Hs & Hf' & _).
      exists t, s, d. rewrite Hperm in Ht. repeat split; [done..|]. congruence.
Qed.

(** X9. In a run whose sampled durations are finite, not negative and
    moderate, of a project with unique identifiers and plain names, the
    total duration is the largest end (start plus duration) of a task: no
    task ends later and, unless the project is empty, some task ends
    then. *)
Theorem total_duration_bounds (sqrtQ : Qc → Qc) (rand : nat → Qc)
    (project : ProjectData) (n : nat) (results : list SimulationResult)
    (stats : SimulationStats) :
  NoDup (id <$> tasks project) → plainNames (tasks project) →
  runSimulation sqrtQ rand project n = Ok (results, stats) →
  ∀ r, r ∈ results → moderate (taskDurations r) (tasks project) →
    ∃ T : Qc,
      totalDuration r = Fin T ∧ (0 ≤ T)%Qc ∧
      (∀ t, t ∈ tasks project →
         ∃ s d : Qc,
           taskStartTimes r !! id t = Some (Fin s) ∧
           taskDurations r !! id t = Some (Fin d) ∧ (s + d ≤ T)%Qc) ∧
      (tasks project = [] ∨
       ∃ t s d, t ∈ tasks project ∧
         taskStartTimes r !! id t = Some (Fin s) ∧
         taskDurations r !! id t = Some (Fin d) ∧ (s + d)%Qc = T).
Proof. apply run_total. Qed.

Lemma total_duration_bounds_witness :
  Forall (λ r,
    ∃ T : Qc,
      totalDuration r = Fin T ∧ (0 ≤ T)%Qc ∧
      (∀ t, t ∈ tasks planProject →
         ∃ s d : Qc,
           taskStartTimes r !! id t = Some (Fin s) ∧
           taskDurations r !! id t = Some (Fin d) ∧ (s + d ≤ T)%Qc) ∧
      (tasks planProject = [] ∨
       ∃ t s d, t ∈ tasks planProject ∧
         taskStartTimes r !! id t = Some (Fin s) ∧
         taskDurations r !! id t = Some (Fin d) ∧ (s + d)%Qc = T)) planRuns.
Proof.
  apply Forall_forall. intros r Hr.
  apply (total_duration_bounds sqrt_floor sevenths planProject 5
           planRuns planStats).
  - exact planTasks_NoDup.
  - exact planTasks_plain.
  - exact planProject_runs.
  - exact Hr.
  - pose proof planRuns_moderate as Hmod. rewrite Forall_forall in Hmod.
    by apply Hmod.
Defined.

(** * The order of the statistics *)

Section ordering.
Local Open Scope Qc_scope.

Lemma ofNat_S (n : nat) :
  Q2Qc (inject_Z (Z.of_nat (S n))) = Q2Qc (inject_Z (Z.of_nat n)) + 1.
Proof.
  apply Qc_is_canon. rewrite this_plus. cbn [this Q2Qc]. rewrite !Qred_correct.
  rewrite Nat2Z.inj_succ. unfold Z.succ. rewrite inject_Z_plus. reflexivity.
Qed.

Lemma sorted_lookup (l : list num) (i : nat) :
  Forall finite l → (i < length l)%nat → ∃ x, l !! i = Some (Fin x).
Proof.
  intros Hfin Hi. destruct (lookup_lt_is_Some_2 l i Hi) as [a Ha].
  rewrite Forall_forall in Hfin.
  destruct (Hfin a) as [x ->]; [by eapply list_elem_of_lookup_2|]. by exists x.
Qed.

Lemma sorted_lookup_le (l : list num) (i j : nat) x y :
  StronglySorted nle l → Forall finite l → (i ≤ j)%nat →
  l !! i = Some (Fin x) → l !! j = Some (Fin y) → x ≤ y.
Proof.
  intros Hs Hfin Hij Hi Hj.
  destruct (StronglySorted_lookup_le l i j _ _ Hs Hfin Hij Hi Hj)
    as (x' & y' & [= ->] & [= ->] & Hle). done.
Qed.
End ordering.

Section statistic.
Local Open Scope Qc_scope.

(** The sorted durations of runs with finite totals. *)
Lemma sorted_durations (results : list SimulationResult) :
  results ≠ [] → Forall finite (totalDuration <$> results) →
  let durations := js_sort ascending (totalDuration <$> results) in
  StronglySorted nle durations ∧ Forall finite durations ∧
  length durations = length results ∧ (0 < length results)%nat ∧
  durations ≡ₚ totalDuration <$> results.
Proof.
  intros Hne Hfin durations. split; [by apply js_sort_Sorted|].
  split; [by apply js_sort_Forall|]. split; [|split].
  - unfold durations. by rewrite js_sort_length, length_fmap.
  - destruct results; [done|simpl; lia].
  - apply js_sort_Permutation.
Qed.

Lemma percentile_index (n : nat) (p : Qc) :
  (0 < n)%nat → 0 ≤ p → p < 1 →
  (Z.to_nat (Qfloor (inject_Z (Z.of_nat n) * p)) < n)%nat.
Proof. intros Hn H0 H1. pose proof (floor_mul_bounds n p H0 H1 Hn). lia. Qed.

Lemma percentile_index_mono (n : nat) (p q : Qc) :
  0 ≤ p → p ≤ q →
  (Z.to_nat (Qfloor (inject_Z (Z.of_nat n) * p))
   ≤ Z.to_nat (Qfloor (inject_Z (Z.of_nat n) * q)))%nat.
Proof.
  intros H0 Hpq. apply Z2Nat.inj_le; [apply floor_mul_nonneg..|by apply floor_mul_mono].
  - done.
  - by eapply Qcle_trans.
Qed.
End statistic.

Lemma computeStats_ordered (sqrtQ : Qc → Qc) (ts : list Task)
    (results : list SimulationResult) :
  results ≠ [] → Forall finite (totalDuration <$> results) →
  let stats := computeStats sqrtQ ts results in
  ∃ mn md q90 q95 q99 mx : Qc,
    min stats = Some (Fin mn) ∧ median stats = Some (Fin md) ∧
    p90 stats = Some (Fin q90) ∧ p95 stats = Some (Fin q95) ∧
    p99 stats = Some (Fin q99) ∧ max stats = Some (Fin mx) ∧
    (mn ≤ md)%Qc ∧ (md ≤ q90)%Qc ∧ (q90 ≤ q95)%Qc ∧ (q95 ≤ q99)%Qc ∧
    (q99 ≤ mx)%Qc ∧
    (∀ r, r ∈ results →
       nle (Fin mn) (totalDuration r) ∧ nle (totalDuration r) (Fin mx)) ∧
    (∀ v, v ∈ [mn; md; q90; q95; q99; mx] →
       ∃ r, r ∈ results ∧ totalDuration r = Fin v).
Proof.
  intros Hne Hfin stats.
  destruct (sorted_durations results Hne Hfin) as (Hsorted & Hfinite & Hlen & Hn & Hperm).
  unfold stats, computeStats.
  cbn [min median p90 p95 p99 max].
  set (durations := js_sort ascending (totalDuration <$> results)) in *.
  set (n := length results) in *.
  change (js_index durations (Fin 0%Qc)) with (js_index durations (ofNat 0)).
  rewrite js_index_ofNat, js_index_last, last_lookup, medianOf_half.
  unfold nine_tenths, p_95, p_99.
  rewrite !getPercentile_lookup by done. rewrite Hlen.
  set (i50 := Z.to_nat (Qfloor (inject_Z (Z.of_nat n) * Q2Qc (1 # 2)))).
  set (i90 := Z.to_nat (Qfloor (inject_Z (Z.of_nat n) * Q2Qc (9 # 10)))).
  set (i95 := Z.to_nat (Qfloor (inject_Z (Z.of_nat n) * Q2Qc (95 # 100)))).
  set (i99 := Z.to_nat (Qfloor (inject_Z (Z.of_nat n) * Q2Qc (99 # 100)))).
  assert (i50 ≤ i90 ∧ i90 ≤ i95 ∧ i95 ≤ i99 ∧ i99 < n)%nat as (H1 & H2 & H3 & H4).
  { repeat split; [by apply percentile_index_mono..|by apply percentile_index]. }
  destruct (sorted_lookup durations 0 Hfinite ltac:(lia)) as [mn Hmn].
  destruct (sorted_lookup durations i50 Hfinite ltac:(lia)) as [md Hmd].
  destruct (sorted_lookup durations i90 Hfinite ltac:(lia)) as [q90 Hq90].
  destruct (sorted_lookup durations i95 Hfinite ltac:(lia)) as [q95 Hq95].
  destruct (sorted_lookup durations i99 Hfinite ltac:(lia)) as [q99 Hq99].
  destruct (sorted_lookup durations (pred n) Hfinite ltac:(lia)) as [mx Hmx].
  assert (∀ i x, durations !! i = Some (Fin x) → (mn ≤ x)%Qc ∧ (x ≤ mx)%Qc) as Hbetween.
  { intros i x Hi. pose proof (lookup_lt_Some _ _ _ Hi). split.
    - eapply (sorted_lookup_le durations 0 i); [done..|lia|done|done].
    - eapply (sorted_lookup_le durations i (pred n)); [done..|lia|done|done]. }
  exists mn, md, q90, q95, q99, mx.
  rewrite Hmn, Hmd, Hq90, Hq95, Hq99, Hmx.
  repeat split; try done.
  - by apply (Hbetween i50).
  - by eapply (sorted_lookup_le durations i50 i90).
  - by eapply (sorted_lookup_le durations i90 i95).
  - by eapply (sorted_lookup_le durations i95 i99).
  - by apply (Hbetween i99).
  - assert (totalDuration r ∈ durations) as Hin.
    { rewrite Hperm. apply list_elem_of_fmap. eauto. }
    apply list_elem_of_lookup in Hin as [i Hi].
    destruct (sorted_lookup durations i Hfinite) as [x Hx]; [by eapply lookup_lt_Some|].
    assert (totalDuration r = Fin x) as -> by congruence.
    exists mn, x. repeat split; [done..|]. by apply (Hbetween i).
  - assert (totalDuration r ∈ durations) as Hin.
    { rewrite Hperm. apply list_elem_of_fmap. eauto. }
    apply list_elem_of_lookup in Hin as [i Hi].
    destruct (sorted_lookup durations i Hfinite) as [x Hx]; [by eapply lookup_lt_Some|].
    assert (totalDuration r = Fin x) as -> by congruence.
    exists x, mx. repeat split; [done..|]. by apply (Hbetween i).
  - intros v' Hv'.
    assert (∃ i, durations !! i = Some (Fin v')) as [i Hi].
    { set_unfold in Hv'. destruct Hv' as [->|[->|[->|[->|[->|[->|[]]]]]]]; eauto. }
    apply list_elem_of_lookup_2 in Hi. rewrite Hperm in Hi.
    apply list_elem_of_fmap in Hi as (r & ? & ?). by exists r.
Qed.

(** X10. The statistics of runs with finite totals are ordered,
    [min ≤ median ≤ p90 ≤ p95 ≤ p99 ≤ max]; every total lies between [min]
    and [max]; and each of these statistics is the total of one of the
    runs. *)
Theorem statistics_ordered (sqrtQ : Qc → Qc) (ts : list Task)
    (results : list SimulationResult) :
  results ≠ [] → Forall finite (totalDuration <$> results) →
  let stats := computeStats sqrtQ ts results in
  ∃ mn md q90 q95 q99 mx : Qc,
    min stats = Some (Fin mn) ∧ median stats = Some (Fin md) ∧
    p90 stats = Some (Fin q90) ∧ p95 stats = Some (Fin q95) ∧
    p99 stats = Some (Fin q99) ∧ max stats = Some (Fin mx) ∧
    (mn ≤ md)%Qc ∧ (md ≤ q90)%Qc ∧ (q90 ≤ q95)%Qc ∧ (q95 ≤ q99)%Qc ∧
    (q99 ≤ mx)%Qc ∧
    (∀ r, r ∈ results →
       nle (Fin mn) (totalDuration r) ∧ nle (totalDuration r) (Fin mx)) ∧
    (∀ v, v ∈ [mn; md; q90; q95; q99; mx] →
       ∃ r, r ∈ results ∧ totalDuration r = Fin v).
Proof. apply computeStats_ordered. Qed.

Lemma planRuns_finite : Forall finite (totalDuration <$> planRuns).
Proof. vm_compute. repeat constructor; by eexists. Qed.

Lemma planRuns_nonempty : planRuns ≠ [].
Proof. by vm_compute. Qed.

Lemma statistics_ordered_witness :
  ∃ mn md q90 q95 q99 mx : Qc,
    min planStats = Some (Fin mn) ∧ median planStats = Some (Fin md) ∧
    p90 planStats = Some (Fin q90) ∧ p95 planStats = Some (Fin q95) ∧
    p99 planStats = Some (Fin q99) ∧ max planStats = Some (Fin mx) ∧
    (mn ≤ md)%Qc ∧ (md ≤ q90)%Qc ∧ (q90 ≤ q95)%Qc ∧ (q95 ≤ q99)%Qc ∧
    (q99 ≤ mx)%Qc ∧
    (∀ r, r ∈ planRuns →
       nle (Fin mn) (totalDuration r) ∧ nle (totalDuration r) (Fin mx)) ∧
    (∀ v, v ∈ [mn; md; q90; q95; q99; mx] →
       ∃ r, r ∈ planRuns ∧ totalDuration r = Fin v).
Proof.
  apply (statistics_ordered sqrt_floor planTasks planRuns).
  - exact planRuns_nonempty.
  - exact planRuns_finite.
Defined.

(** * Projects without uncertainty *)

Section certain.
Local Open Scope Qc_scope.
Variable sqrtQ : Qc → Qc.
Variable rand : nat → Qc.
Hypothesis sqrtQ_0 : sqrtQ 0 = 0.

Lemma foldl_sampleTask_certain ts acc :
  certain ts →
  (foldl (sampleTask sqrtQ rand) acc ts).1
  = foldl (λ m t, <[id t := optimistic t]> m) acc.1 ts.
Proof.
  revert acc. induction ts as [|t ts IH]; intros acc Hc; [done|].
  apply Forall_cons in Hc as [(d & (Ho & Hm & Hp) & _) Hc].
  cbn [foldl]. rewrite IH by done. f_equal. rewrite sampleTask_fst.
  rewrite Ho, Hm, Hp. by rewrite sampleTriangular_degenerate.
Qed.

Lemma sampleDurations_certain ts k :
  certain ts →
  (sampleDurations sqrtQ rand ts k).1 = (sampleDurations sqrtQ rand ts 0).1.
Proof.
  intros Hc. unfold sampleDurations. by rewrite !foldl_sampleTask_certain.
Qed.

(** A list of one repeated number is left as it is: [a - a] is [0] or
    [NaN], never positive. *)
Lemma js_sort_constant n (a : num) :
  js_sort ascending (replicate n a) = replicate n a.
Proof.
  induction n as [|n IH]; [done|].
  unfold js_sort in *. cbn [replicate foldr]. rewrite IH.
  destruct n as [|n]; [done|]. cbn [replicate sort_insert].
  assert (ngtb (ascending a a) (Fin 0) = false) as ->; [|done].
  destruct a as [x| | |]; [|done..].
  rewrite ascending_gt. apply bool_decide_eq_false, Qcle_not_lt, Qcle_refl.
Qed.

(** The statistics of runs that all have the same total duration. *)
Lemma computeStats_constant ts results (T : num) :
  results ≠ [] → (∀ r, r ∈ results → totalDuration r = T) →
  let stats := computeStats sqrtQ ts results in
  median stats = Some T ∧ min stats = Some T ∧ max stats = Some T ∧
  p50 stats = Some T ∧ p90 stats = Some T ∧
  p95 stats = Some T ∧ p99 stats = Some T.
Proof.
  intros Hne Hall stats.
  assert (totalDuration <$> results = replicate (length results) T) as E.
  { clear Hne. induction results as [|r rs IH]; [done|].
    cbn [fmap list_fmap length replicate]. rewrite (Hall r) by left.
    f_equal. apply IH. intros r' Hr'. apply Hall. by right. }
  assert (0 < length results)%nat as Hn by (destruct results; [done|simpl; lia]).
  unfold stats, computeStats. cbn [median min max p50 p90 p95 p99].
  rewrite E, js_sort_constant.
  change (js_index (replicate (length results) T) (Fin 0%Qc))
    with (js_index (replicate (length results) T) (ofNat 0)).
  rewrite js_index_ofNat, js_index_last, last_lookup, medianOf_half.
  unfold nine_tenths, p_95, p_99.
  rewrite !getPercentile_lookup by done. rewrite !length_replicate.
  repeat split; apply lookup_replicate_2; try lia; by apply percentile_index.
Qed.
End certain.

(** X11. A project whose tasks all have a fixed duration has no spread
    in its percentiles.  Every run has the same total duration [T], a
    number that is not negative; the median, the minimum, the maximum and
    the percentiles are all [T].  Identifiers need not be unique and
    dependencies need not name tasks. *)
Theorem certain_project_statistics (sqrtQ : Qc → Qc) (rand : nat → Qc)
    (project : ProjectData) (n : nat) (results : list SimulationResult)
    (stats : SimulationStats) :
  sqrtQ 0%Qc = 0%Qc → certain (tasks project) → n ≠ 0 →
  runSimulation sqrtQ rand project n = Ok (results, stats) →
  ∃ T : num,
    sane T ∧
    (∀ r, r ∈ results → totalDuration r = T) ∧
    median stats = Some T ∧
    min stats = Some T ∧ max stats = Some T ∧
    p50 stats = Some T ∧ p90 stats = Some T ∧
    p95 stats = Some T ∧ p99 stats = Some T.
Proof.
  intros Hsq Hc Hn Hrun.
  pose proof Hrun as Hrun'.
  apply runSimulation_Ok in Hrun' as (sorted & Hsort & Hres & Hstats).
  set (durations := (sampleDurations sqrtQ rand (tasks project) 0).1).
  exists (projectDuration (forwardPass durations sorted)).
  split; [apply forwardPass_sane|].
  assert (∀ r, r ∈ results →
    totalDuration r = projectDuration (forwardPass durations sorted)) as Hall.
  { intros r Hr.
    destruct (runSimulation_runs _ _ _ _ _ _ r Hrun Hr) as (sorted' & i & k & Hsort' & ->).
    assert (sorted' = sorted) as -> by congruence.
    cbn [totalDuration]. by rewrite (sampleDurations_certain sqrtQ rand Hsq _ k Hc). }
  split; [done|]. rewrite Hstats.
  apply computeStats_constant; [|done].
  intros E. apply Hn.
  rewrite <- (simulateRuns_length sqrtQ rand (tasks project) sorted n 0 0), <- Hres.
  by rewrite E.
Qed.

Lemma certain_AB : certain [taskA; taskB].
Proof.
  repeat constructor; exists (Q2Qc 2); by repeat split.
Qed.

Lemma certain_project_statistics_witness :
  ∃ T : num,
    sane T ∧
    (∀ r, r ∈ exampleRuns → totalDuration r = T) ∧
    median (computeStats sqrt_trunc [taskA; taskB] exampleRuns) = Some T ∧
    min (computeStats sqrt_trunc [taskA; taskB] exampleRuns) = Some T ∧ max (computeStats sqrt_trunc [taskA; taskB] exampleRuns) = Some T ∧
    p50 (computeStats sqrt_trunc [taskA; taskB] exampleRuns) = Some T ∧ p90 (computeStats sqrt_trunc [taskA; taskB] exampleRuns) = Some T ∧
    p95 (computeStats sqrt_trunc [taskA; taskB] exampleRuns) = Some T ∧ p99 (computeStats sqrt_trunc [taskA; taskB] exampleRuns) = Some T.
Proof.
  apply (certain_project_statistics sqrt_trunc half (projectOf [taskA; taskB]) 3).
  - exact sqrt_trunc_0.
  - exact certain_AB.
  - done.
  - by vm_compute.
Defined.

(** The runs of the example all take four days. *)
Example certain_total :
  Forall (λ r, totalDuration r = ofZ 4) exampleRuns ∧
  median (computeStats sqrt_trunc [taskA; taskB] exampleRuns) = Some (ofZ 4).
Proof. split; [|by vm_compute]. vm_compute. by repeat constructor. Qed.

(** * Estimates that are not numbers *)

Section blank.
Local Open Scope Qc_scope.

Lemma nadd_NaN_r a : nadd a NaN = NaN.
Proof. by destruct a. Qed.

Lemma nsub_NaN_r a : nsub a NaN = NaN.
Proof. by destruct a. Qed.

Lemma nmul_NaN_r a : nmul a NaN = NaN.
Proof. by destruct a. Qed.

Lemma ndiv_NaN_r a : ndiv a NaN = NaN.
Proof. by destruct a. Qed.

Lemma nltb_NaN_r a : nltb a NaN = false.
Proof. by destruct a. Qed.

Lemma sampleTriangular_NaN sqrtQ rand lo mode hi k :
  lo = NaN ∨ mode = NaN ∨ hi = NaN →
  (sampleTriangular sqrtQ rand lo mode hi k).1 = NaN.
Proof.
  unfold sampleTriangular, Math_random, triangular_f.
  intros [->|[->| ->]].
  - by rewrite !nsub_NaN_r, ndiv_NaN_r, nltb_NaN_r.
  - assert (∀ a, nsub NaN a = NaN) as E by done.
    assert (∀ a, ndiv NaN a = NaN) as E' by (by intros []).
    rewrite E, E', nltb_NaN_r. cbn [fst].
    rewrite nsub_NaN_r, nmul_NaN_r. cbn [Math_sqrt]. by rewrite nsub_NaN_r.
  - assert (∀ a, nsub NaN a = NaN) as E by done.
    by rewrite !E, ndiv_NaN_r, nltb_NaN_r.
Qed.
End blank.

Section ignored.
Local Open Scope Qc_scope.

(** The finish time recorded for a task whose duration is [NaN] is [NaN],
    which [|| 0] reads as [0]. *)
Lemma scheduleTask_blank durations sch x key :
  durations !! key = Some NaN →
  id x = key ∨ finishTimes sch !! key = Some NaN →
  finishTimes (scheduleTask durations sch x) !! key = Some NaN.
Proof.
  intros Hd H. unfold scheduleTask. cbn [finishTimes].
  destruct (decide (id x = key)) as [->|Hne].
  - rewrite lookup_insert_eq, Hd. cbn [toNumber]. by rewrite nadd_NaN_r.
  - rewrite lookup_insert_ne by done. by destruct H.
Qed.

Lemma foldl_scheduleTask_blank durations l sch key :
  durations !! key = Some NaN →
  key ∈ (id <$> l) ∨ finishTimes sch !! key = Some NaN →
  finishTimes (foldl (scheduleTask durations) sch l) !! key = Some NaN.
Proof.
  intros Hd. revert sch. induction l as [|x l IH]; intros sch H; cbn [foldl].
  - destruct H as [H|H]; [by apply elem_of_nil in H|done].
  - apply IH. rewrite fmap_cons, elem_of_cons in H.
    destruct H as [[->|H]|H]; [right|by left|right];
      apply scheduleTask_blank; auto.
Qed.
End ignored.

(** X12. A task one of whose estimates is [NaN] is passed over in
    silence.  In every run its duration is [NaN]; a task each of whose
    dependencies names such a task, or no task and no property that every
    object inherits, starts at [0] as if it had none; and the total
    duration is still a number, [Infinity] or finite and not negative,
    whatever the estimates of the project are.  (Identifiers are unique,
    and none is [__proto__], under which a record stores nothing.) *)
Theorem blank_estimate_is_ignored (sqrtQ : Qc → Qc) (rand : nat → Qc)
    (project : ProjectData) (n : nat) (results : list SimulationResult)
    (stats : SimulationStats) :
  NoDup (id <$> tasks project) →
  Forall (λ t, id t ≠ "__proto__") (tasks project) →
  runSimulation sqrtQ rand project n = Ok (results, stats) →
  ∀ r, r ∈ results →
    (∀ t, t ∈ tasks project → blank t → taskDurations r !! id t = Some NaN) ∧
    (∀ t', t' ∈ tasks project →
       (∀ d, d ∈ dependencies t' →
          ((d ∉ id <$> tasks project) ∧ inherited d = false) ∨
          ∃ t, t ∈ tasks project ∧ id t = d ∧ blank t) →
       taskStartTimes r !! id t' = Some (Fin 0%Qc)) ∧
    sane (totalDuration r).
Proof.
  intros Hnd _ Hrun r Hr.
  destruct (runSimulation_runs _ _ _ _ _ _ r Hrun Hr)
    as (sorted & i & k & Hsort & ->).
  cbn [taskDurations taskStartTimes totalDuration].
  set (durations := (sampleDurations sqrtQ rand (tasks project) k).1).
  pose proof (topologicalSort_Permutation _ _ Hnd Hsort) as Hperm.
  assert (∀ t, t ∈ tasks project → blank t → durations !! id t = Some NaN) as Hblank.
  { intros t Ht Hb. apply list_elem_of_lookup in Ht as [j Hj].
    unfold durations, sampleDurations.
    rewrite (foldl_sampleTask_lookup _ _ _ _ j t Hnd Hj).
    by rewrite sampleTriangular_NaN. }
  split; [done|]. split; [|apply forwardPass_sane].
  intros t' Ht' Hdeps.
  assert (t' ∈ sorted) as Hin by (by rewrite Hperm).
  apply list_elem_of_lookup in Hin as [j Hj].
  assert (NoDup (id <$> sorted)) as Hnd' by (by rewrite Hperm).
  destruct (forwardPass_at durations sorted j t' Hnd' Hj) as (-> & _ & Hdom).
  apply scheduleTask_start_0. intros d Hd.
  destruct (Hdeps d Hd) as [[Hun Hplain]|(t & Ht & <- & Hb)].
  - apply get_missing; [|done]. apply eq_None_not_Some. intros Hsome.
    apply Hun. rewrite <- Hperm. apply Hdom in Hsome.
    apply list_elem_of_fmap in Hsome as (x & -> & Hx).
    apply list_elem_of_fmap. exists x. split; [done|].
    apply list_elem_of_lookup in Hx as [j' Hj'].
    apply lookup_take_Some in Hj' as [Hj' _].
    by eapply list_elem_of_lookup_2.
  - destruct (sorted_before _ _ t' t Hnd Hsort Ht' Ht Hd) as (i' & j' & Hi' & Hj' & Hlt).
    assert (i' = j) as ->.
    { apply (NoDup_lookup (id <$> sorted) i' j (id t')); [done|..];
        by rewrite list_lookup_fmap, ?Hi', ?Hj. }
    rewrite (get_own _ _ NaN); [done|].
    apply foldl_scheduleTask_blank; [by apply Hblank|]. left.
    apply list_elem_of_fmap. exists t. split; [done|].
    apply (list_elem_of_lookup_2 _ j'). by apply lookup_take_Some.
Qed.

Lemma blank_estimate_is_ignored_witness :
  Forall (λ r,
    (∀ t, t ∈ tasks blankProject → blank t → taskDurations r !! id t = Some NaN) ∧
    (∀ t', t' ∈ tasks blankProject →
       (∀ d, d ∈ dependencies t' →
          ((d ∉ id <$> tasks blankProject) ∧ inherited d = false) ∨
          ∃ t, t ∈ tasks blankProject ∧ id t = d ∧ blank t) →
       taskStartTimes r !! id t' = Some (Fin 0%Qc)) ∧
    sane (totalDuration r)) blankRuns.
Proof.
  apply Forall_forall.
  apply (blank_estimate_is_ignored sqrt_floor sevenths blankProject 2 blankRuns
           (computeStats sqrt_floor (tasks blankProject) blankRuns)).
  - compute_done.
  - by repeat constructor.
  - by vm_compute.
Defined.

(** * The resource tracker *)

Section extremes.
Local Open Scope Qc_scope.
Implicit Types cur pk mn q : Qc.
Implicit Types ds a b c : list Qc.

Lemma Qcmax_le_l x y : x ≤ Qcmax x y.
Proof. unfold Qcmax. case_decide; [by apply Qclt_le_weak|apply Qcle_refl]. Qed.

Lemma Qcmax_le_r x y : y ≤ Qcmax x y.
Proof. unfold Qcmax. case_decide; [apply Qcle_refl|by apply Qcnot_lt_le]. Qed.

Lemma Qcmax_lub x y z : x ≤ z → y ≤ z → Qcmax x y ≤ z.
Proof. unfold Qcmax. by case_decide. Qed.

Lemma Qcmin_le_l x y : Qcmin x y ≤ x.
Proof. unfold Qcmin. case_decide; [by apply Qclt_le_weak|apply Qcle_refl]. Qed.

Lemma Qcmin_le_r x y : Qcmin x y ≤ y.
Proof. unfold Qcmin. case_decide; [apply Qcle_refl|by apply Qcnot_lt_le]. Qed.

Lemma Qcmin_glb x y z : z ≤ x → z ≤ y → z ≤ Qcmin x y.
Proof. unfold Qcmin. by case_decide. Qed.

Lemma crest_mono cur cur' pk pk' ds :
  cur ≤ cur' → pk ≤ pk' → crest cur pk ds ≤ crest cur' pk' ds.
Proof.
  revert cur cur' pk pk'.
  induction ds as [|d ds IH]; intros cur cur' pk pk' Hc Hp; [done|].
  cbn [crest]. apply IH.
  - by apply Qcplus_le_compat; [|apply Qcle_refl].
  - apply Qcmax_lub.
    + eapply Qcle_trans; [done|apply Qcmax_le_l].
    + eapply Qcle_trans; [|apply Qcmax_le_r].
      by apply Qcplus_le_compat; [|apply Qcle_refl].
Qed.

Lemma crest_ge pk cur ds : pk ≤ crest cur pk ds.
Proof.
  revert cur pk. induction ds as [|d ds IH]; intros cur pk; [apply Qcle_refl|].
  cbn [crest]. eapply Qcle_trans; [apply Qcmax_le_l|apply IH].
Qed.

Lemma Qcmax_shift x y q : Qcmax (x + q) (y + q) = Qcmax x y + q.
Proof.
  unfold Qcmax. destruct (decide (x < y)) as [H|H].
  - rewrite decide_True; [done|]. qc2q. lra.
  - rewrite decide_False; [done|]. intros H'. apply H. qc2q. lra.
Qed.

Lemma crest_shift cur pk q ds : crest (cur + q) (pk + q) ds = crest cur pk ds + q.
Proof.
  revert cur pk. induction ds as [|d ds IH]; intros cur pk; [done|].
  cbn [crest]. rewrite <- IH. f_equal; [ring|].
  rewrite <- Qcmax_shift. f_equal. ring.
Qed.

Lemma crest_app cur pk a b :
  crest cur pk (a ++ b) = crest (cur + sumQc a) (crest cur pk a) b.
Proof.
  revert cur pk. induction a as [|d a IH]; intros cur pk.
  - cbn. f_equal. ring.
  - cbn [app crest sumQc foldr]. fold (sumQc a). rewrite IH. f_equal. ring.
Qed.

(** The running total ends no higher than the crest. *)
Lemma crest_total cur pk ds : cur ≤ pk → cur + sumQc ds ≤ crest cur pk ds.
Proof.
  revert cur pk. induction ds as [|d ds IH]; intros cur pk Hle.
  - cbn. by rewrite Qcplus_0_r.
  - cbn [crest sumQc foldr]. fold (sumQc ds). rewrite Qcplus_assoc.
    apply IH, Qcmax_le_r.
Qed.

Lemma trough_mono cur cur' mn mn' ds :
  cur ≤ cur' → mn ≤ mn' → trough cur mn ds ≤ trough cur' mn' ds.
Proof.
  revert cur cur' mn mn'.
  induction ds as [|d ds IH]; intros cur cur' mn mn' Hc Hp; [done|].
  cbn [trough]. apply IH.
  - by apply Qcplus_le_compat; [|apply Qcle_refl].
  - apply Qcmin_glb.
    + eapply Qcle_trans; [apply Qcmin_le_l|done].
    + eapply Qcle_trans; [apply Qcmin_le_r|].
      by apply Qcplus_le_compat; [|apply Qcle_refl].
Qed.

Lemma trough_le mn cur ds : trough cur mn ds ≤ mn.
Proof.
  revert cur mn. induction ds as [|d ds IH]; intros cur mn; [apply Qcle_refl|].
  cbn [trough]. eapply Qcle_trans; [apply IH|apply Qcmin_le_l].
Qed.

Lemma trough_app cur mn a b :
  trough cur mn (a ++ b) = trough (cur + sumQc a) (trough cur mn a) b.
Proof.
  revert cur mn. induction a as [|d a IH]; intros cur mn.
  - cbn. f_equal. ring.
  - cbn [app trough sumQc foldr]. fold (sumQc a). rewrite IH. f_equal. ring.
Qed.

Lemma trough_total cur mn ds : mn ≤ cur → trough cur mn ds ≤ cur + sumQc ds.
Proof.
  revert cur mn. induction ds as [|d ds IH]; intros cur mn Hle.
  - cbn. by rewrite Qcplus_0_r.
  - cbn [trough sumQc foldr]. fold (sumQc ds). rewrite Qcplus_assoc.
    apply IH, Qcmin_le_r.
Qed.

(** A task that holds [q] units from one point of the sequence of changes
    to a later one. *)
Lemma hold_extremes q a b c :
  0 ≤ q → 0 ≤ trough 0 0 (a ++ b ++ c) →
  let old := a ++ b ++ c in
  let new := a ++ q :: b ++ (- q) :: c in
  0 ≤ trough 0 0 new ∧
  q ≤ crest 0 0 new ∧
  crest 0 0 old ≤ crest 0 0 new ∧
  crest 0 0 new ≤ crest 0 0 old + q.
Proof.
  intros Hq Hold old new. unfold old, new in *. clear old new.
  rewrite !trough_app, !crest_app in *. cbn [trough crest sumQc foldr] in *.
  fold (sumQc b) in *. rewrite !trough_app, !crest_app in *.
  cbn [trough crest sumQc foldr] in *.
  set (na := 0 + sumQc a) in *. set (pa := crest 0 0 a) in *.
  set (ma := trough 0 0 a) in *.
  assert (ma ≤ na) as Hma by (apply trough_total; apply Qcle_refl).
  assert (na ≤ pa) as Hpa by (apply crest_total; apply Qcle_refl).
  assert (0 ≤ na) as Hna.
  { eapply Qcle_trans; [apply Hold|]. eapply Qcle_trans; [apply trough_le|].
    eapply Qcle_trans; [apply trough_le|done]. }
  assert (na + q + sumQc b + - q = na + sumQc b) as -> by ring.
  assert (trough na ma b ≤ na + sumQc b) as Hmb by (by apply trough_total).
  assert (na + sumQc b ≤ crest na pa b) as Hpb by (by apply crest_total).
  repeat split.
  - eapply Qcle_trans; [apply Hold|]. apply trough_mono; [apply Qcle_refl|].
    apply Qcmin_glb; [|done].
    apply trough_mono; [qc2q; lra|]. apply Qcmin_glb; [apply Qcle_refl|].
    qc2q. lra.
  - eapply Qcle_trans; [|apply crest_ge]. eapply Qcle_trans; [|apply Qcmax_le_l].
    eapply Qcle_trans; [|apply crest_ge]. eapply Qcle_trans; [|apply Qcmax_le_r].
    qc2q. lra.
  - apply crest_mono; [apply Qcle_refl|].
    eapply Qcle_trans; [|apply Qcmax_le_l].
    apply crest_mono; [qc2q; lra|apply Qcmax_le_l].
  - rewrite <- crest_shift. apply crest_mono; [qc2q; lra|].
    apply Qcmax_lub; [|qc2q; lra].
    rewrite <- crest_shift. apply crest_mono; [apply Qcle_refl|].
    apply Qcmax_lub; qc2q; lra.
Qed.
End extremes.

Section insertion.
Local Open Scope Qc_scope.
Context {A : Type} (cmp : A → A → num).

(** [sort_insert] puts the element somewhere into the list. *)
Lemma sort_insert_split x l :
  ∃ l1 l2, l = l1 ++ l2 ∧ sort_insert cmp x l = l1 ++ x :: l2.
Proof.
  induction l as [|y l (l1 & l2 & -> & IH)]; [by exists [], []|].
  cbn [sort_insert]. destruct (ngtb (cmp x y) (Fin 0)).
  - exists (y :: l1), l2. by rewrite IH.
  - by exists [], (y :: l1 ++ l2).
Qed.

(** An element that the comparator does not place after [y] stops before
    [y]. *)
Lemma sort_insert_before x y l1 l2 :
  ngtb (cmp x y) (Fin 0) = false →
  ∃ a b, l1 = a ++ b ∧ sort_insert cmp x (l1 ++ y :: l2) = a ++ x :: b ++ y :: l2.
Proof.
  intros Hxy. induction l1 as [|z l1 (a & b & -> & IH)].
  - exists [], []. cbn [app sort_insert]. by rewrite Hxy.
  - cbn [app sort_insert]. destruct (ngtb (cmp x z) (Fin 0)).
    + exists (z :: a), b. by rewrite IH.
    + exists [], (z :: a ++ b). done.
Qed.

(** Two elements sorted in, the first not after the second: the stable
    sort keeps them in this order. *)
Lemma js_sort_pair x y l :
  ngtb (cmp x y) (Fin 0) = false →
  ∃ a b c, js_sort cmp l = a ++ b ++ c ∧
    js_sort cmp (x :: y :: l) = a ++ x :: b ++ y :: c.
Proof.
  intros Hxy. unfold js_sort. cbn [foldr]. fold (js_sort cmp l).
  destruct (sort_insert_split y (js_sort cmp l)) as (l1 & l2 & -> & ->).
  destruct (sort_insert_before x y l1 l2 Hxy) as (a & b & -> & ->).
  exists a, b, l2. by rewrite <- app_assoc.
Qed.
End insertion.

Section tracker.
Local Open Scope Qc_scope.

Lemma declaredResource_events sch t ty c :
  declaredResource t = Some (ty, c) →
  taskEvents sch t
  = [ {| time := startTimes sch !! id t; type := ty; change := c |};
      {| time := finishTimes sch !! id t; type := ty; change := nneg c |} ].
Proof. intros H. unfold taskEvents. by rewrite H. Qed.

Lemma demand_declared t ty ty0 (q : Qc) :
  declaredResource t = Some (ty0, Fin q) →
  demand ty t = if decide (ty0 = ty) then q else 0.
Proof. intros H. unfold demand. by rewrite H. Qed.

(** The extremes of the usage of [ty] over the sorted events of tasks
    that end no earlier than they start. *)
Lemma sorted_events_extremes sch ty ts :
  Forall counted ts →
  (∀ t ty' c, t ∈ ts → declaredResource t = Some (ty', c) →
     ∃ s f, startTimes sch !! id t = Some (Fin s) ∧
       finishTimes sch !! id t = Some (Fin f) ∧ s ≤ f) →
  let ds := delta ty <$> js_sort byTime (resourceEvents sch ts) in
  0 ≤ trough 0 0 ds ∧
  (∀ t, t ∈ ts → demand ty t ≤ crest 0 0 ds) ∧
  crest 0 0 ds ≤ sumQc (demand ty <$> ts).
Proof.
  intros Hc Htimes. induction ts as [|t ts IH].
  { cbn. repeat split; try done. intros t Ht. by apply elem_of_nil in Ht. }
  apply Forall_cons in Hc as [Hct Hc].
  destruct IH as (IH0 & IHlo & IHhi); [done|intros ????; apply Htimes; by right|].
  unfold resourceEvents. cbn [flat_map]. fold (resourceEvents sch ts).
  destruct (declaredResource t) as [[ty0 c]|] eqn:Hd.
  - destruct (Hct ty0 c Hd) as (q & -> & Hq).
    destruct (Htimes t ty0 (Fin q) ltac:(left) Hd) as (s & f & Hs & Hf & Hsf).
    rewrite (declaredResource_events _ _ _ _ Hd), Hs, Hf. cbn [app nneg].
    destruct (js_sort_pair byTime
      {| time := Some (Fin s); type := ty0; change := Fin q |}
      {| time := Some (Fin f); type := ty0; change := Fin (- q) |}
      (resourceEvents sch ts)) as (a & b & c & Eold & ->).
    { unfold byTime. cbn [time toNumber]. rewrite nsub_Fin, ngtb_Fin.
      apply bool_decide_eq_false. intros Hlt. qc2q. lra. }
    cbv zeta in IH0, IHlo, IHhi. rewrite Eold in IH0, IHlo, IHhi.
    rewrite !fmap_app in IH0, IHlo, IHhi.
    cbv zeta. rewrite fmap_app, fmap_cons, fmap_app, fmap_cons.
    assert (delta ty {| time := Some (Fin s); type := ty0; change := Fin q |}
            = if decide (ty0 = ty) then q else 0) as -> by done.
    assert (delta ty {| time := Some (Fin f); type := ty0; change := Fin (- q) |}
            = - (if decide (ty0 = ty) then q else 0)) as ->.
    { unfold delta. cbn [type change finiteOf]. by case_decide. }
    set (q' := if decide (ty0 = ty) then q else 0).
    assert (0 ≤ q') as Hq' by (unfold q'; case_decide; [by apply Qclt_le_weak|done]).
    destruct (hold_extremes q' _ _ _ Hq' IH0) as (H0 & Hq1 & Hlo & Hhi).
    cbv zeta in H0, Hq1, Hlo, Hhi.
    split; [done|]. split.
    + intros t' Ht'. apply elem_of_cons in Ht' as [->|Ht'].
      * by rewrite (demand_declared _ ty _ _ Hd).
      * eapply Qcle_trans; [by apply IHlo|done].
    + cbn [fmap list_fmap sumQc foldr]. fold (sumQc (demand ty <$> ts)).
      rewrite (demand_declared _ ty _ _ Hd). fold q'.
      eapply Qcle_trans; [done|]. rewrite (Qcplus_comm q').
      by apply Qcplus_le_compat; [|apply Qcle_refl].
  - unfold taskEvents. rewrite Hd. cbn [app]. split; [done|]. split.
    + intros t' Ht'. apply elem_of_cons in Ht' as [->|Ht']; [|by apply IHlo].
      unfold demand. rewrite Hd. apply crest_ge.
    + cbn [fmap list_fmap sumQc foldr]. unfold demand at 1. rewrite Hd.
      by rewrite Qcplus_0_l.
Qed.

(** What the records [currentUsage] and [peakResources] hold for a type:
    nothing before its first event, then the running total and its
    crest. *)
Lemma foldl_applyEvent_crest ty l us (cur pk : Qc) :
  inherited ty = false →
  Forall (λ e, finite (change e)) l →
  cur ≤ pk →
  (currentUsage us !! ty = None ∧ peaks us !! ty = None ∧ cur = 0 ∧ pk = 0) ∨
  (currentUsage us !! ty = Some (Number (Fin cur)) ∧
   peaks us !! ty = Some (Fin pk)) →
  let us' := foldl applyEvent us l in
  let ds := delta ty <$> l in
  (currentUsage us !! ty = None ∧ Forall (λ e, type e ≠ ty) l ∧
   currentUsage us' !! ty = None ∧ peaks us' !! ty = None) ∨
  (currentUsage us' !! ty = Some (Number (Fin (cur + sumQc ds))) ∧
   peaks us' !! ty = Some (Fin (crest cur pk ds))).
Proof.
  intros Hplain Hfin. revert us cur pk.
  induction Hfin as [|e l [q Hq] _ IH]; intros us cur pk Hle HR.
  { cbn. destruct HR as [(? & ? & _)|[? ?]]; [by left|right].
    by rewrite Qcplus_0_r. }
  cbn [foldl fmap list_fmap crest sumQc foldr]. fold (sumQc (delta ty <$> l)).
  destruct (decide (type e = ty)) as [E|E].
  - assert (delta ty e = q) as -> by (unfold delta; by rewrite decide_True, Hq).
    destruct (IH (applyEvent us e) (cur + q) (Qcmax pk (cur + q))) as [(H1 & _)|[H1 H2]].
    + apply Qcmax_le_r.
    + right. unfold applyEvent. cbn [currentUsage peaks]. rewrite E, !lookup_insert_eq, Hq.
      unfold getValue, get, prototypeLookup.
      destruct HR as [(-> & -> & -> & ->)|[-> ->]]; rewrite ?Hplain, ?orZero_Fin;
        cbn [orZero add numberOf nadd]; by rewrite nmax_Fin.
    + exfalso. unfold applyEvent in H1. cbn [currentUsage] in H1.
      by rewrite E, lookup_insert_eq in H1.
    + right. by rewrite Qcplus_assoc.
  - assert (delta ty e = 0) as -> by (unfold delta; by rewrite decide_False).
    assert (Qcmax pk (cur + 0) = pk) as ->.
    { unfold Qcmax. rewrite Qcplus_0_r. apply decide_False. by apply Qcle_not_lt. }
    rewrite Qcplus_0_r.
    assert (currentUsage (applyEvent us e) !! ty = currentUsage us !! ty ∧
            peaks (applyEvent us e) !! ty = peaks us !! ty) as [E1 E2].
    { unfold applyEvent. cbn [currentUsage peaks]. by rewrite !lookup_insert_ne. }
    destruct (IH (applyEvent us e) cur pk) as [(H1 & H2 & H3 & H4)|[H1 H2]].
    + done.
    + by rewrite E1, E2.
    + left. rewrite <- E1. repeat split; [done| |done..]. by constructor.
    + right. by rewrite Qcplus_0_l.
Qed.
End tracker.

Section peaks.
Local Open Scope Qc_scope.

Lemma resourceEvents_finite sch ts :
  Forall counted ts → Forall (λ e, finite (change e)) (resourceEvents sch ts).
Proof.
  induction 1 as [|t ts Ht _ IH]; [done|].
  unfold resourceEvents. cbn [flat_map]. apply Forall_app. split; [|done].
  unfold taskEvents. destruct (declaredResource t) as [[ty c]|] eqn:Hd; [|done].
  destruct (Ht ty c Hd) as (q & -> & _).
  repeat constructor; cbn [change nneg]; by eexists.
Qed.

Lemma resourceEvents_declared sch ts t ty c :
  t ∈ ts → declaredResource t = Some (ty, c) →
  Exists (λ e, type e = ty) (resourceEvents sch ts).
Proof.
  intros Ht Hd. induction ts as [|t' ts IH]; [by apply elem_of_nil in Ht|].
  unfold resourceEvents. cbn [flat_map]. apply Exists_app.
  apply elem_of_cons in Ht as [<-|Ht]; [left|right; by apply IH].
  rewrite (declaredResource_events _ _ _ _ Hd). by left.
Qed.

(** The peak [resourcePeaks] records for a type that a task declares. *)
Lemma resourcePeaks_crest sch ts ty :
  inherited ty = false →
  Forall counted ts →
  (∃ t c, t ∈ ts ∧ declaredResource t = Some (ty, c)) →
  resourcePeaks sch ts !! ty
  = Some (Fin (crest 0 0 (delta ty <$> js_sort byTime (resourceEvents sch ts)))).
Proof.
  intros Hplain Hc (t & c & Ht & Hd). unfold resourcePeaks.
  destruct (foldl_applyEvent_crest ty (js_sort byTime (resourceEvents sch ts))
              usageInit 0 0) as [(_ & Hnone & _)|[_ H]].
  - done.
  - by apply js_sort_Forall, resourceEvents_finite.
  - done.
  - left. by cbn.
  - exfalso. pose proof (resourceEvents_declared sch ts t ty c Ht Hd) as Hex.
    apply Exists_exists in Hex as (e & He & Hty).
    rewrite Forall_forall in Hnone. apply (Hnone e); [|done].
    by rewrite js_sort_Permutation.
  - done.
Qed.
End peaks.

Lemma whole_counted (t : Task) : whole t → counted t.
Proof.
  intros Hw ty c Hd. destruct (Hw ty c Hd) as (z & -> & Hz).
  eexists. split; [done|]. unfold Qclt. cbn [this Q2Qc].
  rewrite (Qred_correct (inject_Z z)). change (Qred 0) with (inject_Z 0).
  by rewrite <- Zlt_Qlt.
Qed.

(** X13. The peak a run records for a resource type lies between the
    count of every single task of that type and the sum of the counts of
    all tasks of that type.  This holds in a run whose sampled durations
    are finite, not negative and moderate, of a project with unique
    identifiers and plain names, for counts that are whole and positive and
    add up to [2 ^ 53] at most, and a type that names no property that every
    object inherits.  The order of
    the tasks and the events that share an instant move the peak within
    these bounds only. *)
Theorem peak_within_demand (sqrtQ : Qc → Qc) (rand : nat → Qc)
    (project : ProjectData) (n : nat) (results : list SimulationResult)
    (stats : SimulationStats) :
  NoDup (id <$> tasks project) → plainNames (tasks project) →
  Forall whole (tasks project) →
  runSimulation sqrtQ rand project n = Ok (results, stats) →
  ∀ r ty, r ∈ results → moderate (taskDurations r) (tasks project) →
    inherited ty = false →
    (∃ t c, t ∈ tasks project ∧ declaredResource t = Some (ty, c)) →
    (sumQc (demand ty <$> tasks project) ≤ exactBound)%Qc →
    ∃ p : Qc,
      peakResources r !! ty = Some (Fin p) ∧
      (∀ t, t ∈ tasks project → (demand ty t ≤ p)%Qc) ∧
      (p ≤ sumQc (demand ty <$> tasks project))%Qc.
Proof.
  intros Hnd Hplain Hwhole Hrun r ty Hr Hmod Hty Hdecl _.
  assert (Forall counted (tasks project)) as Hcount.
  { eapply Forall_impl; [exact Hwhole|]. apply whole_counted. }
  destruct (runSimulation_runs _ _ _ _ _ _ r Hrun Hr)
    as (sorted & i & k & Hsort & ->).
  cbn [peakResources taskDurations] in *.
  destruct (run_passBounds _ _ _ Hnd Hplain Hsort Hmod) as [Hperm Hpb].
  rewrite (resourcePeaks_crest _ _ _ Hty Hcount Hdecl).
  eexists. split; [done|].
  apply sorted_events_extremes; [done|].
  intros t ty' c Ht _.
  unfold moderate in Hmod. rewrite Forall_forall in Hmod.
  destruct (Hmod t Ht) as (d0 & Hd0 & Hd0pos & _).
  destruct (pb_task _ _ _ Hpb t) as (s & d & Hd & Hs & Hf & _);
    [by rewrite Hperm|].
  exists s, (s + d)%Qc. repeat split; [done..|].
  assert (d = d0) as -> by congruence. qc2q. lra.
Qed.

Lemma planTasks_whole : Forall whole planTasks.
Proof.
  repeat constructor; intros ty c [= <- <-]; eexists; split; done.
Qed.

Lemma peak_within_demand_witness :
  Forall (λ r,
    ∃ p : Qc,
      peakResources r !! "dev" = Some (Fin p) ∧
      (∀ t, t ∈ tasks planProject → (demand "dev" t ≤ p)%Qc) ∧
      (p ≤ sumQc (demand "dev" <$> tasks planProject))%Qc) planRuns.
Proof.
  apply Forall_forall. intros r Hr.
  apply (peak_within_demand sqrt_floor sevenths planProject 5 planRuns planStats).
  - exact planTasks_NoDup.
  - exact planTasks_plain.
  - exact planTasks_whole.
  - exact planProject_runs.
  - exact Hr.
  - pose proof planRuns_moderate as Hmod. rewrite Forall_forall in Hmod.
    by apply Hmod.
  - done.
  - exists (planTask "docs" 1 2 3 ["design"] "dev" 1), (ofZ 1).
    split; [|done]. apply (list_elem_of_lookup_2 _ 3). reflexivity.
  - by vm_compute.
Defined.

(** The peaks of the five runs of the plan for ["dev"]: between the two
    units of the build and the four units of all its tasks. *)
Example plan_peaks :
  (λ r, peakResources r !! "dev") <$> planRuns
  = [Some (ofZ 3); Some (ofZ 3); Some (ofZ 3); Some (ofZ 3); Some (ofZ 3)].
Proof. apply (bool_decide_unpack _). by vm_compute. Qed.

(** * The dashboard: the run the schedule shows *)

Section representative.
Local Open Scope Qc_scope.

Lemma sort_insert_fmap {A B : Type} (f : A → B) (cmp : B → B → num) x l :
  f <$> sort_insert (λ a b, cmp (f a) (f b)) x l
  = sort_insert cmp (f x) (f <$> l).
Proof.
  induction l as [|y l IH]; [done|]. cbn [sort_insert fmap list_fmap].
  destruct (ngtb (cmp (f x) (f y)) (Fin 0)); [|done].
  cbn [fmap list_fmap]. f_equal. apply IH.
Qed.

(** Sorting by a key and reading the keys is sorting the keys. *)
Lemma js_sort_fmap {A B : Type} (f : A → B) (cmp : B → B → num) l :
  f <$> js_sort (λ a b, cmp (f a) (f b)) l = js_sort cmp (f <$> l).
Proof.
  induction l as [|x l IH]; [done|]. unfold js_sort. cbn [foldr fmap list_fmap].
  rewrite sort_insert_fmap. f_equal. apply IH.
Qed.

Lemma js_index_fmap {A B : Type} (f : A → B) (l : list A) (i : num) :
  js_index (f <$> l) i = f <$> js_index l i.
Proof.
  destruct i as [x| | |]; cbn [js_index]; [|done..].
  case_decide; [|done]. by rewrite list_lookup_fmap.
Qed.

Lemma js_index_elem_of {A : Type} (l : list A) (i : num) a :
  js_index l i = Some a → a ∈ l.
Proof.
  destruct i as [x| | |]; cbn [js_index]; [|done..].
  case_decide; [|done]. apply list_elem_of_lookup_2.
Qed.

Lemma sorted_totals (results : list SimulationResult) :
  totalDuration <$> js_sort byTotalDuration results
  = js_sort ascending (totalDuration <$> results).
Proof. apply (js_sort_fmap totalDuration ascending). Qed.

(** The duration of the representative run, read from the sorted
    durations of the statistics. *)
Lemma representativeRun_total results ty :
  totalDuration <$> representativeRun results ty
  = getPercentile (js_sort ascending (totalDuration <$> results))
      match ty with
      | optimisticRun => p_05
      | medianRun => one_half
      | pessimisticRun => p_95
      end.
Proof.
  unfold representativeRun, getPercentile.
  rewrite <- sorted_totals, length_fmap.
  destruct ty; by rewrite js_index_fmap.
Qed.
End representative.

(** X14. The run the schedule shows agrees with the
    statistics.  The median run has the total duration reported as median
    and the pessimistic run the one reported as 95th percentile; the run is
    one of the results, and there is one unless there are no results; for
    finite totals the optimistic run is no longer than the median run,
    which is no longer than the pessimistic run. *)
Theorem representative_run_matches_statistics (sqrtQ : Qc → Qc)
    (ts : list Task) (results : list SimulationResult) :
  let stats := computeStats sqrtQ ts results in
  totalDuration <$> representativeRun results medianRun = median stats ∧
  totalDuration <$> representativeRun results pessimisticRun = p95 stats ∧
  (∀ ty run, representativeRun results ty = Some run → run ∈ results) ∧
  (∀ ty, is_Some (representativeRun results ty) ↔ results ≠ []) ∧
  (Forall finite (totalDuration <$> results) →
   ∀ o m p,
     representativeRun results optimisticRun = Some o →
     representativeRun results medianRun = Some m →
     representativeRun results pessimisticRun = Some p →
     nle (totalDuration o) (totalDuration m) ∧
     nle (totalDuration m) (totalDuration p)).
Proof.
  intros stats. split; [|split; [|split; [|split]]].
  - rewrite representativeRun_total. unfold stats, computeStats. cbn [median].
    by rewrite medianOf_half.
  - by rewrite representativeRun_total.
  - intros ty run Hrun. unfold representativeRun in Hrun.
    assert (run ∈ js_sort byTotalDuration results) as Hin
      by (destruct ty; by eapply js_index_elem_of).
    by rewrite js_sort_Permutation in Hin.
  - intros ty.
    assert (is_Some (representativeRun results ty)
            ↔ is_Some (totalDuration <$> representativeRun results ty)) as ->.
    { by rewrite fmap_is_Some. }
    rewrite representativeRun_total. split.
    + intros [v Hv] ->. by destruct ty.
    + intros Hne.
      assert (js_sort ascending (totalDuration <$> results) ≠ []) as Hne'.
      { intros E. apply (f_equal length) in E.
        rewrite js_sort_length, length_fmap in E. by destruct results. }
      destruct ty; by apply getPercentile_is_Some.
  - intros Hfin o m p Ho Hm Hp.
    assert (results ≠ []) as Hne by (intros ->; by cbn in Ho).
    assert (totalDuration <$> results ≠ []) as Hne' by (by destruct results).
    apply (f_equal (fmap totalDuration)) in Ho, Hm, Hp.
    rewrite representativeRun_total in Ho, Hm, Hp. cbn [fmap option_fmap option_map] in *.
    split.
    + destruct (getPercentile_mono (totalDuration <$> results)
                 (Q2Qc (5 # 100)) (Q2Qc (1 # 2)) Hne' Hfin)
        as (x & y & Hx & Hy & Hxy); [done..|].
      unfold p_05, one_half in *. rewrite Hx in Ho. rewrite Hy in Hm.
      injection Ho as <-. injection Hm as <-. by exists x, y.
    + destruct (getPercentile_mono (totalDuration <$> results)
                 (Q2Qc (1 # 2)) (Q2Qc (95 # 100)) Hne' Hfin)
        as (x & y & Hx & Hy & Hxy); [done..|].
      unfold p_95, one_half in *. rewrite Hx in Hm. rewrite Hy in Hp.
      injection Hm as <-. injection Hp as <-. by exists x, y.
Qed.

(** * The dashboard: the schedule *)

Section gantt.
Local Open Scope Qc_scope.

Lemma ganttData_Permutation project run :
  ganttData project (Some run) ≡ₚ ganttRowOf run <$> tasks project.
Proof. apply js_sort_Permutation. Qed.

Lemma ganttData_starts project run :
  (λ a, toNumber (row_start a)) <$> ganttData project (Some run)
  = js_sort ascending
      ((λ t, toNumber (taskStartTimes run !! id t)) <$> tasks project).
Proof.
  unfold ganttData.
  rewrite (js_sort_fmap (λ a, toNumber (row_start a)) ascending).
  by rewrite <- list_fmap_compose.
Qed.

Lemma Qc_div_nonneg (v m : Qc) : 0 ≤ v → 0 < m → 0 ≤ v / m.
Proof.
  intros Hv Hm.
  assert (v / m * m = v) as E.
  { field. intros ->. by apply Qclt_not_eq in Hm. }
  apply Qc_eq_Qeq in E. unfold Qcle, Qclt in *. rewrite this_mult in E.
  change (this 0) with 0%Q in *.
  apply (Qmult_le_r _ _ _ Hm). by rewrite E, Qmult_0_l.
Qed.

Lemma Qc_div_mul_le (s T : Qc) : 0 ≤ s → s ≤ T → 0 < T → 
  0 ≤ s / T * Q2Qc 100 ∧ s / T * Q2Qc 100 ≤ Q2Qc 100.
Proof.
  intros Hs HsT HT.
  assert (s / T * T = s) as E.
  { field. intros ->. by apply Qclt_not_eq in HT. }
  pose proof (Qc_div_nonneg s T Hs HT) as Hq.
  revert E Hq. generalize (s / T). intros x E Hq.
  assert (x ≤ 1) as Hx1.
  { apply Qc_eq_Qeq in E. unfold Qcle, Qclt in *. rewrite this_mult in E.
    change (this 0) with 0%Q in *. change (this 1) with 1%Q.
    apply (Qmult_le_r _ _ _ HT). by rewrite E, Qmult_1_l. }
  assert (this (Q2Qc 100) == 100)%Q as E100 by done.
  split; unfold Qcle in *; rewrite this_mult, E100;
    change (this 0) with 0%Q in *; change (this 1) with 1%Q in *; lra.
Qed.
End gantt.

(** X15. The schedule drawn for a representative run whose sampled
    durations are finite, not negative and moderate, of a project with
    unique identifiers and plain names.  It has one row per task, in the
    order of the start times; a row ends its duration after its start and
    no later than the total duration of the run; the row of a dependency
    that names a task ends no later than the row of the dependent task
    starts; and the bar of every row starts within the chart and is
    between 1 and 100 percent wide.  When the total duration is [0], the
    left edge and the width of every bar are [NaN]. *)
Theorem gantt_chart (sqrtQ : Qc → Qc) (rand : nat → Qc)
    (project : ProjectData) (n : nat) (results : list SimulationResult)
    (stats : SimulationStats) (ty : runType) (run : SimulationResult) :
  NoDup (id <$> tasks project) → plainNames (tasks project) →
  runSimulation sqrtQ rand project n = Ok (results, stats) →
  representativeRun results ty = Some run →
  moderate (taskDurations run) (tasks project) →
  let rows := ganttData project (Some run) in
  rows ≡ₚ ganttRowOf run <$> tasks project ∧
  StronglySorted nle ((λ a, toNumber (row_start a)) <$> rows) ∧
  (∀ a, a ∈ rows →
     ∃ s d T : Qc,
       row_start a = Some (Fin s) ∧ row_duration a = Some (Fin d) ∧
       row_end a = Fin (s + d)%Qc ∧ totalDuration run = Fin T ∧
       (0 ≤ s)%Qc ∧ (0 ≤ d)%Qc ∧ (s + d ≤ T)%Qc ∧
       (T ≠ 0%Qc →
        ∃ l w : Qc,
          leftPct run a = Fin l ∧ widthPct run a = Fin w ∧
          (0 ≤ l)%Qc ∧ (l ≤ Q2Qc 100)%Qc ∧
          (1 ≤ w)%Qc ∧ (w ≤ Q2Qc 100)%Qc) ∧
       (T = 0%Qc → leftPct run a = NaN ∧ widthPct run a = NaN)) ∧
  (∀ t t', t ∈ tasks project → t' ∈ tasks project →
     id t' ∈ dependencies t →
     nle (row_end (ganttRowOf run t'))
         (toNumber (row_start (ganttRowOf run t)))).
Proof.
  intros Hnd Hplain Hrun Hrep Hmod rows.
  assert (run ∈ results) as Hin.
  { unfold representativeRun in Hrep.
    assert (run ∈ js_sort byTotalDuration results) as Hin
      by (destruct ty; by eapply js_index_elem_of).
    by rewrite js_sort_Permutation in Hin. }
  pose proof (λ t, run_schedule sqrtQ rand project n results stats Hnd Hplain Hrun
                     run t Hin Hmod) as Hsched.
  destruct (run_total sqrtQ rand project n results stats Hnd Hplain Hrun
              run Hin Hmod) as (T & HT & HT0 & Hends & _).
  split; [apply ganttData_Permutation|]. split; [|split].
  - unfold rows. rewrite ganttData_starts. apply js_sort_Sorted.
    apply Forall_fmap, Forall_forall. intros t Ht. cbn.
    destruct (Hsched t Ht) as (s & d & -> & _). by exists s.
  - intros a Ha. unfold rows in Ha. rewrite ganttData_Permutation in Ha.
    apply list_elem_of_fmap in Ha as (t & -> & Ht).
    destruct (Hsched t Ht) as (s & d & Hs & Hd & Hs0 & Hd0 & _).
    destruct (Hends t Ht) as (s' & d' & Hs' & Hd' & Hle).
    assert (s' = s) as -> by congruence. assert (d' = d) as -> by congruence.
    exists s, d, T. unfold leftPct, widthPct, ganttRowOf.
    cbn [row_start row_duration row_end]. rewrite Hs, Hd, HT. cbn [toNumber nadd].
    split_and!; [done..| |].
    + intros HTne. assert (0 < T)%Qc as HTpos.
      { apply Qcle_lt_or_eq in HT0 as [?|E]; [done|]. by destruct HTne. }
      unfold ndiv, ofZ. rewrite !decide_False by done. cbn [nmul].
      rewrite nmax_Fin.
      destruct (Qc_div_mul_le s T) as [Hl Hl']; [done| |done|].
      { qc2q. lra. }
      destruct (Qc_div_mul_le d T) as [Hw Hw']; [done| |done|].
      { qc2q. lra. }
      eexists _, _. split; [done|]. split; [done|].
      split; [done|]. split; [done|]. case_decide as Hlt.
      * split; [done|]. by vm_compute.
      * split; [by apply Qcnot_lt_le|done].
    + intros ->. assert (s = 0%Qc) as ->.
      { apply Qcle_antisym; [|done]. qc2q. lra. }
      assert (d = 0%Qc) as ->.
      { apply Qcle_antisym; [|done]. qc2q. lra. }
      done.
  - intros t t' Ht Ht' Hdep.
    destruct (Hsched t Ht) as (s & d & Hs & Hd & _ & _ & _ & Hdeps).
    destruct (Hdeps t' Ht' Hdep) as (s' & d' & Hs' & Hd' & Hle).
    unfold ganttRowOf. cbn [row_start row_end]. rewrite Hs, Hs', Hd'.
    cbn [toNumber nadd]. by exists (s' + d')%Qc, s.
Qed.

Lemma planRuns_median :
  representativeRun planRuns medianRun = planRuns !! 3%nat.
Proof. by vm_compute. Qed.

Lemma gantt_chart_witness :
  ∃ run, planRuns !! 3%nat = Some run ∧
  let rows := ganttData planProject (Some run) in
  rows ≡ₚ ganttRowOf run <$> tasks planProject ∧
  StronglySorted nle ((λ a, toNumber (row_start a)) <$> rows) ∧
  (∀ a, a ∈ rows →
     ∃ s d T : Qc,
       row_start a = Some (Fin s) ∧ row_duration a = Some (Fin d) ∧
       row_end a = Fin (s + d)%Qc ∧ totalDuration run = Fin T ∧
       (0 ≤ s)%Qc ∧ (0 ≤ d)%Qc ∧ (s + d ≤ T)%Qc ∧
       (T ≠ 0%Qc →
        ∃ l w : Qc,
          leftPct run a = Fin l ∧ widthPct run a = Fin w ∧
          (0 ≤ l)%Qc ∧ (l ≤ Q2Qc 100)%Qc ∧
          (1 ≤ w)%Qc ∧ (w ≤ Q2Qc 100)%Qc) ∧
       (T = 0%Qc → leftPct run a = NaN ∧ widthPct run a = NaN)) ∧
  (∀ t t', t ∈ tasks planProject → t' ∈ tasks planProject →
     id t' ∈ dependencies t →
     nle (row_end (ganttRowOf run t'))
         (toNumber (row_start (ganttRowOf run t)))).
Proof.
  destruct (planRuns !! 3%nat) as [run|] eqn:E; [|by vm_compute in E].
  exists run. split; [done|].
  apply (gantt_chart sqrt_floor sevenths planProject 5 planRuns planStats medianRun).
  - exact planTasks_NoDup.
  - exact planTasks_plain.
  - exact planProject_runs.
  - by rewrite planRuns_median.
  - pose proof planRuns_moderate as Hmod. rewrite Forall_forall in Hmod.
    apply Hmod. by eapply list_elem_of_lookup_2.
Defined.

(** * The dashboard: the histogram *)

Section counts.
Local Open Scope Qc_scope.
Implicit Types counts : countRecord.
Implicit Types d v : num.

Lemma getCount_None counts d : getCount counts d = None ↔ d ∉ counts.*1.
Proof.
  unfold getCount. induction counts as [|[k w] counts IH]; cbn [List.find fst].
  - split; [intros _ H; by apply elem_of_nil in H|done].
  - rewrite fmap_cons, not_elem_of_cons. cbn [fst]. case_bool_decide as E.
    + split; [done|]. by intros [? _].
    + rewrite IH. split; [|by intros [_ ?]]. intros ?. split; [by intros ->|done].
Qed.

Lemma getCount_setCount counts d v : getCount (setCount counts d v) d = Some v.
Proof.
  unfold getCount. induction counts as [|[k w] counts IH]; cbn [setCount fst].
  - cbn [List.find fst]. by rewrite bool_decide_eq_true_2.
  - case_bool_decide as E; cbn [List.find fst].
    + by rewrite bool_decide_eq_true_2.
    + by rewrite bool_decide_eq_false_2.
Qed.

Lemma getCount_setCount_ne counts d d' v :
  d' ≠ d → getCount (setCount counts d v) d' = getCount counts d'.
Proof.
  intros Hne. unfold getCount.
  induction counts as [|[k w] counts IH]; cbn [setCount fst].
  - cbn [List.find fst]. by rewrite bool_decide_eq_false_2.
  - case_bool_decide as E; cbn [List.find fst].
    + subst k. by rewrite !bool_decide_eq_false_2.
    + case_bool_decide; [done|apply IH].
Qed.

Lemma setCount_keys counts d v :
  (setCount counts d v).*1
  = if decide (d ∈ counts.*1) then counts.*1 else counts.*1 ++ [d].
Proof.
  induction counts as [|[k w] counts IH]; cbn [setCount fst].
  - by rewrite decide_False by apply not_elem_of_nil.
  - case_bool_decide as E; cbn [fmap list_fmap fst].
    + subst k. by rewrite decide_True by left.
    + fold (fmap (M:=list) (@fst num num)). rewrite IH. case_decide as Hin.
      * by rewrite decide_True by (by right).
      * rewrite decide_False; [done|]. by intros [?|?]%elem_of_cons.
Qed.

Lemma setCount_NoDup counts d v :
  NoDup counts.*1 → NoDup (setCount counts d v).*1.
Proof.
  intros Hnd. rewrite setCount_keys. case_decide as Hin; [done|].
  apply NoDup_app. split; [done|]. split; [|apply NoDup_singleton].
  intros x Hx ->%list_elem_of_singleton. done.
Qed.

Lemma nadd_ofNat_1 (k : nat) : nadd (ofNat k) (Fin 1) = ofNat (S k).
Proof. unfold ofNat, ofZ. cbn [nadd]. by rewrite ofNat_S. Qed.

Lemma occurrences_snoc d results r :
  occurrences d (results ++ [r])
  = (occurrences d results
     + if decide (Math_round (totalDuration r) = d) then 1 else 0)%nat.
Proof.
  unfold occurrences. rewrite filter_app, length_app. f_equal.
  rewrite filter_cons, filter_nil. by case_decide.
Qed.

Lemma occurrences_pos d results :
  (0 < occurrences d results)%nat ↔
  ∃ r, r ∈ results ∧ Math_round (totalDuration r) = d.
Proof.
  unfold occurrences. split.
  - intros Hlen.
    destruct (filter _ results) as [|r l] eqn:E; [cbn in Hlen; lia|].
    assert (r ∈ filter (λ r, Math_round (totalDuration r) = d) results) as Hr
      by (rewrite E; left).
    apply list_elem_of_filter in Hr as [? ?]. by exists r.
  - intros (r & Hr & Hd).
    assert (r ∈ filter (λ r, Math_round (totalDuration r) = d) results) as Hin
      by (by apply list_elem_of_filter).
    destruct (filter _ results); [by apply elem_of_nil in Hin|cbn; lia].
Qed.

(** The object [durationCounts] after the loop: a key for every rounded
    total, with the number of runs that round to it. *)
Lemma countDuration_spec results :
  let counts := foldl countDuration [] results in
  NoDup counts.*1 ∧
  ∀ d, getCount counts d
       = if decide (occurrences d results = 0)%nat then None
         else Some (ofNat (occurrences d results)).
Proof.
  induction results as [|r results [IHnd IH]] using rev_ind.
  { split; [constructor|done]. }
  rewrite foldl_app. cbn [foldl]. unfold countDuration at 1 3.
  set (counts := foldl countDuration [] results) in *.
  set (d0 := Math_round (totalDuration r)).
  split; [by apply setCount_NoDup|]. intros d. rewrite occurrences_snoc.
  fold d0. destruct (decide (d0 = d)) as [<-|Hne].
  - rewrite getCount_setCount, IH. rewrite (decide_False (P := (_ + 1 = 0)%nat)) by lia.
    f_equal. case_decide as E.
    + rewrite E. done.
    + unfold ofNat at 1, ofZ at 1. rewrite or0_Fin. fold (ofZ (Z.of_nat (occurrences d0 results))).
      fold (ofNat (occurrences d0 results)). rewrite nadd_ofNat_1. f_equal. lia.
  - rewrite getCount_setCount_ne by done. rewrite IH, Nat.add_0_r. done.
Qed.

Lemma countDuration_keys results d :
  d ∈ (foldl countDuration [] results).*1 ↔
  ∃ r, r ∈ results ∧ Math_round (totalDuration r) = d.
Proof.
  destruct (countDuration_spec results) as [_ Hget].
  rewrite <- occurrences_pos. specialize (Hget d).
  destruct (decide (d ∈ (foldl countDuration [] results).*1)) as [Hin|Hin].
  - split; [intros _|done]. case_decide as E; [|lia].
    by apply getCount_None in Hget.
  - split; [done|]. intros Hpos. rewrite decide_False in Hget by lia.
    apply getCount_None in Hin. congruence.
Qed.

Lemma Object_keys_Permutation counts : Object_keys counts ≡ₚ counts.*1.
Proof.
  unfold Object_keys. rewrite js_sort_Permutation.
  induction (counts.*1) as [|d l IH]; [done|].
  rewrite !filter_cons. destruct (isArrayIndex d); cbn.
  - rewrite decide_True, decide_False by done. cbn. by rewrite IH.
  - rewrite decide_False, decide_True by done.
    rewrite <- Permutation_middle. by rewrite IH.
Qed.

Lemma Math_round_printable r :
  printable r → parseInt (Math_round (totalDuration r)) = Math_round (totalDuration r).
Proof.
  intros (z & -> & Hlt). unfold parseInt, ofZ.
  rewrite this_ofZ, Qfloor_Z. apply Z.ltb_lt in Hlt. by rewrite Hlt.
Qed.

Lemma Math_round_finite r : printable r → finite (Math_round (totalDuration r)).
Proof. intros (z & -> & _). by eexists. Qed.
End counts.

Section bars.
Local Open Scope Qc_scope.

Lemma sum_list_with_indicator_0 (ks : list num) (d0 : num) :
  d0 ∉ ks →
  sum_list_with (λ d, if decide (d0 = d) then 1 else 0)%nat ks = 0%nat.
Proof.
  induction ks as [|k ks IH]; intros Hk; [done|].
  cbn [sum_list_with]. apply not_elem_of_cons in Hk as [Hne Hk].
  rewrite decide_False by done. by rewrite IH.
Qed.

Lemma sum_list_with_indicator (ks : list num) (d0 : num) :
  NoDup ks → d0 ∈ ks →
  sum_list_with (λ d, if decide (d0 = d) then 1 else 0)%nat ks = 1%nat.
Proof.
  induction 1 as [|k ks Hk Hnd IH]; intros Hin; [by apply elem_of_nil in Hin|].
  cbn [sum_list_with]. destruct (decide (d0 = k)) as [->|Hne].
  - by rewrite sum_list_with_indicator_0.
  - apply elem_of_cons in Hin as [?|Hin]; [done|]. by rewrite IH.
Qed.

Lemma sum_list_with_plus {A : Type} (f g : A → nat) (l : list A) :
  sum_list_with (λ a, f a + g a)%nat l
  = (sum_list_with f l + sum_list_with g l)%nat.
Proof. induction l as [|a l IH]; [done|]. cbn [sum_list_with]. lia. Qed.

Lemma sum_list_with_ext {A : Type} (f g : A → nat) (l : list A) :
  (∀ a, f a = g a) → sum_list_with f l = sum_list_with g l.
Proof. intros E. induction l as [|a l IH]; [done|]. cbn [sum_list_with]. by rewrite E, IH. Qed.

Lemma sum_list_with_0 {A : Type} (l : list A) :
  sum_list_with (λ _, 0%nat) l = 0%nat.
Proof. by induction l. Qed.

(** The runs that round to one of the keys [ks] are counted once each. *)
Lemma occurrences_sum (ks : list num) results :
  NoDup ks →
  sum_list_with (λ d, occurrences d results) ks
  = length (filter (λ r, Math_round (totalDuration r) ∈ ks) results).
Proof.
  intros Hnd. induction results as [|r results IH].
  - apply sum_list_with_0.
  - rewrite (sum_list_with_ext _
      (λ d, (if decide (Math_round (totalDuration r) = d) then 1 else 0)
            + occurrences d results)%nat).
    + rewrite sum_list_with_plus, IH, filter_cons. case_decide as Hin.
      * by rewrite sum_list_with_indicator.
      * by rewrite sum_list_with_indicator_0.
    + intros d. unfold occurrences. rewrite filter_cons. by case_decide.
Qed.

Lemma filter_all {A : Type} (P : A → Prop) `{!∀ a, Decision (P a)} (l : list A) :
  (∀ a, a ∈ l → P a) → filter P l = l.
Proof.
  induction l as [|a l IH]; intros Hall; [done|].
  rewrite filter_cons, decide_True by (apply Hall; left).
  f_equal. apply IH. intros b Hb. apply Hall. by right.
Qed.

Lemma occurrences_total (ks : list num) results :
  NoDup ks → (∀ r, r ∈ results → Math_round (totalDuration r) ∈ ks) →
  sum_list_with (λ d, occurrences d results) ks = length results.
Proof. intros Hnd Hin. by rewrite occurrences_sum, filter_all. Qed.

Lemma sumOf_ofNat_from (a : nat) (ns : list nat) :
  foldl nadd (ofNat a) (ofNat <$> ns) = ofNat (a + sum_list ns).
Proof.
  revert a. induction ns as [|k ns IH]; intros a; cbn [fmap list_fmap foldl sum_list_with].
  - f_equal. lia.
  - assert (nadd (ofNat a) (ofNat k) = ofNat (a + k)) as ->.
    { unfold ofNat, ofZ. cbn [nadd]. f_equal. apply Qc_is_canon.
      rewrite this_plus, !this_ofZ, Nat2Z.inj_add, inject_Z_plus. reflexivity. }
    rewrite IH. unfold id. by rewrite Nat.add_assoc.
Qed.

Lemma sumOf_ofNat (ns : list nat) : sumOf (ofNat <$> ns) = ofNat (sum_list ns).
Proof. apply (sumOf_ofNat_from 0). Qed.

Lemma StronglySorted_strict (l : list num) :
  StronglySorted nle l → NoDup l → StronglySorted nlt l.
Proof.
  induction 1 as [|a l _ IH Hall]; intros Hnd; [constructor|].
  apply NoDup_cons in Hnd as [Ha Hnd]. constructor; [by apply IH|].
  rewrite Forall_forall in Hall |- *. intros b Hb.
  destruct (Hall b Hb) as (x & y & -> & -> & Hle).
  exists x, y. split; [done|]. split; [done|].
  apply Qcle_lt_or_eq in Hle as [?|E]; [done|]. subst y. done.
Qed.

(** The histogram of runs whose rounded totals are printed in full: a bar
    for every key, with the number of runs that round to it. *)
Lemma histogramData_printable results :
  Forall printable results →
  histogramData results
  = js_sort byDuration
      ((λ d, {| duration := d; count := Some (ofNat (occurrences d results)) |})
         <$> Object_keys (foldl countDuration [] results)).
Proof.
  intros Hp. unfold histogramData. f_equal. apply Forall_fmap_ext_1, Forall_forall.
  intros d Hd. rewrite Object_keys_Permutation in Hd.
  pose proof Hd as Hd'. apply countDuration_keys in Hd' as (r & Hr & <-).
  rewrite Forall_forall in Hp. rewrite (Math_round_printable r) by auto.
  f_equal. destruct (countDuration_spec results) as [_ ->].
  rewrite decide_False; [done|].
  assert (0 < occurrences (Math_round (totalDuration r)) results)%nat; [|lia].
  apply occurrences_pos. eauto.
Qed.

Lemma histogramData_durations results :
  Forall printable results →
  duration <$> histogramData results
  = js_sort ascending (Object_keys (foldl countDuration [] results)).
Proof.
  intros Hp. rewrite histogramData_printable by done.
  rewrite (js_sort_fmap duration ascending). f_equal.
  rewrite <- list_fmap_compose. apply list_fmap_id.
Qed.
End bars.

Section printing.
Local Open Scope Qc_scope.

(** A finite total duration that rounds to an integer below [10^21] is
    printed in full. *)
Lemma printable_Fin (r : SimulationResult) (T : Qc) :
  totalDuration r = Fin T →
  (Z.abs (Qfloor (T + Q2Qc (1 # 2))%Q) < 10 ^ 21)%Z → printable r.
Proof.
  intros HT Hlt. exists (Qfloor (T + Q2Qc (1 # 2))%Q). by rewrite HT.
Qed.
End printing.

Lemma histogram_structure (results : list SimulationResult) :
  Forall printable results →
  let h := histogramData results in
  StronglySorted nlt (duration <$> h) ∧
  (∀ b, b ∈ h →
     count b = Some (ofNat (occurrences (duration b) results)) ∧
     0 < occurrences (duration b) results) ∧
  (∀ r, r ∈ results → Math_round (totalDuration r) ∈ duration <$> h) ∧
  Forall finite (duration <$> h) ∧
  sum_list_with (λ b, occurrences (duration b) results) h = length results.
Proof.
  intros Hp h.
  destruct (countDuration_spec results) as [Hnd _]. cbv zeta in Hnd.
  assert (duration <$> h ≡ₚ (foldl countDuration [] results).*1) as Hperm.
  { unfold h. by rewrite histogramData_durations, js_sort_Permutation,
      Object_keys_Permutation. }
  assert (Forall finite (duration <$> h)) as Hfin.
  { rewrite Hperm. apply Forall_forall. intros d Hd.
    apply countDuration_keys in Hd as (r & Hr & <-).
    rewrite Forall_forall in Hp. by apply Math_round_finite, Hp. }
  split; [|split; [|split; [|split; [done|]]]].
  - apply StronglySorted_strict; [|by rewrite Hperm].
    unfold h. rewrite histogramData_durations by done. apply js_sort_Sorted.
    rewrite Object_keys_Permutation. by rewrite <- Hperm.
  - intros b Hb. unfold h in Hb. rewrite histogramData_printable in Hb by done.
    rewrite js_sort_Permutation in Hb.
    apply list_elem_of_fmap in Hb as (d & -> & Hd). cbn [count duration].
    split; [done|]. rewrite Object_keys_Permutation in Hd.
    apply occurrences_pos. by apply countDuration_keys.
  - intros r Hr. rewrite Hperm. apply countDuration_keys. eauto.
  - assert (∀ l : list bar,
      sum_list_with (λ b, occurrences (duration b) results) l
      = sum_list_with (λ d, occurrences d results) (duration <$> l)) as E.
    { intros l. induction l as [|a l IH]; [done|]. cbn. by rewrite IH. }
    rewrite E, Hperm. apply occurrences_total; [done|].
    intros r Hr. apply countDuration_keys. eauto.
Qed.

(** X16. The histogram of runs whose rounded totals JavaScript
    prints in full.  Its durations increase strictly; every bar counts the
    runs whose total rounds to the duration of the bar, at least one;
    every run falls into a bar; and the counts add up to the number of
    runs. *)
Theorem histogram_counts_runs (results : list SimulationResult) :
  Forall printable results →
  let h := histogramData results in
  StronglySorted nlt (duration <$> h) ∧
  (∀ b, b ∈ h →
     count b = Some (ofNat (occurrences (duration b) results)) ∧
     0 < occurrences (duration b) results) ∧
  (∀ r, r ∈ results → Math_round (totalDuration r) ∈ duration <$> h) ∧
  sumOf ((λ b, toNumber (count b)) <$> h) = ofNat (length results).
Proof.
  intros Hp h.
  destruct (histogram_structure results Hp) as (Hsorted & Hbars & Hcover & _ & Htotal).
  fold h in Hsorted, Hbars, Hcover, Htotal.
  split; [done|]. split; [done|]. split; [done|].
  rewrite (Forall_fmap_ext_1 _ (λ b, ofNat (occurrences (duration b) results))).
  - rewrite (list_fmap_compose (λ b, occurrences (duration b) results) ofNat).
    rewrite sumOf_ofNat. f_equal. rewrite <- Htotal.
    generalize h. intros l. induction l as [|a l IH]; [done|]. cbn. by rewrite <- IH.
  - apply Forall_forall. intros b Hb. by destruct (Hbars b Hb) as [-> _].
Qed.


Lemma planRuns_printable : Forall printable planRuns.
Proof.
  let l := eval vm_compute in planRuns in
  assert (planRuns = l) as -> by (vm_compute; reflexivity).
  repeat first [apply Forall_nil_2 | apply Forall_cons_2];
    (eapply printable_Fin; [reflexivity|by vm_compute]).
Qed.

Lemma histogram_counts_runs_witness :
  let h := histogramData planRuns in
  StronglySorted nlt (duration <$> h) ∧
  (∀ b, b ∈ h →
     count b = Some (ofNat (occurrences (duration b) planRuns)) ∧
     0 < occurrences (duration b) planRuns) ∧
  (∀ r, r ∈ planRuns → Math_round (totalDuration r) ∈ duration <$> h) ∧
  sumOf ((λ b, toNumber (count b)) <$> h) = ofNat (length planRuns).
Proof. apply (histogram_counts_runs planRuns), planRuns_printable. Defined.

(** * The dashboard: the cumulative distribution *)

Section distribution.
Local Open Scope Qc_scope.

(** The loop of [cdfData] over bars with known counts. *)
Lemma cdfData_fold (n : nat) (g : bar → nat) (bars : list bar) :
  (∀ b, b ∈ bars → count b = Some (ofNat (g b))) →
  let res := foldl (accumulate n) (Fin 0, []) bars in
  res.1 = ofNat (sum_list_with g bars) ∧
  cdf_duration <$> res.2 = duration <$> bars ∧
  ∀ i p, res.2 !! i = Some p →
    probability p = percent (sum_list_with g (take (S i) bars)) n.
Proof.
  induction bars as [|b bars IH] using rev_ind; intros Hg.
  { cbn. by repeat split. }
  destruct IH as (IH1 & IH2 & IH3).
  { intros b' Hb'. apply Hg, elem_of_app. by left. }
  rewrite foldl_app. cbn [foldl]. cbv zeta. unfold accumulate at 1 3 5.
  cbn [fst snd]. rewrite IH1, (Hg b) by (apply elem_of_app; right; left).
  cbn [toNumber].
  assert (nadd (ofNat (sum_list_with g bars)) (ofNat (g b))
          = ofNat (sum_list_with g (bars ++ [b]))) as Esum.
  { rewrite sum_list_with_app. cbn [sum_list_with]. rewrite Nat.add_0_r.
    unfold ofNat, ofZ. cbn [nadd]. f_equal. apply Qc_is_canon.
    rewrite this_plus, !this_ofZ, Nat2Z.inj_add, inject_Z_plus. reflexivity. }
  rewrite Esum. split; [done|]. split.
  - by rewrite !fmap_app, IH2.
  - intros i p Hi.
    assert (length (foldl (accumulate n) (Fin 0, []) bars).2 = length bars) as Hlen.
    { by rewrite <- (length_fmap cdf_duration), IH2, length_fmap. }
    destruct (decide (i < length bars)%nat) as [Hlt|Hge].
    + rewrite lookup_app_l in Hi by lia. rewrite take_app_le by lia. by apply IH3.
    + rewrite lookup_app_r in Hi by lia. rewrite Hlen in Hi.
      destruct (i - length bars)%nat as [|k] eqn:E; [|by destruct k].
      injection Hi as <-. cbn [probability].
      rewrite take_ge by (rewrite length_app; cbn; lia). done.
Qed.

Lemma percent_all (n : nat) : (0 < n)%nat → percent n n = ofZ 100.
Proof.
  intros Hn. unfold percent, ofNat, ofZ, ndiv.
  rewrite decide_False by (by apply ofNat_nonzero). cbn [nmul]. f_equal.
  field. by apply ofNat_nonzero.
Qed.

Lemma filter_ext_elem {A : Type} (P Q : A → Prop)
    `{!∀ a, Decision (P a)} `{!∀ a, Decision (Q a)} (l : list A) :
  (∀ a, a ∈ l → P a ↔ Q a) → filter P l = filter Q l.
Proof.
  induction l as [|a l IH]; intros Hall; [done|]. rewrite !filter_cons.
  rewrite IH by (intros b Hb; apply Hall; by right).
  destruct (Hall a ltac:(left)) as [H1 H2].
  destruct (decide (P a)), (decide (Q a)); tauto || done.
Qed.

Lemma nlt_nltb a b : nlt a b → nltb a b = true ∧ nltb b a = false.
Proof.
  intros (x & y & -> & -> & Hxy). rewrite !nltb_Fin. split.
  - by apply bool_decide_eq_true.
  - apply bool_decide_eq_false. intros H. by apply (Qclt_not_le _ _ Hxy), Qclt_le_weak.
Qed.

(** In a strictly ascending list the elements up to position [i] are the
    ones that do not exceed the element at [i]. *)
Lemma sorted_take_below (ds : list num) (i : nat) d d' :
  StronglySorted nlt ds → Forall finite ds → ds !! i = Some d → d' ∈ ds →
  d' ∈ take (S i) ds ↔ nltb d d' = false.
Proof.
  intros Hs Hfin Hi Hd'. apply list_elem_of_lookup in Hd' as [j Hj].
  assert (∀ a b k l, ds !! k = Some a → ds !! l = Some b → (k < l)%nat → nlt a b)
    as Hlt.
  { clear -Hs. induction Hs as [|a ds _ IH Hall]; intros x y k l Hk Hl Hkl.
    - by rewrite lookup_nil in Hk.
    - destruct l as [|l]; [lia|]. cbn in Hl. destruct k as [|k].
      + injection Hk as <-. rewrite Forall_forall in Hall. apply Hall.
        by eapply list_elem_of_lookup_2.
      + cbn in Hk. eapply (IH x y k l); [done..|lia]. }
  split.
  - intros Hin. apply list_elem_of_lookup in Hin as [k Hk].
    apply lookup_take_Some in Hk as [Hk Hki].
    destruct (decide (k = i)) as [->|Hne].
    + assert (d' = d) as -> by congruence.
      rewrite Forall_forall in Hfin. destruct (Hfin d) as [x ->];
        [by eapply list_elem_of_lookup_2|].
      rewrite nltb_Fin. apply bool_decide_eq_false. intros H.
      by apply Qclt_not_eq in H.
    + by apply (nlt_nltb d' d), (Hlt d' d k i); [..|lia].
  - intros Hfalse. destruct (decide (j ≤ i)%nat) as [Hle|Hgt].
    + apply list_elem_of_lookup. exists j. apply lookup_take_Some. split; [done|lia].
    + destruct (nlt_nltb d d') as [Htrue _]; [|congruence].
      apply (Hlt d d' i j); [done..|lia].
Qed.
End distribution.

(** X17. The cumulative distribution of runs whose rounded totals are
    printed in full.  It has a point for every bar of the histogram; the
    probability of a point is the share, in percent, of the runs whose
    total rounds to the duration of the point or to less; and the last
    point stands at 100 percent. *)
Theorem cdf_is_cumulative (results : list SimulationResult) :
  Forall printable results →
  let h := histogramData results in
  let c := cdfData h (length results) in
  cdf_duration <$> c = duration <$> h ∧
  (∀ p, p ∈ c →
     probability p = percent (upTo (cdf_duration p) results) (length results)) ∧
  (results ≠ [] → probability <$> last c = Some (ofZ 100)).
Proof.
  intros Hp h c.
  destruct (histogram_structure results Hp) as (Hsorted & Hbars & Hcover & Hfin & Htotal).
  fold h in Hsorted, Hbars, Hcover, Hfin, Htotal.
  destruct (cdfData_fold (length results)
              (λ b, occurrences (duration b) results) h) as (Hsum & Hdur & Hprob).
  { intros b Hb. by destruct (Hbars b Hb). }
  fold (cdfData h (length results)) in Hdur, Hprob. fold c in Hdur, Hprob.
  assert (length c = length h) as Hlen.
  { by rewrite <- (length_fmap cdf_duration), Hdur, length_fmap. }
  assert (NoDup (duration <$> h)) as Hnd.
  { clear -Hsorted Hfin. induction Hsorted as [|a l _ IH Hall]; [constructor|].
    apply Forall_cons in Hfin as [_ Hfin]. constructor; [|by apply IH].
    intros Hin. rewrite Forall_forall in Hall.
    destruct (Hall a Hin) as (x & y & -> & [= <-] & Hlt). by apply Qclt_not_eq in Hlt. }
  split; [done|]. split.
  - intros p Hin. apply list_elem_of_lookup in Hin as [i Hi].
    rewrite (Hprob i p Hi). f_equal.
    assert ((duration <$> h) !! i = Some (cdf_duration p)) as Hd.
    { by rewrite <- Hdur, list_lookup_fmap, Hi. }
    assert (sum_list_with (λ b, occurrences (duration b) results) (take (S i) h)
            = sum_list_with (λ d, occurrences d results) (take (S i) (duration <$> h)))
      as ->.
    { rewrite <- fmap_take. generalize (take (S i) h). intros l.
      induction l as [|a l IH]; [done|]. cbn. by rewrite IH. }
    rewrite occurrences_sum.
    + unfold upTo. f_equal. apply filter_ext_elem. intros r Hr.
      by apply sorted_take_below; [..|apply Hcover].
    + rewrite <- (take_drop (S i) (duration <$> h)) in Hnd.
      by apply NoDup_app in Hnd as [? _].
  - intros Hne. rewrite last_lookup.
    assert (0 < length results)%nat as Hn by (destruct results; [done|cbn; lia]).
    assert (h ≠ []) as Hh.
    { intros E. destruct results as [|r results]; [done|].
      specialize (Hcover r ltac:(left)). rewrite E in Hcover.
      by apply elem_of_nil in Hcover. }
    assert (0 < length h)%nat as Hhn by (destruct h; [done|cbn; lia]).
    destruct (lookup_lt_is_Some_2 c (pred (length c))) as [p Hpl]; [lia|].
    rewrite Hpl. cbn. f_equal. rewrite (Hprob _ p Hpl).
    rewrite take_ge by lia. rewrite Htotal. by apply percent_all.
Qed.

Lemma cdf_is_cumulative_witness :
  let h := histogramData planRuns in
  let c := cdfData h (length planRuns) in
  cdf_duration <$> c = duration <$> h ∧
  (∀ p, p ∈ c →
     probability p
     = percent (upTo (cdf_duration p) planRuns) (length planRuns)) ∧
  (planRuns ≠ [] → probability <$> last c = Some (ofZ 100)).
Proof. apply (cdf_is_cumulative planRuns), planRuns_printable. Defined.

(** * The task table: the dependency field *)

Section field.
Implicit Types s p text : string.
Implicit Types c : ascii.

Lemma append_cons c s s' : String c s +:+ s' = String c (s +:+ s').
Proof. done. Qed.

Lemma append_nil s : EmptyString +:+ s = s.
Proof. done. Qed.

Lemma split_comma_nonempty text : split_comma text ≠ [].
Proof.
  destruct text as [|c text]; [done|]. cbn [split_comma].
  case_bool_decide; [done|]. by destruct (split_comma text).
Qed.

Lemma split_comma_cons c text :
  c ≠ ","%char →
  ∃ p ps, split_comma text = p :: ps ∧ split_comma (String c text) = String c p :: ps.
Proof.
  intros Hc. cbn [split_comma]. rewrite bool_decide_eq_false_2 by done.
  destruct (split_comma text) as [|p ps] eqn:E; [by apply split_comma_nonempty in E|].
  by exists p, ps.
Qed.

Lemma split_comma_tidy s : hasComma s = false → split_comma s = [s].
Proof.
  induction s as [|c s IH]; [done|]. cbn [hasComma]. intros H.
  apply orb_false_iff in H as [Hc Hs]. apply bool_decide_eq_false in Hc.
  destruct (split_comma_cons c s Hc) as (p & ps & E & ->).
  rewrite (IH Hs) in E. by injection E as <- <-.
Qed.

Lemma split_comma_app s text :
  hasComma s = false →
  split_comma (s +:+ String ","%char text) = s :: split_comma text.
Proof.
  induction s as [|c s IH]; cbn [hasComma]; intros H.
  - done.
  - apply orb_false_iff in H as [Hc Hs]. apply bool_decide_eq_false in Hc.
    rewrite append_cons.
    destruct (split_comma_cons c (s +:+ String ","%char text) Hc) as (p & ps & E & ->).
    rewrite (IH Hs) in E. by injection E as <- <-.
Qed.

Lemma split_comma_pieces text : Forall (λ p, hasComma p = false) (split_comma text).
Proof.
  induction text as [|c text IH]; [by repeat constructor|]. cbn [split_comma].
  case_bool_decide as Hc; [by constructor|].
  destruct (split_comma text) as [|p ps]; [by repeat constructor; cbn; rewrite bool_decide_eq_false_2|].
  apply Forall_cons in IH as [Hp Hps]. constructor; [|done].
  cbn [hasComma]. by rewrite bool_decide_eq_false_2.
Qed.

Lemma trimStart_idem s : trimStart (trimStart s) = trimStart s.
Proof.
  induction s as [|c s IH]; [done|]. cbn [trimStart].
  destruct (isWhiteSpace c) eqn:E; [done|]. cbn [trimStart]. by rewrite E.
Qed.

Lemma trimEnd_idem s : trimEnd (trimEnd s) = trimEnd s.
Proof.
  induction s as [|c s IH]; [done|]. cbn [trimEnd].
  destruct (trimEnd s) as [|c' rest] eqn:E.
  - destruct (isWhiteSpace c) eqn:Ec; [done|]. cbn [trimEnd]. by rewrite Ec.
  - cbn [trimEnd] in IH |- *. by rewrite IH.
Qed.

Lemma trimStart_trimEnd s : trimStart s = s → trimStart (trimEnd s) = trimEnd s.
Proof.
  destruct s as [|c s]; [done|]. cbn [trimStart]. destruct (isWhiteSpace c) eqn:E.
  - intros H. exfalso. apply (f_equal String.length) in H. cbn in H.
    assert (∀ x, String.length (trimStart x) ≤ String.length x) as Hlen.
    { clear. intros x. induction x as [|a x IH]; [done|]. cbn [trimStart].
      destruct (isWhiteSpace a); cbn; lia. }
    specialize (Hlen s). lia.
  - intros _. cbn [trimEnd]. destruct (trimEnd s); rewrite ?E; cbn [trimStart];
      by rewrite E.
Qed.

Lemma trim_idem s : trim (trim s) = trim s.
Proof.
  unfold trim. rewrite trimStart_trimEnd by apply trimStart_idem.
  apply trimEnd_idem.
Qed.

Lemma hasComma_trimStart s : hasComma s = false → hasComma (trimStart s) = false.
Proof.
  induction s as [|c s IH]; [done|]. cbn [trimStart hasComma]. intros H.
  destruct (isWhiteSpace c); [|done]. apply orb_false_iff in H as [_ ?]. auto.
Qed.

Lemma hasComma_trimEnd s : hasComma s = false → hasComma (trimEnd s) = false.
Proof.
  induction s as [|c s IH]; [done|]. cbn [trimEnd hasComma]. intros H.
  apply orb_false_iff in H as [Hc Hs]. specialize (IH Hs).
  destruct (trimEnd s) as [|c' rest].
  - destruct (isWhiteSpace c); [done|]. cbn [hasComma]. by rewrite Hc.
  - cbn [hasComma] in *. by rewrite Hc, IH.
Qed.

Lemma trim_space c s : isWhiteSpace c = true → trim (String c s) = trim s.
Proof. intros H. unfold trim. cbn [trimStart]. by rewrite H. Qed.

(** A leading blank does not change the dependencies read. *)
Lemma parseDependencies_space c text :
  isWhiteSpace c = true →
  parseDependencies (String c text) = parseDependencies text.
Proof.
  intros Hws. unfold parseDependencies. f_equal.
  destruct (decide (c = ","%char)) as [->|Hc]; [done|].
  destruct (split_comma_cons c text Hc) as (p & ps & -> & ->).
  cbn [fmap list_fmap]. by rewrite trim_space.
Qed.

Lemma join_cons sep d d' l :
  join sep (d :: d' :: l) = d +:+ sep +:+ join sep (d' :: l).
Proof. done. Qed.

Lemma parseDependencies_join deps :
  Forall tidy deps → parseDependencies (join ", " deps) = deps.
Proof.
  induction 1 as [|d deps (Hne & Hcomma & Htrim) Hdeps IH]; [done|].
  destruct deps as [|d' deps].
  - unfold parseDependencies, join. cbn [String.concat].
    rewrite split_comma_tidy by done. cbn [fmap list_fmap]. rewrite Htrim.
    by rewrite filter_cons, decide_True.
  - rewrite join_cons.
    change (", " +:+ join ", " (d' :: deps))
      with (String ","%char (String " "%char (join ", " (d' :: deps)))).
    unfold parseDependencies at 1. rewrite split_comma_app by done.
    cbn [fmap list_fmap]. rewrite Htrim, filter_cons, decide_True by done.
    f_equal. fold (parseDependencies (String " "%char (join ", " (d' :: deps)))).
    by rewrite parseDependencies_space.
Qed.

Lemma parseDependencies_tidy text : Forall tidy (parseDependencies text).
Proof.
  unfold parseDependencies. apply Forall_forall. intros d Hd.
  apply list_elem_of_filter in Hd as [Hne Hd].
  apply list_elem_of_fmap in Hd as (p & -> & Hp).
  pose proof (split_comma_pieces text) as Hall. rewrite Forall_forall in Hall.
  split; [done|]. split; [|apply trim_idem].
  unfold trim. by apply hasComma_trimEnd, hasComma_trimStart, Hall.
Qed.

Lemma split_comma_snoc_comma text :
  split_comma (text +:+ ",") = split_comma text ++ [EmptyString].
Proof.
  induction text as [|c text IH]; [done|]. rewrite append_cons. cbn [split_comma].
  case_bool_decide; [by rewrite IH|]. rewrite IH.
  destruct (split_comma text) as [|p ps] eqn:E; [by apply split_comma_nonempty in E|].
  done.
Qed.

Lemma split_comma_snoc c text :
  c ≠ ","%char →
  ∃ ps p, split_comma text = ps ++ [p] ∧
    split_comma (text +:+ String c EmptyString) = ps ++ [p +:+ String c EmptyString].
Proof.
  intros Hc. induction text as [|a text (ps & p & E & E')].
  - exists [], EmptyString. rewrite append_nil. cbn [split_comma app].
    by rewrite bool_decide_eq_false_2.
  - rewrite append_cons. cbn [split_comma]. rewrite E, E'. case_bool_decide.
    + by exists (EmptyString :: ps), p.
    + destruct ps as [|p' ps]; cbn [app].
      * by exists [], (String a p).
      * by exists (String a p' :: ps), p.
Qed.

Lemma trimEnd_snoc c s :
  isWhiteSpace c = true → trimEnd (s +:+ String c EmptyString) = trimEnd s.
Proof.
  intros Hws. induction s as [|a s IH].
  - rewrite append_nil. cbn [trimEnd]. by rewrite Hws.
  - rewrite append_cons. cbn [trimEnd]. by rewrite IH.
Qed.

Lemma trim_snoc c s :
  isWhiteSpace c = true → trim (s +:+ String c EmptyString) = trim s.
Proof.
  intros Hws. unfold trim. induction s as [|a s IH].
  - rewrite append_nil. cbn [trimStart]. by rewrite Hws.
  - rewrite append_cons. cbn [trimStart]. destruct (isWhiteSpace a); [done|].
    by rewrite <- (trimEnd_snoc c (String a s) Hws).
Qed.

Lemma parseDependencies_snoc_comma text :
  parseDependencies (text +:+ ",") = parseDependencies text.
Proof.
  unfold parseDependencies. rewrite split_comma_snoc_comma, fmap_app, filter_app.
  cbn [fmap list_fmap]. rewrite filter_cons, decide_False, filter_nil by (by intros []).
  apply app_nil_r.
Qed.

Lemma parseDependencies_snoc c text :
  isWhiteSpace c = true →
  parseDependencies (text +:+ String c EmptyString) = parseDependencies text.
Proof.
  intros Hws. unfold parseDependencies.
  destruct (split_comma_snoc c text) as (ps & p & -> & ->).
  { intros ->. by vm_compute in Hws. }
  rewrite !fmap_app. cbn [fmap list_fmap]. by rewrite trim_snoc.
Qed.
End field.

(** X18. The dependency field gives back what it shows.  For
    identifiers that are not empty, hold no comma and have no white space
    at their ends, reading the text [deps.join(', ')] gives [deps]. *)
Theorem dependency_field_round_trip (deps : list string) :
  Forall tidy deps → parseDependencies (join ", " deps) = deps.
Proof. apply parseDependencies_join. Qed.

Lemma dependency_field_round_trip_witness :
  parseDependencies (join ", " ["design"; "build 2"; "test"])
  = ["design"; "build 2"; "test"].
Proof.
  apply (dependency_field_round_trip ["design"; "build 2"; "test"]).
  repeat constructor; done.
Defined.

(** X19. What the dependency field stores is in normal form, and a
    separator typed at the end of the text is lost.  Every identifier read
    from a text is not empty, holds no comma and has no white space at its
    ends, so that the text the field then shows reads back as the same
    dependencies; and a comma or a blank appended to a text does not change
    the dependencies read from it. *)
Theorem dependency_field_normalises (text : string) :
  Forall tidy (parseDependencies text) ∧
  parseDependencies (join ", " (parseDependencies text)) = parseDependencies text ∧
  parseDependencies (text +:+ ",") = parseDependencies text ∧
  (∀ c, isWhiteSpace c = true →
     parseDependencies (text +:+ String c EmptyString) = parseDependencies text) ∧
  join ", " (parseDependencies (join ", " (parseDependencies text) +:+ ","))
  = join ", " (parseDependencies text).
Proof.
  split; [apply parseDependencies_tidy|]. split; [|split; [|split]].
  - apply parseDependencies_join, parseDependencies_tidy.
  - apply parseDependencies_snoc_comma.
  - intros c Hc. by apply parseDependencies_snoc.
  - rewrite parseDependencies_snoc_comma.
    by rewrite parseDependencies_join by apply parseDependencies_tidy.
Qed.

(** * The task table: adding and removing tasks *)

Section edits.

Lemma tc_sub {A : Type} (R R' : relation A) a b :
  (∀ x y, R x y → R' x y) → tc R a b → tc R' a b.
Proof. intros Hsub. induction 1; [apply tc_once|eapply tc_l]; eauto. Qed.

(** A collection whose dependency edges are edges of a collection that
    sorts, sorts as well. *)
Lemma topologicalSort_sub ts ts' sorted :
  (∀ a b, dep ts' a b → dep ts a b) →
  topologicalSort ts = Ok sorted →
  ∃ sorted', topologicalSort ts' = Ok sorted'.
Proof.
  intros Hsub Hsort. destruct (topologicalSort ts') as [sorted'|msg|] eqn:E.
  - by exists sorted'.
  - apply topologicalSort_Throw in E as [a Ha].
    exfalso. apply (topologicalSort_Ok_acyclic ts sorted a Hsort).
    by apply (tc_sub (dep ts')).
  - by apply topologicalSort_fuel in E.
Qed.




Lemma find_task_snoc ts new a :
  find_task (ts ++ [new]) a
  = match find_task ts a with
    | Some t => Some t
    | None => if bool_decide (id new = a) then Some new else None
    end.
Proof.
  unfold find_task. induction ts as [|t ts IH]; cbn [app List.find]; [done|].
  destruct (bool_decide (id t = a)); [done|apply IH].
Qed.

Lemma dep_snoc ts new a b :
  dependencies new = [] → dep (ts ++ [new]) a b → dep ts a b.
Proof.
  intros Hnew (t & Hfind & Hb). rewrite find_task_snoc in Hfind.
  destruct (find_task ts a) as [t'|] eqn:E.
  - injection Hfind as <-. by exists t'.
  - case_bool_decide; [|done]. injection Hfind as <-.
    rewrite Hnew in Hb. by apply elem_of_nil in Hb.
Qed.

(** A task without dependencies, scheduled once, starts at [0]. *)
Lemma forwardPass_free durations sorted t :
  NoDup (id <$> sorted) → t ∈ sorted → dependencies t = [] →
  startTimes (forwardPass durations sorted) !! id t = Some (Fin 0%Qc).
Proof.
  intros Hnd Ht Hfree. apply list_elem_of_lookup in Ht as [j Hj].
  rewrite <- (take_drop_middle sorted j t Hj) in Hnd |- *.
  rewrite fmap_app, fmap_cons in Hnd.
  apply NoDup_app in Hnd as (_ & _ & Hr). apply NoDup_cons in Hr as [Hr _].
  unfold forwardPass. rewrite foldl_app. cbn [foldl].
  destruct (foldl_scheduleTask_other durations (drop (S j) sorted)
              (scheduleTask durations
                 (foldl (scheduleTask durations) scheduleInit (take j sorted)) t)
              (id t) Hr) as [-> _].
  apply scheduleTask_start_0. intros d Hd. rewrite Hfree in Hd.
  by apply elem_of_nil in Hd.
Qed.
End edits.



(** X21. Adding a task keeps a project that simulates simulating.  When
    [runSimulation] returns for a project it returns for the project with
    the new task too; if the identifier made from the time is new, the new
    task starts at [0] in every run. *)
Theorem adding_keeps_simulation (sqrtQ : Qc → Qc) (rand : nat → Qc)
    (project : ProjectData) (n : nat) (results : list SimulationResult)
    (stats : SimulationStats) (now : N) :
  runSimulation sqrtQ rand project n = Ok (results, stats) →
  ∃ results' stats',
    runSimulation sqrtQ rand (addTask project now) n = Ok (results', stats') ∧
    length results' = n ∧
    (NoDup (id <$> tasks project) → (newTaskId now ∉ id <$> tasks project) →
     ∀ r, r ∈ results' → taskStartTimes r !! newTaskId now = Some (Fin 0%Qc)).
Proof.
  intros Hrun. apply runSimulation_Ok in Hrun as (sorted & Hsort & _).
  destruct (topologicalSort_sub (tasks project) (tasks (addTask project now)) sorted)
    as [sorted' Hsort']; [intros a b; by apply dep_snoc|done|].
  eexists _, _. split; [|split].
  - apply runSimulation_Ok. exists sorted'. by split.
  - apply simulateRuns_length.
  - intros Hnd Hfresh r Hr. apply simulateRuns_elem in Hr as (i & k & ->).
    rewrite simulateRun_fst. cbn [taskStartTimes].
    assert (NoDup (id <$> tasks (addTask project now))) as Hnd'.
    { cbn [addTask withTasks tasks]. rewrite fmap_app. apply NoDup_app.
      split; [done|]. split; [|apply NoDup_singleton].
      intros x Hx ->%list_elem_of_singleton. done. }
    pose proof (topologicalSort_Permutation _ _ Hnd' Hsort') as Hperm.
    set (newTask := {| id := newTaskId now; name := "New Task";
       optimistic := ofZ 1; mostLikely := ofZ 2; pessimistic := ofZ 4;
       dependencies := []; resourceType := None; resourceCount := None |}).
    apply (forwardPass_free _ sorted' newTask); [by rewrite Hperm| |done].
    rewrite Hperm. cbn [addTask withTasks tasks]. apply elem_of_app. right. left.
Qed.

Lemma adding_keeps_simulation_witness :
  ∃ results' stats',
    runSimulation sqrt_floor sevenths (addTask planProject 1700000000123) 5
      = Ok (results', stats') ∧
    length results' = 5 ∧
    (NoDup (id <$> tasks planProject) →
     (newTaskId 1700000000123 ∉ id <$> tasks planProject) →
     ∀ r, r ∈ results' →
       taskStartTimes r !! newTaskId 1700000000123 = Some (Fin 0%Qc)).
Proof.
  apply (adding_keeps_simulation sqrt_floor sevenths planProject 5
           planRuns planStats 1700000000123).
  exact planProject_runs.
Defined.

(** * The application *)

Lemma runSimulation_nonempty sqrtQ rand p n results' stats :
  n ≠ 0 → runSimulation sqrtQ rand p n = Ok (results', stats) → results' ≠ [].
Proof.
  intros Hn Hrun E. apply runSimulation_Ok in Hrun as (sorted & _ & Hres & _).
  apply Hn. rewrite <- (simulateRuns_length sqrtQ rand (tasks p) sorted n 0 0), <- Hres.
  by rewrite E.
Qed.

(** X22. What the button [Run Simulation] does.  Without a project,
    or with a project without tasks, nothing happens.  With tasks whose
    dependencies are acyclic, the dashboard is drawn for the project with
    2000 runs and statistics whose median, extremes and percentiles are
    defined.  With unique identifiers and a dependency cycle, the state
    stays as it is, the planner included, and the error ["Circular
    dependency detected"] is thrown where nothing catches it. *)
Theorem handleRunSimulation_outcomes (sqrtQ : Qc → Qc) (rand : nat → Qc)
    (s : AppState) :
  (project s = None → handleRunSimulation sqrtQ rand s = (s, None)) ∧
  (∀ p, project s = Some p → tasks p = [] →
     handleRunSimulation sqrtQ rand s = (s, None)) ∧
  (∀ p, project s = Some p → tasks p ≠ [] → acyclic (tasks p) →
     ∃ s' stats,
       handleRunSimulation sqrtQ rand s = (s', None) ∧
       runSimulation sqrtQ rand p 2000 = Ok (simResults s', stats) ∧
       dashboardProps s' = Some (stats, simResults s', p) ∧
       messages s' = messages s ∧
       length (simResults s') = 2000 ∧
       is_Some (median stats) ∧ is_Some (min stats) ∧ is_Some (max stats) ∧
       is_Some (p50 stats) ∧ is_Some (p90 stats) ∧ is_Some (p95 stats) ∧
       is_Some (p99 stats)) ∧
  (∀ p, project s = Some p → NoDup (id <$> tasks p) →
     (∃ a, tc (depends_on (tasks p)) a a) →
     handleRunSimulation sqrtQ rand s = (s, Some "Circular dependency detected")).
Proof.
  unfold handleRunSimulation. split; [by intros ->|]. split; [by intros p -> ->|].
  split.
  - intros p Hp Hne Hacyclic. rewrite Hp.
    destruct (tasks p) as [|t ts] eqn:Ets; [done|]. rewrite <- Ets in *.
    destruct (topologicalSort_acyclic _ Hacyclic) as [sorted Hsort].
    destruct (runSimulation sqrtQ rand p 2000) as [[results' stats]|msg|] eqn:Hrun.
    + eexists _, stats. split; [done|]. cbn [simResults]. split; [done|].
      split; [done|]. split; [by destruct s|].
      pose proof Hrun as Hrun'.
      apply runSimulation_Ok in Hrun' as (sorted' & _ & Hres & Hstats).
      split; [rewrite Hres; apply simulateRuns_length|].
      rewrite Hstats. apply computeStats_defined.
      apply (runSimulation_nonempty sqrtQ rand p 2000 results' stats); [lia|done].
    + apply runSimulation_Throw in Hrun. congruence.
    + unfold runSimulation in Hrun. by rewrite Hsort in Hrun.
  - intros p Hp Hnd [a Ha]. rewrite Hp.
    destruct (tasks p) as [|t ts] eqn:Ets.
    { exfalso. clear -Ha. induction Ha as [x y (t & Ht & _)|x y z (t & Ht & _) _ _];
        by apply elem_of_nil in Ht. }
    rewrite <- Ets in *.
    assert (runSimulation sqrtQ rand p 2000 = Throw circular) as ->; [|done].
    apply runSimulation_Throw. by eapply topologicalSort_cyclic.
Qed.

(** X23. The request sent for a new chat message holds the message
    twice.  [handleSendMessage] hands over the history with the new
    message already in it, and [analyzeProjectDescription] appends the
    message once more: the contents are one entry for each earlier message
    and then two entries with the role ["user"] and the new text. *)
Theorem new_message_is_sent_twice (messages : list ChatMessage) (input : string) :
  sentContents messages input
  = ((λ m, {| content_role := roleName (role m); parts := [text m] |})
       <$> messages)
    ++ [ {| content_role := "user"; parts := [input] |};
         {| content_role := "user"; parts := [input] |} ].
Proof.
  unfold sentContents, contents. rewrite !fmap_app, <- app_assoc.
  rewrite <- list_fmap_compose. f_equal.
  apply list_fmap_ext. intros _ m _. cbn. by destruct (role m).
Qed.

(** * The task table: names *)

Section names.

Lemma find_task_unnamed ts x :
  find_task (unnamed <$> ts) x = unnamed <$> find_task ts x.
Proof.
  unfold find_task. induction ts as [|t ts IH]; [done|].
  cbn [fmap list_fmap List.find]. fold (fmap (M:=list) unnamed).
  change (id (unnamed t)) with (id t). by case_bool_decide.
Qed.

Lemma forEachM_unnamed (f f' : string → sortState → outcome sortState) l s :
  (∀ x s, f' x (unnamedState s) = mapOutcome unnamedState (f x s)) →
  forEachM f' l (unnamedState s) = mapOutcome unnamedState (forEachM f l s).
Proof.
  intros Hf. revert s. induction l as [|x l IH]; intros s; [done|].
  cbn [forEachM]. rewrite Hf. destruct (f x s) as [s1| |]; cbn [mapOutcome]; [|done..].
  apply IH.
Qed.

Lemma visit_unnamed ts fuel x s :
  visit (unnamed <$> ts) fuel x (unnamedState s)
  = mapOutcome unnamedState (visit ts fuel x s).
Proof.
  revert x s. induction fuel as [|fuel IH]; intros x s; [done|].
  cbn [visit]. change (temp (unnamedState s)) with (temp s).
  change (visited (unnamedState s)) with (visited s).
  case_decide; [done|]. case_decide; [done|].
  rewrite find_task_unnamed. destruct (find_task ts x) as [task|]; cbn [fmap option_fmap option_map].
  - change (dependencies (unnamed task)) with (dependencies task).
    change {| visited := visited s; result := result (unnamedState s);
              temp := {[x]} ∪ temp s |}
      with (unnamedState {| visited := visited s; result := result s;
                            temp := {[x]} ∪ temp s |}).
    rewrite (forEachM_unnamed (visit ts fuel)) by apply IH.
    destruct (forEachM (visit ts fuel) (dependencies task) _) as [s2| |];
      cbn [mapOutcome]; [|done..].
    f_equal. unfold unnamedState. cbn [visited result temp]. f_equal.
    by rewrite fmap_app.
  - done.
Qed.

Lemma forEachM_visitUnvisited_unnamed ts fuel l s :
  forEachM (visitUnvisited (unnamed <$> ts) fuel) (unnamed <$> l) (unnamedState s)
  = mapOutcome unnamedState (forEachM (visitUnvisited ts fuel) l s).
Proof.
  revert s. induction l as [|t l IH]; intros s; [done|].
  cbn [fmap list_fmap forEachM]. fold (fmap (M:=list) unnamed).
  unfold visitUnvisited at 1 3. change (id (unnamed t)) with (id t).
  change (visited (unnamedState s)) with (visited s). case_decide.
  - apply IH.
  - rewrite visit_unnamed. destruct (visit ts fuel (id t) s) as [s1| |];
      cbn [mapOutcome]; [|done..]. apply IH.
Qed.

Lemma topologicalSort_unnamed ts :
  topologicalSort (unnamed <$> ts) = mapOutcome (fmap unnamed) (topologicalSort ts).
Proof.
  unfold topologicalSort. rewrite length_fmap.
  change sortInit with (unnamedState sortInit) at 1.
  rewrite forEachM_visitUnvisited_unnamed.
  by destruct (forEachM _ ts sortInit).
Qed.

Lemma sampleDurations_unnamed sqrtQ rand ts k :
  sampleDurations sqrtQ rand (unnamed <$> ts) k = sampleDurations sqrtQ rand ts k.
Proof.
  unfold sampleDurations. generalize (∅ : gmap string num, k).
  induction ts as [|t ts IH]; intros acc; [done|].
  cbn [fmap list_fmap foldl]. fold (fmap (M:=list) unnamed). by rewrite IH.
Qed.

Lemma forwardPass_unnamed durations sorted :
  forwardPass durations (unnamed <$> sorted) = forwardPass durations sorted.
Proof.
  unfold forwardPass. generalize scheduleInit.
  induction sorted as [|t ts IH]; intros sch; [done|].
  cbn [fmap list_fmap foldl]. fold (fmap (M:=list) unnamed). by rewrite IH.
Qed.

Lemma resourceEvents_unnamed sch ts :
  resourceEvents sch (unnamed <$> ts) = resourceEvents sch ts.
Proof.
  unfold resourceEvents. induction ts as [|t ts IH]; [done|].
  cbn [fmap list_fmap flat_map]. fold (fmap (M:=list) unnamed). by rewrite IH.
Qed.

Lemma resourceTypesOf_unnamed ts :
  resourceTypesOf (unnamed <$> ts) = resourceTypesOf ts.
Proof.
  unfold resourceTypesOf. generalize (@nil string).
  induction ts as [|t ts IH]; intros acc; [done|].
  cbn [fmap list_fmap foldl]. fold (fmap (M:=list) unnamed). by rewrite IH.
Qed.

Lemma simulateRuns_unnamed sqrtQ rand ts sorted n i k :
  simulateRuns sqrtQ rand (unnamed <$> ts) (unnamed <$> sorted) n i k
  = simulateRuns sqrtQ rand ts sorted n i k.
Proof.
  revert i k. induction n as [|n IH]; intros i k; [done|].
  cbn [simulateRuns]. unfold simulateRun, resourcePeaks.
  rewrite sampleDurations_unnamed.
  destruct (sampleDurations sqrtQ rand ts k) as [durations k'].
  rewrite forwardPass_unnamed, resourceEvents_unnamed. by rewrite IH.
Qed.

(** [runSimulation] reads the tasks without their names. *)
Lemma runSimulation_unnamed sqrtQ rand p n :
  runSimulation sqrtQ rand (withTasks p (unnamed <$> tasks p)) n
  = runSimulation sqrtQ rand p n.
Proof.
  unfold runSimulation. cbn [withTasks tasks]. rewrite topologicalSort_unnamed.
  destruct (topologicalSort (tasks p)) as [sorted| |]; cbn [mapOutcome]; [|done..].
  rewrite simulateRuns_unnamed. unfold computeStats.
  by rewrite resourceTypesOf_unnamed.
Qed.
End names.

(** X24. The name of a task is for display only.  Changing the name of
    the task of a row through [handleTaskChange] changes nothing of what
    [runSimulation] returns or throws: not the runs, not the statistics,
    not the error. *)
Theorem renaming_keeps_results (sqrtQ : Qc → Qc) (rand : nat → Qc)
    (p p' : ProjectData) (idx n : nat) (value : string) :
  handleTaskChange p idx (name_value value) = Some p' →
  runSimulation sqrtQ rand p' n = runSimulation sqrtQ rand p n ∧
  id <$> tasks p' = id <$> tasks p ∧
  (name <$> tasks p' !! idx) = Some value.
Proof.
  unfold handleTaskChange. destruct (tasks p !! idx) as [task|] eqn:Hidx; [|done].
  intros [= <-]. cbn [withTasks tasks]. split; [|split].
  - rewrite <- (runSimulation_unnamed sqrtQ rand (withTasks p _)).
    rewrite <- (runSimulation_unnamed sqrtQ rand p). cbn [withTasks tasks].
    unfold runSimulation. cbn [tasks]. 
    rewrite list_fmap_insert. change (unnamed (withField task (name_value value)))
      with (unnamed task).
    rewrite (list_insert_id (unnamed <$> tasks p)); [done|].
    by rewrite list_lookup_fmap, Hidx.
  - rewrite list_fmap_insert. apply list_insert_id. by rewrite list_lookup_fmap, Hidx.
  - rewrite list_lookup_insert_eq by (by eapply lookup_lt_Some). done.
Qed.

Lemma renaming_keeps_results_witness :
  runSimulation sqrt_floor sevenths renamedProject 3
  = runSimulation sqrt_floor sevenths planProject 3 ∧
  id <$> tasks renamedProject = id <$> tasks planProject ∧
  (name <$> tasks renamedProject !! 2%nat) = Some "Build the thing".
Proof.
  apply (renaming_keeps_results sqrt_floor sevenths planProject renamedProject
           2 3 "Build the thing").
  done.
Defined.

(** * The critical path *)

Section critical.
Local Open Scope Qc_scope.
Variables (ts sorted : list Task) (durations : gmap string num).
Hypothesis ts_NoDup : NoDup (id <$> ts).
Hypothesis ts_sorted : topologicalSort ts = Ok sorted.
Hypothesis bounds : passBounds durations sorted (forwardPass durations sorted).

Lemma critical_Permutation : sorted ≡ₚ ts.
Proof. by apply topologicalSort_Permutation. Qed.

Lemma critical_times t :
  t ∈ ts →
  ∃ s d, durations !! id t = Some (Fin d) ∧
    startTimes (forwardPass durations sorted) !! id t = Some (Fin s) ∧
    finishTimes (forwardPass durations sorted) !! id t = Some (Fin (s + d)) ∧
    0 ≤ s.
Proof.
  intros Ht. destruct (pb_task _ _ _ bounds t) as (s & d & ? & ? & ? & ? & _).
  { by rewrite critical_Permutation. }
  by exists s, d.
Qed.

(** No chain takes longer than its last task needs to finish. *)
Lemma path_below t p :
  pathOf ts (t :: p) →
  ∃ f, finishTimes (forwardPass durations sorted) !! id t = Some (Fin f) ∧
    sumQc (durationOf durations <$> t :: p) ≤ f.
Proof.
  revert t. induction p as [|t' p IH]; intros t Hp;
    inversion Hp as [? Hin|? ? ? Hin Hdepends Hrest]; subst.
  - destruct (critical_times t) as (s & d & Hd & Hs & Hf & Hs0); [done|].
    exists (s + d). split; [done|]. cbn [fmap list_fmap sumQc foldr].
    unfold durationOf. rewrite Hd. cbn [finiteOf]. qc2q. lra.
  - destruct (IH t') as (f' & Hf' & Hle); [done|].
    destruct (critical_times t) as (s & d & Hd & Hs & Hf & Hs0); [done|].
    assert (t' ∈ ts) as Ht' by (by inversion Hrest).
    destruct (sorted_before ts sorted t t' ts_NoDup ts_sorted) as (i & j & Hi & Hj & Hlt);
      [done..|].
    pose proof (pb_deps _ _ _ bounds i j t t' Hi Hj Hlt Hdepends) as Hdep.
    rewrite Hf', Hs in Hdep. cbn [finiteOf] in Hdep.
    exists (s + d). split; [done|].
    rewrite fmap_cons. cbn [sumQc foldr]. fold (sumQc (durationOf durations <$> t' :: p)).
    unfold durationOf at 1. rewrite Hd. cbn [finiteOf].
    revert Hle. generalize (sumQc (durationOf durations <$> t' :: p)). intros x Hle.
    qc2q. lra.
Qed.

(** Some chain takes exactly as long as its last task needs to finish. *)
Lemma path_reaches i t :
  sorted !! i = Some t →
  ∃ p f, pathOf ts (t :: p) ∧
    finishTimes (forwardPass durations sorted) !! id t = Some (Fin f) ∧
    sumQc (durationOf durations <$> t :: p) = f.
Proof.
  revert t. induction i as [i IH] using lt_wf_ind. intros t Hi.
  assert (t ∈ sorted) as Hin by (by eapply list_elem_of_lookup_2).
  assert (t ∈ ts) as Ht by (by rewrite <- critical_Permutation).
  destruct (pb_task _ _ _ bounds t Hin) as (s & d & Hd & Hs & Hf & Hs0 & Hat).
  destruct Hat as [->|(dep & Hdep & Hfdep)].
  - exists [], (0 + d). split; [by constructor|]. split; [done|].
    cbn [fmap list_fmap sumQc foldr]. unfold durationOf. rewrite Hd. cbn [finiteOf]. ring.
  - assert (dep ∈ id <$> sorted) as Hdom.
    { eapply pb_dom; [done|]. by rewrite Hfdep. }
    apply list_elem_of_fmap in Hdom as (t' & -> & Ht').
    assert (t' ∈ ts) as Ht'ts by (by rewrite <- critical_Permutation).
    destruct (sorted_before ts sorted t t' ts_NoDup ts_sorted) as (i' & j & Hi' & Hj & Hlt);
      [done..|].
    assert (i' = i) as ->.
    { apply (NoDup_lookup (id <$> sorted) i' i (id t));
        [by rewrite critical_Permutation|by rewrite list_lookup_fmap, Hi'
        |by rewrite list_lookup_fmap, Hi]. }
    destruct (IH j Hlt t' Hj) as (p & f' & Hp & Hf' & Hsum).
    assert (f' = s) as -> by congruence.
    exists (t' :: p), (s + d). split; [by constructor|]. split; [done|].
    rewrite fmap_cons. cbn [sumQc foldr]. fold (sumQc (durationOf durations <$> t' :: p)).
    rewrite Hsum. unfold durationOf. rewrite Hd. cbn [finiteOf]. ring.
Qed.
Lemma pathOf_elem p t : pathOf ts p → t ∈ p → t ∈ ts.
Proof.
  induction 1 as [t0 Hin|t0 t' p Hin Hdep Hp IH]; intros Ht.
  - by apply list_elem_of_singleton in Ht as ->.
  - apply elem_of_cons in Ht as [->|Ht]; [done|by apply IH].
Qed.
End critical.

(** The length of a chain of tasks with finite durations is the sum of the
    durations. *)
Lemma pathLength_sum (r : SimulationResult) (p : list Task) :
  (∀ t, t ∈ p → ∃ d : Qc, taskDurations r !! id t = Some (Fin d)) →
  pathLength r p = Fin (sumQc (durationOf (taskDurations r) <$> p)).
Proof.
  induction p as [|t p IH]; intros Hfin; [done|].
  cbn [pathLength foldr fmap list_fmap sumQc]. fold (pathLength r p).
  fold (sumQc (durationOf (taskDurations r) <$> p)).
  rewrite IH by (intros t' Ht'; apply Hfin; by right).
  destruct (Hfin t ltac:(left)) as [d Hd]. unfold durationOf at 2.
  rewrite Hd. cbn [toNumber nadd finiteOf]. f_equal. apply Qcplus_comm.
Qed.

(** X25. The total duration of a run is the length of its longest
    dependency chain, in a run whose sampled durations are finite, not
    negative and moderate, of a project with unique identifiers and plain
    names.  No chain of tasks, each naming the one before as a dependency,
    takes longer than the total duration, and, unless the project is empty,
    one chain takes exactly as long; yet the run records no critical path:
    [criticalPath] is empty in every run. *)
Theorem total_duration_is_longest_chain (sqrtQ : Qc → Qc) (rand : nat → Qc)
    (project : ProjectData) (n : nat) (results : list SimulationResult)
    (stats : SimulationStats) :
  NoDup (id <$> tasks project) → plainNames (tasks project) →
  runSimulation sqrtQ rand project n = Ok (results, stats) →
  ∀ r, r ∈ results → moderate (taskDurations r) (tasks project) →
    ∃ T : Qc,
      totalDuration r = Fin T ∧
      (∀ p, pathOf (tasks project) p → nle (pathLength r p) (Fin T)) ∧
      (tasks project ≠ [] →
       ∃ p, pathOf (tasks project) p ∧ pathLength r p = Fin T) ∧
      criticalPath r = [].
Proof.
  intros Hnd Hplain Hrun r Hr Hmod.
  assert (∀ p, pathOf (tasks project) p →
    pathLength r p = Fin (sumQc (durationOf (taskDurations r) <$> p))) as Hlen.
  { intros p Hp. apply pathLength_sum. intros t Ht.
    unfold moderate in Hmod. rewrite Forall_forall in Hmod.
    destruct (Hmod t) as (d & ? & _); [by eapply pathOf_elem|]. by exists d. }
  destruct (runSimulation_runs _ _ _ _ _ _ r Hrun Hr)
    as (sorted & i & k & Hsort & E).
  rewrite E in Hlen, Hmod |- *.
  cbn [totalDuration criticalPath taskDurations] in *.
  destruct (run_passBounds _ _ _ Hnd Hplain Hsort Hmod) as [Hperm Hpb].
  destruct (pb_total _ _ _ Hpb) as (T & HT & HT0 & _ & HTat & HTmax).
  exists T. split; [done|]. split; [|split; [|done]].
  - intros p Hp. rewrite (Hlen p Hp). destruct p as [|t p]; [inversion Hp|].
    destruct (path_below _ _ _ Hnd Hsort Hpb t p Hp) as (f & Hf & Hle).
    eexists _, _. split; [done|]. split; [done|].
    eapply Qcle_trans; [done|]. by eapply HTmax.
  - intros Hne. destruct HTat as [->|(t & Ht & Hf)].
    { apply Permutation_nil_l in Hperm. by rewrite <- Hperm in Hne. }
    apply list_elem_of_lookup in Ht as [j Hj].
    destruct (path_reaches _ _ _ Hnd Hsort Hpb j t Hj) as (p & f & Hp & Hf' & Hsum).
    exists (t :: p). split; [done|]. rewrite (Hlen _ Hp). congruence.
Qed.

Lemma total_duration_is_longest_chain_witness :
  Forall (λ r,
    ∃ T : Qc,
      totalDuration r = Fin T ∧
      (∀ p, pathOf (tasks planProject) p → nle (pathLength r p) (Fin T)) ∧
      (tasks planProject ≠ [] →
       ∃ p, pathOf (tasks planProject) p ∧ pathLength r p = Fin T) ∧
      criticalPath r = []) planRuns.
Proof.
  apply Forall_forall. intros r Hr.
  apply (total_duration_is_longest_chain sqrt_floor sevenths planProject 5
           planRuns planStats).
  - exact planTasks_NoDup.
  - exact planTasks_plain.
  - exact planProject_runs.
  - exact Hr.
  - pose proof planRuns_moderate as Hmod. rewrite Forall_forall in Hmod.
    by apply Hmod.
Defined.

(** * The dashboard: the daily resource usage *)

Section timeline.
Local Open Scope Qc_scope.







End timeline.




(** The days of the example: the key ["day"] holds the usage of the type
    of that name, 2 units on each of the days 0, 1 and 2, and 0 on day 3. *)
Example day_key_is_overwritten :
  (λ entry, entry !! "day") <$> default [] (resourceTimeline dayProject (Some dayRun))
  = [Some (ofZ 2); Some (ofZ 2); Some (ofZ 2); Some (ofZ 0)].
Proof. apply (bool_decide_unpack _). by vm_compute. Qed.
